(** * binext: arithmetic in binary extension fields GF(2^m)

    A shallow embedding of [binext/binext.py] (classes [ff] and [ffelt])
    and the properties of its tables, operators, conjugate orbits and
    minimal polynomials.

    Conventions of the embedding.
    - Python ints are [Z]; [%] with a positive modulus is [Z.modulo], a zero
      modulus raises [ZeroDivisionError]; [^], [&], [<<] are [Z.lxor],
      [Z.land], [Z.shiftl].
    - The two dicts of a field are [gmap]s.  [power_to_poly] has the keys
      [None] and the exponents, hence key type [option Z]; [poly_to_power]
      maps a bit pattern to [None] or an exponent.  A subscript on a missing
      key raises [KeyError].
    - Exceptions are values of [exn]; a computation that may raise returns a
      [result].  The interpreter is Python 3 (the package classifiers say so
      and [print(..., end=...)] is used), so [raise] of an object that is not
      an exception instance raises [TypeError].
    - [np.log2] works in [float64]: an int below [2**64] is converted to the
      nearest [float64] and the logarithm is taken as correctly rounded; an
      int of [2**64] or more is refused with [TypeError].  Below [2**48],
      which covers every field whose tables can be held in memory, the
      integer part of the result is the position of the top bit.
    - A polynomial is primitive when [x] has order [q - 1] modulo it
      ([primitive] below, read on the table loop).  This is the precondition
      of the module; the properties of the tables that need it state it. *)

From Stdlib Require Import ZArith List Lia Bool Sorted.
From stdpp Require Import gmap strings list fin_maps pretty.

Local Open Scope Z_scope.

(** ** Exceptions and the error monad *)

Module Py.

Inductive exn : Type :=
| TypeError (msg : string)
| KeyError
| ZeroDivisionError
| OverflowError
| UnboundLocalError.

Inductive result (A : Type) : Type :=
| Ok (a : A)
| Err (e : exn).
Arguments Ok {A} a.
Arguments Err {A} e.

Definition bind {A B} (r : result A) (k : A -> result B) : result B :=
  match r with
  | Ok a => k a
  | Err e => Err e
  end.

(** What a [raise] statement is given: an exception instance, or (as
    everywhere in this module) a plain [str]. *)
Inductive raised : Type :=
| RStr (s : string)
| RExc (e : exn).

Definition not_an_exception : string := "exceptions must derive from BaseException".

(** [raise o]: only instances of [BaseException] can be raised; for anything
    else the interpreter raises [TypeError] and the object is dropped. *)
Definition raise {A} (o : raised) : result A :=
  match o with
  | RStr _ => Err (TypeError not_an_exception)
  | RExc e => Err e
  end.

(** [d[k]] on a dict. *)
Definition subscript `{Countable K} {V} (d : gmap K V) (k : K) : result V :=
  match d !! k with
  | Some v => Ok v
  | None => Err KeyError
  end.

(** [a % n] for a non-negative modulus. *)
Definition pymod (a n : Z) : result Z :=
  if n =? 0 then Err ZeroDivisionError else Ok (a mod n).

End Py.
Import Py.

(** stdpp's [x ← c; k] notation for [result]. *)
#[global] Instance result_bind : MBind result := fun A B k r => bind r k.
#[global] Instance result_ret : MRet result := fun A a => Ok a.

#[global] Instance exn_eq_dec : EqDecision exn.
Proof. solve_decision. Defined.
#[global] Instance result_eq_dec `{EqDecision A} : EqDecision (result A).
Proof. solve_decision. Defined.

(** A boolean test on the value of a computation that must succeed. *)
Definition holds_on {A} (r : result A) (P : A -> bool) : bool :=
  match r with
  | Ok a => P a
  | Err _ => false
  end.

(** ** Class [ff]: the tables of one field *)

Record ff : Type := mk_ff {
  g : Z;
  m : Z;
  q : Z;
  power_to_poly : gmap (option Z) Z;
  poly_to_power : gmap Z (option Z)
}.

#[global] Instance ff_eq_dec : EqDecision ff.
Proof. solve_decision. Defined.

(** Class [ffelt]: [elt] is [None] (the zero element) or an exponent of the
    primitive element.  The attribute [q] of an element is [elt_q] here, the
    name [q] being taken by the field's.  The attributes [debug] and
    [suppressField] only steer printing; elements are built with their
    default [False] and the printing under [debug] is left out. *)
Record ffelt : Type := mk_ffelt {
  f : ff;
  elt_q : Z;
  elt : option Z
}.

(** The Python values that reach the constructors and the operators: [None],
    an [int], a [list] of exponents, an [ff], an [ffelt], or a [str] (standing
    for any other type). *)
Inductive pyval : Type :=
| VNone
| VInt (z : Z)
| VList (l : list N)
| VField (fld : ff)
| VElt (e : ffelt)
| VStr (s : string).

(** The class attribute [ff.primpolys]. *)
Definition primpolys : list (Z * list N) :=
  [ (4,   [0; 1; 2]%N);
    (8,   [0; 1; 3]%N);
    (16,  [0; 1; 4]%N);
    (32,  [0; 2; 5]%N);
    (64,  [0; 1; 6]%N);
    (128, [0; 3; 7]%N);
    (256, [0; 2; 3; 4; 8]%N) ].

Fixpoint primpolys_get (d : list (Z * list N)) (k : Z) : option (list N) :=
  match d with
  | [] => None
  | (k', v) :: d' => if k =? k' then Some v else primpolys_get d' k
  end.

(** [for i in glist: self.g += 2**i]. *)
Definition g_of_list (glist : list N) : Z :=
  fold_left (fun acc i => acc + 2 ^ Z.of_N i) glist 0.

(** The [float64] nearest to a positive int below [2**64] (ties to even): an
    int of at most 53 bits is kept, a longer one is rounded to its 53 leading
    bits. *)
Definition to_float64 (x : Z) : Z :=
  let n := Z.log2 x in
  if n <? 53 then x
  else
    let s := n - 52 in
    let lead := Z.shiftr x s in
    let rest := Z.land x (Z.ones s) in
    let half := 2 ^ (s - 1) in
    let lead :=
      if rest <? half then lead
      else if half <? rest then lead + 1
      else if Z.even lead then lead else lead + 1 in
    Z.shiftl lead s.

(** [int(np.log2(x))] for a [float64] [x >= 1] that is an integer, the
    logarithm being rounded to the nearest [float64].  With [n] the position
    of the top bit of [x], the logarithm lies in [[n, n+1)] and is rounded up
    to [n + 1] when it is within half a spacing of it; the spacing of the
    [float64]s below an integer of [33 .. 64] is [2**-47], which makes this
    the case for the 22 [float64]s just below [2**(n+1)] ([32 ln 2 = 22.18]);
    in [[2**n, 2**(n+1))] these are the [x] with
    [(2**(n+1) - x) * 2**53 <= 22 * 2**(n+1)].  Below an integer of
    [1 .. 32] the spacing is smaller and fewer [float64]s are rounded up,
    but none of them is an integer: the test fails there as it should. *)
Definition float64_log2_int (x : Z) : Z :=
  let n := Z.log2 x in
  if (2 ^ (n + 1) - x) * 2 ^ 53 <=? 22 * 2 ^ (n + 1) then n + 1 else n.

Definition no_log2_loop : string :=
  "loop of ufunc does not support argument 0 of type int which has no callable log2 method".

(** [int(np.log2(g))] for [g >= 0].  [np.log2(0)] is [-inf], which [int]
    refuses with [OverflowError]; an int of [2**64] or more is no machine
    integer, numpy keeps it as an object and [np.log2] raises [TypeError];
    any other int is converted to [float64] and its logarithm is computed in
    [float64], so the result is the position of the top bit of [g] unless
    [g] is so close below a power of two that the conversion or the
    logarithm is rounded up to it (the first such [g] is [2**49 - 1]). *)
Definition int_log2 (x : Z) : result Z :=
  if x =? 0 then Err OverflowError
  else if 2 ^ 64 <=? x then Err (TypeError no_log2_loop)
  else Ok (float64_log2_int (to_float64 x)).

(** One turn of the table loop (lines 98-106): record [n <-> a], shift,
    reduce when bit [m] is set. *)
Definition table_step (qv gp : Z)
    (st : Z * gmap (option Z) Z * gmap Z (option Z)) (n : Z)
    : Z * gmap (option Z) Z * gmap Z (option Z) :=
  let '(a, p2p, p2w) := st in
  let p2p := <[Some n := a]> p2p in
  let p2w := <[a := Some n]> p2w in
  let a := Z.shiftl a 1 in
  let a := if Z.land a qv >? 0 then Z.lxor (Z.land a (qv - 1)) gp else a in
  (a, p2p, p2w).

(** [range(n)] as a list of ints. *)
Definition zrange (n : Z) : list Z := map Z.of_nat (seq 0 (Z.to_nat n)).

Definition build_tables (qv gp : Z) : gmap (option Z) Z * gmap Z (option Z) :=
  let '(_, p2p, p2w) :=
    fold_left (table_step qv gp) (zrange (qv - 1))
              (1, {[ None := 0 ]}, {[ 0 := None ]}) in
  (p2p, p2w).

(** [ff.__init__(self, gspec)]. *)
Definition ff_init (gspec : pyval) : result ff :=
  glist ← match gspec with
           | VInt z =>
               match primpolys_get primpolys z with
               | Some l => Ok l
               | None =>
                   raise (RStr ("No default primitive polynomial for field order "
                                +:+ pretty z))
               end
           | VList l => Ok l
           | _ =>
               raise (RStr "Must specify g as either field order or list of nonzero primitive poly coeffs")
           end;
  let gv := g_of_list glist in
  mv ← int_log2 gv;
  let qv := 2 ^ mv in
  let gp := gv mod qv in
  let '(p2p, p2w) := build_tables qv gp in
  Ok (mk_ff gv mv qv p2p p2w).

(** ** Class [ffelt]: construction *)

(** [if type(f)==ff: self.f=f else: self.f=ff(f)]. *)
Definition field_arg (f0 : pyval) : result ff :=
  match f0 with
  | VField fld => Ok fld
  | _ => ff_init f0
  end.

(** [ffelt.__init__(self, elt, f=-1)].  With one argument the default [f == -1]
    makes the argument the field specifier and the exponent 1. *)
Definition ffelt_init (elt0 : pyval) (f0 : pyval) : result ffelt :=
  let '(elt0, f0) :=
    match f0 with
    | VInt (-1) => (VInt 1, elt0)
    | _ => (elt0, f0)
    end in
  fld ← field_arg f0;
  let qv := q fld in
  match elt0 with
  | VNone => Ok (mk_ffelt fld qv None)
  | VInt z => r ← pymod z (qv - 1); Ok (mk_ffelt fld qv (Some r))
  | _ => raise (RStr "elt must be int or None, not <class>")
  end.

(** [ffelt(elt, f)] and [ffelt(f)]. *)
Definition ffelt2 (elt0 f0 : pyval) : result ffelt := ffelt_init elt0 f0.
Definition ffelt1 (f0 : pyval) : result ffelt := ffelt_init f0 (VInt (-1)).

(** [copy.deepcopy(self)] followed by [ff_result.elt = r]. *)
Definition with_elt (self : ffelt) (r : option Z) : ffelt :=
  mk_ffelt (f self) (elt_q self) r.

(** ** Comparisons *)

(** Truth value of an [__eq__] result: [None] is falsy. *)
Definition truth (r : option bool) : bool :=
  match r with
  | Some b => b
  | None => false
  end.

(** [e.__eq__(k)] for an int [k]: only the literals 0 and 1 are answered, any
    other int falls off the end of the method, which returns [None]. *)
Definition elt_eq_int (e : ffelt) (k : Z) : option bool :=
  if k =? 0 then Some (bool_decide (elt e = None))
  else if k =? 1 then Some (bool_decide (elt e = Some 0))
  else None.

(** Truth value of [a == k] for an int literal [k]; for an [ffelt] on the left
    this is a call of its [__eq__]. *)
Definition py_eq_int (a : pyval) (k : Z) : bool :=
  match a with
  | VInt z => z =? k
  | VElt e => truth (elt_eq_int e k)
  | _ => false
  end.

(** [ffelt.__eq__(self, a)]; [Ok None] is the implicit [return None]. *)
Definition ffelt_eq (self : ffelt) (a : pyval) : result (option bool) :=
  if py_eq_int a 0 then Ok (Some (bool_decide (elt self = None)))
  else if py_eq_int a 1 then Ok (Some (bool_decide (elt self = Some 0)))
  else match a with
       | VElt a' =>
           if elt_q a' =? elt_q self
           then Ok (Some (bool_decide (elt a' = elt self)))
           else raise (RStr "Cannot add elements from different field sizes")
       | _ => Ok None
       end.

(** Truth value of [a == None].  For an [ffelt] this calls [a.__eq__(None)],
    which answers [None] (see [ffelt_eq_None] below): falsy. *)
Definition py_eq_None (a : pyval) : bool :=
  match a with
  | VNone => true
  | _ => false
  end.

(** ** Operators *)

Definition unsupported_operand : string :=
  "unsupported operand type(s): 'int' and 'NoneType'".
Definition str_concat_type : string :=
  "can only concatenate str (not 'type') to str".

(** [x op y] on two attributes that are ints or [None]. *)
Definition int_binop (op : Z -> Z -> Z) (x y : option Z) : result Z :=
  match x, y with
  | Some x, Some y => Ok (op x y)
  | _, _ => Err (TypeError unsupported_operand)
  end.

(** [ffelt.__add__(self, a)].  The leading [if a==None: result=self.elt] has no
    effect: a [None] argument goes on to the final [else]. *)
Definition ffelt_add (self : ffelt) (a : pyval) : result ffelt :=
  r ← (if py_eq_int a 1 then
         x ← subscript (power_to_poly (f self)) (elt self);
         y ← subscript (power_to_poly (f self)) (Some 0);
         Ok (Z.lxor x y)
       else match a with
            | VElt a' =>
                if elt_q a' =? elt_q self then
                  x ← subscript (power_to_poly (f self)) (elt self);
                  y ← subscript (power_to_poly (f a')) (elt a');
                  Ok (Z.lxor x y)
                else raise (RStr "Cannot add elements from different field sizes")
            | _ => Err (TypeError str_concat_type)
            end);
  e ← subscript (poly_to_power (f self)) r;
  Ok (with_elt self e).

(** [ffelt.__sub__]. *)
Definition ffelt_sub (self : ffelt) (a : pyval) : result ffelt := ffelt_add self a.

(** [ffelt.__mul__(self, a)]. *)
Definition ffelt_mul (self : ffelt) (a : pyval) : result ffelt :=
  r ← (if py_eq_None a || bool_decide (elt self = None) then Ok None
       else if py_eq_int a 0 then Ok None
       else if py_eq_int a 1 then Ok (elt self)
       else match a with
            | VElt a' =>
                if elt_q a' =? elt_q self then
                  s ← int_binop Z.add (elt self) (elt a');
                  r ← pymod s (elt_q self - 1);
                  Ok (Some r)
                else raise (RStr "Cannot multiply elements from different field sizes")
            | _ => Err (TypeError str_concat_type)
            end);
  Ok (with_elt self r).

(** [ffelt.__truediv__(self, a)]. *)
Definition ffelt_truediv (self : ffelt) (a : pyval) : result ffelt :=
  r ← (if py_eq_None a then raise (RStr "Division by zero not defined")
       else if bool_decide (elt self = None) then Ok None
       else match a with
            | VInt z =>
                s ← int_binop Z.sub (elt self) (Some z);
                r ← pymod s (elt_q self - 1);
                Ok (Some r)
            | VElt a' =>
                if elt_q a' =? elt_q self then
                  s ← int_binop Z.sub (elt self) (elt a');
                  r ← pymod s (elt_q self - 1);
                  Ok (Some r)
                else raise (RStr "Cannot multiply elements from different field sizes")
            | _ => Err (TypeError str_concat_type)
            end);
  Ok (with_elt self r).

(** [ffelt.__pow__(self, a)]. *)
Definition ffelt_pow (self : ffelt) (a : pyval) : result ffelt :=
  r ← (if bool_decide (elt self = None) then Ok None
       else match a with
            | VInt z =>
                s ← int_binop Z.mul (elt self) (Some z);
                r ← pymod s (elt_q self - 1);
                Ok (Some r)
            | _ => raise (RStr "power must be an integer")
            end);
  Ok (with_elt self r).

(** ** Conjugates *)

(** An exponent attribute as the argument of a call. *)
Definition pyval_of_elt (x : option Z) : pyval :=
  match x with
  | None => VNone
  | Some z => VInt z
  end.

(** The [while True] loop of [ffelt.conjugates], with the list built so far
    and the current [conj].  [None] means the loop is still running when the
    fuel is spent. *)
Fixpoint conjugates_loop (fuel : nat) (self : ffelt) (acc : list ffelt)
    (conj : option Z) : option (result (list ffelt)) :=
  match fuel with
  | O => None
  | S fuel' =>
      match ffelt_init (pyval_of_elt conj) (VField (f self)) with
      | Err e => Some (Err e)
      | Ok x =>
          let acc := acc ++ [x] in
          match (s ← int_binop Z.add conj conj; pymod s (elt_q self - 1)) with
          | Err e => Some (Err e)
          | Ok c =>
              if bool_decide (Some c = elt self) then Some (Ok acc)
              else conjugates_loop fuel' self acc (Some c)
          end
      end
  end.

(** [ffelt.conjugates(self)]. *)
Definition conjugates (fuel : nat) (self : ffelt) : option (result (list ffelt)) :=
  conjugates_loop fuel self [] (elt self).

(** ** Minimal polynomials *)

Fixpoint pos_bits_lsb (p : positive) : list Z :=
  match p with
  | xH => [1]
  | xO p' => 0 :: pos_bits_lsb p'
  | xI p' => 1 :: pos_bits_lsb p'
  end.

(** [np.binary_repr(num)] for [num >= 0], as digits, most significant first. *)
Definition binary_repr (num : N) : list Z :=
  match num with
  | N0 => [0]
  | Npos p => rev (pos_bits_lsb p)
  end.

(** [s.zfill(width)]: pad on the left, never truncate. *)
Definition zfill (width : nat) (l : list Z) : list Z :=
  repeat 0 (width - length l)%nat ++ l.

(** [bin_array(num, m)]. *)
Definition bin_array (num : N) (mw : nat) : list Z := zfill mw (binary_repr num).

(** The inner loop of [minpoly]: for each [(power, coeff)] of
    [enumerate(candidate)] with [coeff > 0], add [self**(len - power - 1)]. *)
Fixpoint eval_terms (self : ffelt) (len power : Z) (cs : list Z) (acc : ffelt)
    : result ffelt :=
  match cs with
  | [] => Ok acc
  | coeff :: cs' =>
      acc ← (if coeff >? 0 then
               p ← ffelt_pow self (VInt (len - power - 1));
               ffelt_add acc (VElt p)
             else Ok acc);
      eval_terms self len (power + 1) cs' acc
  end.

(** [result = ffelt(None, self.f)] followed by the inner loop. *)
Definition poly_eval (self : ffelt) (candidate : list Z) : result ffelt :=
  z ← ffelt_init VNone (VField (f self));
  eval_terms self (Z.of_nat (length candidate)) 0 candidate z.

(** The [for i in range(2**(num_conjugates-1))] loop; [last] is the variable
    [candidate], unbound before the first turn. *)
Fixpoint minpoly_search (self : ffelt) (num_conjugates : nat) (idxs : list N)
    (last : option (list Z)) : result (option (list Z)) :=
  match idxs with
  | [] => Ok last
  | i :: idxs' =>
      let candidate := [1] ++ bin_array i (num_conjugates - 1) ++ [1] in
      r ← poly_eval self candidate;
      z ← ffelt_eq r (VInt 0);
      if truth z then Ok (Some candidate)
      else minpoly_search self num_conjugates idxs' (Some candidate)
  end.

(** [range(n)] for the search, as naturals. *)
Definition nrange (n : N) : list N := map N.of_nat (seq 0 (N.to_nat n)).

(** [np.where(np.flip(candidate) > 0)[0].tolist()]. *)
Definition nonzero_positions (candidate : list Z) : list Z :=
  map fst (filter (fun pc => 0 < snd pc) (zip (zrange (Z.of_nat (length candidate)))
                                               (rev candidate))).

Definition none_gt_int : string :=
  "'>' not supported between instances of 'NoneType' and 'int'".

(** [ffelt.minpoly(self, coeffs)]. *)
Definition minpoly (fuel : nat) (self : ffelt) (coeffs : bool)
    : option (result (list Z)) :=
  let finish (c : result (list Z)) : result (list Z) :=
    candidate ← c;
    Ok (if coeffs then nonzero_positions candidate else candidate) in
  match elt self with
  | None => Some (Err (TypeError none_gt_int))
  | Some e =>
      if e >? 0 then
        match conjugates fuel self with
        | None => None
        | Some (Err ex) => Some (Err ex)
        | Some (Ok cl) =>
            let num_conjugates := length cl in
            Some (finish
              (r ← minpoly_search self num_conjugates
                     (nrange (2 ^ N.of_nat (num_conjugates - 1))) None;
               match r with
               | Some candidate => Ok candidate
               | None => Err UnboundLocalError
               end))
        end
      else if e =? 0 then Some (finish (Ok [1; 1]))
      else Some (raise (RStr ("Something when wrong, self.elt=" +:+ pretty e)))
  end.

(** ** Executable checks on a pair of tables *)

(** The supported field orders: the keys of [primpolys]. *)
Definition catalog : list Z := map fst primpolys.

(** Every exponent of [range(q-1)] is mapped to a pattern that maps back. *)
Definition check_powers (t : ff) : bool :=
  forallb (fun n => match power_to_poly t !! Some n with
                    | Some v => bool_decide (poly_to_power t !! v = Some (Some n))
                    | None => false
                    end)
          (zrange (q t - 1)).

(** Every nonzero pattern of [poly_to_power] is mapped to an exponent that
    maps back, and only the pattern 0 is mapped to [None]. *)
Definition check_polys (t : ff) : bool :=
  forallb (fun vw => if fst vw =? 0 then bool_decide (snd vw = None)
                     else bool_decide (snd vw <> None) &&
                          bool_decide (power_to_poly t !! snd vw = Some (fst vw)))
          (map_to_list (poly_to_power t)).

(** The keys of [power_to_poly] are [None] and the exponents of [range(q-1)];
    only [None] has the pattern 0. *)
Definition check_keys (t : ff) : bool :=
  forallb (fun kv => match fst kv with
                     | None => snd kv =? 0
                     | Some n => (0 <=? n) && (n <? q t - 1) && negb (snd kv =? 0)
                     end)
          (map_to_list (power_to_poly t)).

Definition tables_ok (t : ff) : bool :=
  check_powers t && check_polys t && check_keys t &&
  bool_decide (power_to_poly t !! None = Some 0) &&
  bool_decide (poly_to_power t !! 0 = Some None).

(** The same properties as propositions. *)
Record tables_inverse (t : ff) : Prop := mk_tables_inverse {
  ti_powers : forall n, 0 <= n <= q t - 2 ->
      exists v, power_to_poly t !! Some n = Some v /\
                poly_to_power t !! v = Some (Some n);
  ti_polys : forall v w, v <> 0 -> poly_to_power t !! v = Some w ->
      w <> None /\ power_to_poly t !! w = Some v;
  ti_zero_key : power_to_poly t !! None = Some 0;
  ti_zero_poly : poly_to_power t !! 0 = Some None;
  ti_no_exponent : forall n, power_to_poly t !! Some n <> Some 0;
  ti_keys : forall n v, power_to_poly t !! Some n = Some v -> 0 <= n <= q t - 2
}.

(** Building a field from a specifier and running the checks on it. *)
Definition spec_tables_ok (gspec : pyval) (qv : Z) : bool :=
  match ff_init gspec with
  | Ok t => (q t =? qv) && (2 ^ m t =? qv) && tables_ok t
  | Err _ => false
  end.

(** The zero element of a field, as [ffelt(None, fld)] builds it. *)
Definition zero_of (fld : ff) : ffelt := mk_ffelt fld (q fld) None.

(** The element [ffelt(n, fld)]. *)
Definition elt_of (fld : ff) (n : Z) : ffelt :=
  mk_ffelt fld (q fld) (Some (n mod (q fld - 1))).

(** [conj = (conj+conj) % (self.q-1)] on exponents. *)
Definition double (qv x : Z) : Z := (x + x) mod (qv - 1).

(** [ffelt(c, self.f)] for an exponent [c] of the orbit of [self]. *)
Definition orbit_elt (self : ffelt) (c : Z) : ffelt :=
  mk_ffelt (f self) (q (f self)) (Some c).

(** The state of the table loop of [ff.__init__] after its first [k] turns. *)
Definition tables_upto (qv gp : Z) (k : nat)
    : Z * gmap (option Z) Z * gmap Z (option Z) :=
  fold_left (table_step qv gp) (map Z.of_nat (seq 0 k))
            (1, {[ None := 0 ]}, {[ 0 := None ]}).

(** What the loop keeps true of its two dicts after [k] turns: the keys of
    [power_to_poly] are [None] and the exponents below [k]; each exponent
    stored in [poly_to_power] leads back to its key; [None] is stored under
    the pattern 0 only; each pattern of [power_to_poly] has an exponent. *)
Record tables_inv (k : Z) (p2p : gmap (option Z) Z) (p2w : gmap Z (option Z))
    : Prop := mk_tables_inv {
  tinv_none : p2p !! None = Some 0;
  tinv_keys : forall n, is_Some (p2p !! Some n) <-> 0 <= n < k;
  tinv_back : forall v n, p2w !! v = Some (Some n) -> p2p !! Some n = Some v;
  tinv_zero : forall v, p2w !! v = Some None -> v = 0;
  tinv_forth : forall n v, p2p !! Some n = Some v ->
                 exists n', p2w !! v = Some (Some n')
}.

(** The accumulator part of one turn of the table loop (lines 102-106):
    shift, and reduce when bit [m] is set.  On bit patterns this is the
    multiplication by [x] modulo the polynomial [g]. *)
Definition shift_reduce (qv gp a : Z) : Z :=
  let a := Z.shiftl a 1 in
  if Z.land a qv >? 0 then Z.lxor (Z.land a (qv - 1)) gp else a.

(** The value of [a] when turn [k] of the table loop starts: [x**k] modulo
    [g]. *)
Definition alpha_pattern (t : ff) (k : nat) : Z :=
  Nat.iter k (shift_reduce (q t) (g t mod q t)) 1.

(** The polynomial of a field is primitive: its degree [m] is at least 1 and
    [x] has order [q - 1] modulo it, that is, [x**(q-1)] is 1 and no smaller
    positive power of [x] is.  (There are then [q - 1] distinct powers of
    [x], all the nonzero residues, so the polynomial is irreducible too.)
    This is the precondition under which the tables describe a field. *)
Definition primitive (t : ff) : Prop :=
  1 <= m t /\
  alpha_pattern t (Z.to_nat (q t - 1)) = 1 /\
  forall k, (0 < k < Z.to_nat (q t - 1))%nat -> alpha_pattern t k <> 1.

Definition check_primitive (t : ff) : bool :=
  (1 <=? m t) && (alpha_pattern t (Z.to_nat (q t - 1)) =? 1) &&
  forallb (fun k => negb (alpha_pattern t k =? 1))
          (seq 1 (Z.to_nat (q t - 1) - 1)).

(** An element as the constructor and the operators leave it: its [q] is its
    field's and its exponent, if any, lies in [0 .. q-2]. *)
Definition canonical (e : ffelt) : Prop :=
  elt_q e = q (f e) /\
  match elt e with
  | None => True
  | Some n => 0 <= n <= elt_q e - 2
  end.

(** The exponent a multiplicative operator stores: none, the left operand's,
    or a residue. *)
Definition stored_by (a : ffelt) (e : option Z) : Prop :=
  e = None \/ e = elt a \/ exists s, e = Some (s mod (elt_q a - 1)) /\ elt_q a - 1 <> 0.

(** ** The operators read on exponents *)

(** [power_to_poly[e]] and [poly_to_power[v]] where the key is present. *)
Definition pattern_of (t : ff) (e : option Z) : Z :=
  default 0 (power_to_poly t !! e).
Definition exponent_of (t : ff) (v : Z) : option Z :=
  default None (poly_to_power t !! v).

(** The exponent [__add__] stores: the one of the XOR of the two patterns. *)
Definition add_exponents (t : ff) (ea eb : option Z) : option Z :=
  exponent_of t (Z.lxor (pattern_of t ea) (pattern_of t eb)).

(** The exponent [__mul__] stores for two elements of one size. *)
Definition mul_exponents (qv : Z) (ea eb : option Z) : option Z :=
  match ea, eb with
  | Some x, Some y => Some ((x + y) mod (qv - 1))
  | _, _ => None
  end.

(** The values [elt] takes in canonical elements. *)
Definition exponents (t : ff) : list (option Z) :=
  None :: map Some (zrange (q t - 1)).

(** Every pattern of [0 .. q-1] is a key of [poly_to_power]. *)
Definition check_total (t : ff) : bool :=
  forallb (fun v => bool_decide (is_Some (poly_to_power t !! v))) (zrange (q t)).

(** Multiplying by the primitive element distributes over every sum. *)
Definition check_alpha_linear (t : ff) : bool :=
  forallb (fun eb =>
    forallb (fun ec =>
      bool_decide (mul_exponents (q t) (Some 1) (add_exponents t eb ec)
                   = add_exponents t (mul_exponents (q t) (Some 1) eb)
                                     (mul_exponents (q t) (Some 1) ec)))
      (exponents t))
    (exponents t).

Definition field_ok (t : ff) : bool :=
  tables_ok t && check_total t && check_alpha_linear t.

(** The first argument of [ffelt(elt, f)] that the constructor accepts. *)
Definition exponent_arg (x : pyval) : Prop := x = VNone \/ exists n, x = VInt n.

(** ** Polynomials over a field *)

(** Polynomials with coefficients in a field, as lists of exponents with the
    constant term first. *)
Fixpoint poly_add (t : ff) (p r : list (option Z)) : list (option Z) :=
  match p, r with
  | [], _ => r
  | _, [] => p
  | a :: p', b :: r' => add_exponents t a b :: poly_add t p' r'
  end.

Definition poly_scale (t : ff) (c : option Z) (p : list (option Z))
    : list (option Z) :=
  map (mul_exponents (q t) c) p.

(** The product of [X + c] and [p]. *)
Definition poly_times_linear (t : ff) (c : option Z) (p : list (option Z))
    : list (option Z) :=
  poly_add t (None :: p) (poly_scale t c p).

(** The value of [p] at [x]. *)
Fixpoint poly_value (t : ff) (p : list (option Z)) (x : option Z) : option Z :=
  match p with
  | [] => None
  | c :: p' => add_exponents t c (mul_exponents (q t) x (poly_value t p' x))
  end.

(** The product of the [X + c] over the [c] of a list. *)
Definition root_product (t : ff) (cs : list (option Z)) : list (option Z) :=
  fold_right (poly_times_linear t) [Some 0] cs.

(** The square of an element, on exponents. *)
Definition square (qv : Z) (e : option Z) : option Z := mul_exponents qv e e.

(** The coefficient 0 or 1 of the candidate vector for an element 0 or 1. *)
Definition bit_of (e : option Z) : Z :=
  match e with
  | None => 0
  | Some _ => 1
  end.

(** The exponent the inner loop of [minpoly] arrives at, for an element with
    exponent [n], from the coefficients still to be read and the exponent of
    the sum so far. *)
Fixpoint terms_value (t : ff) (n : Z) (cs : list Z) (acc : option Z) : option Z :=
  match cs with
  | [] => acc
  | c :: cs' =>
      terms_value t n cs'
        (if c >? 0
         then add_exponents t acc (Some ((n * Z.of_nat (length cs')) mod (q t - 1)))
         else acc)
  end.

(** The exponents of the conjugates of the element with exponent [n]: [n]
    doubled 0, 1, ..., [len - 1] times. *)
Definition orbit_exponents (qv n : Z) (len : nat) : list (option Z) :=
  map (fun k => Some (Nat.iter k (double qv) n)) (seq 0 len).

Definition canonical_poly (t : ff) (p : list (option Z)) : Prop :=
  Forall (fun e => In e (exponents t)) p.

(** ** Vectors *)

(** [ffelt.vec(self)]: [bin_array(self.f.power_to_poly[self.elt], self.f.m)]
    as a list.  The patterns of a built table are never negative (see
    [built_patterns_bound]), which is what [bin_array] expects. *)
Definition ffelt_vec (self : ffelt) : result (list Z) :=
  v ← subscript (power_to_poly (f self)) (elt self);
  Ok (bin_array (Z.to_N v) (Z.to_nat (m (f self)))).

(** The number a vector of bits spells, most significant bit first. *)
Definition bits_value (l : list Z) : Z :=
  fold_left (fun acc b => 2 * acc + b) l 0.

(** ** Checks on minimal polynomials *)

(** All vectors of [k] bits. *)
Fixpoint bitlists (k : nat) : list (list Z) :=
  match k with
  | O => [[]]
  | S k' => map (cons 0) (bitlists k') ++ map (cons 1) (bitlists k')
  end.

(** The monic coefficient vectors of degree below [deg]. *)
Definition lower_candidates (deg : nat) : list (list Z) :=
  flat_map (fun j => map (cons 1) (bitlists j)) (seq 0 deg).

(** No monic polynomial of lower degree than [minpoly]'s has the element as
    a root. *)
Definition check_minimal (fuel : nat) (e : ffelt) : bool :=
  match minpoly fuel e false with
  | Some (Ok c) =>
      forallb (fun cand =>
                 holds_on (poly_eval e cand)
                          (fun r => negb (bool_decide (elt r = None))))
              (lower_candidates (length c - 1))
  | _ => false
  end.

(** An element and its square have the same minimal polynomial. *)
Definition check_square (fuel : nat) (e : ffelt) : bool :=
  holds_on (ffelt_pow e (VInt 2))
    (fun e2 => match minpoly fuel e false with
               | Some (Ok c) => bool_decide (minpoly fuel e2 false = Some (Ok c))
               | _ => false
               end).

Definition field_minpoly_laws (fuel : nat) (fld : ff) : bool :=
  forallb (fun n => holds_on (ffelt2 (VInt n) (VField fld))
                      (fun e => check_minimal fuel e && check_square fuel e))
          (zrange (q fld - 1)).

(** [minpoly(True)] of the primitive element is the catalog's polynomial. *)
Definition check_primitive_minpoly (qv : Z) : bool :=
  holds_on (ffelt2 (VInt 1) (VInt qv))
    (fun e => match primpolys_get primpolys qv with
              | Some l => bool_decide (minpoly 8 e true = Some (Ok (map Z.of_N l)))
              | None => false
              end).

(** ** Display *)

(** [ffelt.__repr__(self)].  The attribute [suppressField] is the first
    argument here. *)
Definition ffelt_repr (suppressField : bool) (self : ffelt) : result string :=
  let fieldString :=
    if suppressField then "" else " GF(" +:+ pretty (elt_q self) +:+ ")" in
  match elt self with
  | None => Ok ("0" +:+ fieldString)
  | Some e =>
      if e =? 0 then Ok ("1" +:+ fieldString)
      else if e >? 0 then Ok ("a^" +:+ pretty e +:+ fieldString)
      else raise (RStr ("Something went wrong in __repr__, self.elt=" +:+ pretty e))
  end.

(** The positions of the nonzero entries of a vector read from its last
    entry, counted from [s]. *)
Fixpoint positions_from (s : nat) (l : list Z) : list Z :=
  match l with
  | [] => []
  | b :: l' =>
      if decide (0 < b) then Z.of_nat s :: positions_from (S s) l'
      else positions_from (S s) l'
  end.

(** ** Proof automation *)

(** Case analysis on a member of [catalog]. *)
Ltac each_catalog_order H :=
  unfold catalog in H; simpl in H;
  destruct H as [<-|[<-|[<-|[<-|[<-|[<-|[<-|[]]]]]]]].

(** Equalities between XORs, bit by bit. *)
Ltac xor_bits :=
  apply Z.bits_inj'; intros ? _; rewrite !Z.lxor_spec;
  repeat match goal with
         | |- context [Z.testbit ?a ?k] => destruct (Z.testbit a k)
         end; reflexivity.

(** * Properties *)

(** ** Ranges *)

Lemma in_zrange (n k : Z) : In k (zrange n) <-> 0 <= k < n.
Proof.
  unfold zrange. rewrite in_map_iff. split.
  - intros (i & <- & Hi). apply in_seq in Hi. lia.
  - intros Hk. exists (Z.to_nat k). split; [lia|]. apply in_seq. lia.
Qed.

Lemma length_zrange (n : Z) : length (zrange n) = Z.to_nat n.
Proof. unfold zrange. now rewrite length_map, length_seq. Qed.

Lemma holds_on_elim {A} (r : result A) (P : A -> bool) :
  holds_on r P = true -> exists a, r = Ok a /\ P a = true.
Proof. destruct r as [a|e]; [eauto|discriminate]. Qed.

(** ** The tables *)

Lemma tables_ok_sound (t : ff) : tables_ok t = true -> tables_inverse t.
Proof.
  unfold tables_ok. rewrite !andb_true_iff, !bool_decide_eq_true.
  intros [[[[Hpow Hpol] Hkey] Hz] Hp0].
  unfold check_powers in Hpow. rewrite forallb_forall in Hpow.
  unfold check_polys in Hpol. rewrite forallb_forall in Hpol.
  unfold check_keys in Hkey. rewrite forallb_forall in Hkey.
  assert (Hk : forall k v, power_to_poly t !! k = Some v ->
               match k with
               | None => v = 0
               | Some n => 0 <= n < q t - 1 /\ v <> 0
               end).
  { intros k v Hkv.
    specialize (Hkey (k, v)). simpl in Hkey.
    assert (Hin : In (k, v) (map_to_list (power_to_poly t))).
    { apply list_elem_of_In, elem_of_map_to_list. exact Hkv. }
    specialize (Hkey Hin). destruct k as [n|].
    - rewrite !andb_true_iff, negb_true_iff in Hkey. lia.
    - lia. }
  split; auto.
  - intros n Hn. specialize (Hpow n).
    assert (Hin : In n (zrange (q t - 1))) by (apply in_zrange; lia).
    specialize (Hpow Hin).
    destruct (power_to_poly t !! Some n) as [v|]; [|discriminate].
    exists v. split; [reflexivity|]. now apply bool_decide_eq_true in Hpow.
  - intros v w Hv Hvw. specialize (Hpol (v, w)). simpl in Hpol.
    assert (Hin : In (v, w) (map_to_list (poly_to_power t))).
    { apply list_elem_of_In, elem_of_map_to_list. exact Hvw. }
    specialize (Hpol Hin).
    destruct (Z.eqb_spec v 0) as [?|_]; [contradiction|].
    rewrite andb_true_iff, !bool_decide_eq_true in Hpol. exact Hpol.
  - intros n Hn. apply Hk in Hn. lia.
  - intros n v Hn. apply Hk in Hn. lia.
Qed.

Lemma catalog_spec_tables_ok (qv : Z) :
  In qv catalog -> spec_tables_ok (VInt qv) qv = true.
Proof. intros Hin. each_catalog_order Hin; vm_compute; reflexivity. Qed.

(** Each catalog order builds, and its tables pass the checks. *)
Lemma catalog_tables_ok (qv : Z) :
  In qv catalog ->
  exists t, ff_init (VInt qv) = Ok t /\ q t = qv /\ 2 ^ m t = qv /\
            tables_inverse t.
Proof.
  intros Hin. apply catalog_spec_tables_ok in Hin. unfold spec_tables_ok in Hin.
  destruct (ff_init (VInt qv)) as [t|e]; [|discriminate].
  rewrite !andb_true_iff in Hin. destruct Hin as [[Hq Hm] Hok].
  exists t. split; [reflexivity|]. split; [lia|]. split; [lia|].
  now apply tables_ok_sound.
Qed.

(** C1.  For each supported order [q] of the catalog 4, 8, ..., 256 the
    constructor [ff(q)] succeeds and its two dicts are mutual inverses on the
    nonzero elements: [poly_to_power[power_to_poly[n]] == n] for every [n] of
    [0 .. q-2]; [power_to_poly[poly_to_power[v]] == v] for every nonzero
    pattern [v] in the tables; the zero element sits apart under
    [power_to_poly[None] == 0] and [poly_to_power[0] == None], no exponent
    being given the pattern 0 and no nonzero pattern the value [None]. *)
Theorem catalog_tables_mutual_inverse (qv : Z) :
  In qv catalog ->
  exists t, ff_init (VInt qv) = Ok t /\ q t = qv /\
    (forall n, 0 <= n <= qv - 2 ->
       exists v, subscript (power_to_poly t) (Some n) = Ok v /\
                 subscript (poly_to_power t) v = Ok (Some n)) /\
    (forall v w, v <> 0 -> poly_to_power t !! v = Some w ->
       exists n, w = Some n /\ subscript (power_to_poly t) w = Ok v) /\
    (forall n v, power_to_poly t !! Some n = Some v ->
       v <> 0 /\ subscript (poly_to_power t) v = Ok (Some n)) /\
    subscript (power_to_poly t) None = Ok 0 /\
    subscript (poly_to_power t) 0 = Ok None /\
    (forall n, power_to_poly t !! Some n <> Some 0).
Proof.
  intros Hin. destruct (catalog_tables_ok qv Hin) as (t & Ht & Hq & _ & Hti).
  destruct Hti as [Hpow Hpol Hzk Hzp Hne Hkeys].
  exists t. unfold subscript. subst qv. repeat split.
  - exact Ht.
  - intros n Hn. destruct (Hpow n Hn) as (v & Hv & Hw).
    exists v. now rewrite Hv, Hw.
  - intros v w Hv Hvw. destruct (Hpol v w Hv Hvw) as [Hw Hback].
    destruct w as [n|]; [|contradiction]. exists n. now rewrite Hback.
  - intros ->. now apply Hne in H.
  - destruct (Hpow n (Hkeys n v H)) as (v' & Hv' & Hw).
    rewrite H in Hv'. injection Hv' as <-. now rewrite Hw.
  - now rewrite Hzk.
  - now rewrite Hzp.
  - exact Hne.
Qed.

Lemma catalog_tables_mutual_inverse_witness :
  exists t, ff_init (VInt 16) = Ok t /\ q t = 16 /\
    (forall n, 0 <= n <= 16 - 2 ->
       exists v, subscript (power_to_poly t) (Some n) = Ok v /\
                 subscript (poly_to_power t) v = Ok (Some n)) /\
    (forall v w, v <> 0 -> poly_to_power t !! v = Some w ->
       exists n, w = Some n /\ subscript (power_to_poly t) w = Ok v) /\
    (forall n v, power_to_poly t !! Some n = Some v ->
       v <> 0 /\ subscript (poly_to_power t) v = Ok (Some n)) /\
    subscript (power_to_poly t) None = Ok 0 /\
    subscript (poly_to_power t) 0 = Ok None /\
    (forall n, power_to_poly t !! Some n <> Some 0).
Proof.
  apply (catalog_tables_mutual_inverse 16). unfold catalog. simpl. tauto.
Defined.

(** C9.  Built from the exponent list [0, 1, 4] (x^4 + x + 1), the tables of
    GF(16) have [power_to_poly[0] == 1] and [power_to_poly[4] == 0b0011]: the
    shift of [power_to_poly[3] == 8] sets bit 4, and the low four bits XOR the
    low bits of the polynomial give 3. *)
Theorem gf16_power_to_poly :
  exists t, ff_init (VList [0; 1; 4]%N) = Ok t /\
    m t = 4 /\ q t = 16 /\
    subscript (power_to_poly t) (Some 0) = Ok 1 /\
    subscript (power_to_poly t) (Some 3) = Ok 8 /\
    Z.land (Z.shiftl 8 1) (q t) > 0 /\
    Z.lxor (Z.land (Z.shiftl 8 1) (q t - 1)) (g t mod q t) = 3 /\
    subscript (power_to_poly t) (Some 4) = Ok 3.
Proof.
  destruct (holds_on_elim (ff_init (VList [0; 1; 4]%N))
    (fun t => (m t =? 4) && (q t =? 16) &&
       bool_decide (subscript (power_to_poly t) (Some 0) = Ok 1) &&
       bool_decide (subscript (power_to_poly t) (Some 3) = Ok 8) &&
       bool_decide (subscript (power_to_poly t) (Some 4) = Ok 3) &&
       (g t mod q t =? 3)))
    as (t & Ht & Hc); [vm_compute; reflexivity|].
  rewrite !andb_true_iff, !bool_decide_eq_true, !Z.eqb_eq in Hc.
  destruct Hc as [[[[[Hm Hq] H0] H3] H4] Hg].
  exists t. rewrite Hg, Hq. repeat split; assumption || reflexivity.
Qed.

(** ** Construction of elements *)

(** C4, amended.  [ffelt(spec)] with the field specifier alone stores the
    exponent [1 % (q-1)]: the primitive element alpha^1 in every field with
    [q >= 3] (so in every catalog field), not alpha^0.  The stored exponent is
    0 only when [q == 2]. *)
Theorem ffelt1_default_exponent (spec : pyval) (fld : ff) :
  field_arg spec = Ok fld -> 2 <= q fld ->
  exists e, ffelt1 spec = Ok e /\ f e = fld /\ elt_q e = q fld /\
            elt e = Some (1 mod (q fld - 1)) /\
            (3 <= q fld -> elt e = Some 1) /\
            (q fld = 2 -> elt e = Some 0).
Proof.
  intros Hf Hq. unfold ffelt1, ffelt_init. cbn -[field_arg pymod Z.modulo].
  unfold mbind, result_bind. rewrite Hf. cbn -[pymod Z.modulo].
  unfold pymod. destruct (Z.eqb_spec (q fld - 1) 0) as [?|_]; [lia|].
  cbn -[Z.modulo]. eexists. split; [reflexivity|]. cbn -[Z.modulo].
  repeat split.
  - intros H3. now rewrite Z.mod_small by lia.
  - intros ->. reflexivity.
Qed.

Lemma ffelt1_default_exponent_witness :
  exists e, ffelt1 (VInt 16) = Ok e /\ elt e = Some 1.
Proof.
  destruct (catalog_tables_ok 16) as (fld & E & Hq & _);
    [unfold catalog; simpl; tauto|].
  destruct (ffelt1_default_exponent (VInt 16) fld E ltac:(lia))
    as (e & He & _ & _ & _ & H3 & _).
  exists e. split; [exact He|]. apply H3. lia.
Defined.

(** C4 as stated fails: in GF(16) the one-argument constructor stores the
    exponent 1, not 0. *)
Lemma ffelt1_exponent_is_not_zero :
  exists e, ffelt1 (VInt 16) = Ok e /\ elt e = Some 1 /\ elt e <> Some 0.
Proof.
  destruct (holds_on_elim (ffelt1 (VInt 16))
              (fun e => bool_decide (elt e = Some 1)))
    as (e & He & Hc); [vm_compute; reflexivity|].
  apply bool_decide_eq_true in Hc.
  exists e. split; [exact He|]. split; [exact Hc|]. rewrite Hc. discriminate.
Qed.

(** ** Comparisons with literals *)

(** [a == None] for an element [a] runs [a.__eq__(None)], which matches none
    of its branches and answers [None]; [py_eq_None] reads it as false. *)
Lemma ffelt_eq_None (a : ffelt) : ffelt_eq a VNone = Ok None.
Proof. reflexivity. Qed.

Lemma ffelt_eq_int (a : ffelt) (k : Z) : ffelt_eq a (VInt k) = Ok (elt_eq_int a k).
Proof.
  unfold ffelt_eq, elt_eq_int, py_eq_int.
  destruct (k =? 0); [reflexivity|]. destruct (k =? 1); reflexivity.
Qed.

(** ** Where the operators raise *)

Section RaiseSites.

Variables a b : ffelt.
Hypothesis Hq : elt_q b <> elt_q a.

Lemma add_mismatch_raises :
  elt b <> Some 0 -> ffelt_add a (VElt b) = Err (TypeError not_an_exception).
Proof.
  intros Hb. unfold ffelt_add, py_eq_int, elt_eq_int. cbn.
  rewrite bool_decide_eq_false_2 by exact Hb. cbn.
  destruct (Z.eqb_spec (elt_q b) (elt_q a)) as [?|_]; [contradiction|].
  reflexivity.
Qed.

Lemma mul_mismatch_raises :
  elt a <> None -> elt b <> None -> elt b <> Some 0 ->
  ffelt_mul a (VElt b) = Err (TypeError not_an_exception).
Proof.
  intros Ha Hb Hb0. unfold ffelt_mul, py_eq_int, elt_eq_int, py_eq_None. cbn.
  rewrite !bool_decide_eq_false_2 by assumption. cbn.
  destruct (Z.eqb_spec (elt_q b) (elt_q a)) as [?|_]; [contradiction|].
  reflexivity.
Qed.

Lemma truediv_mismatch_raises :
  elt a <> None -> ffelt_truediv a (VElt b) = Err (TypeError not_an_exception).
Proof.
  intros Ha. unfold ffelt_truediv, py_eq_None. cbn.
  rewrite bool_decide_eq_false_2 by assumption.
  destruct (Z.eqb_spec (elt_q b) (elt_q a)) as [?|_]; [contradiction|].
  reflexivity.
Qed.

Lemma eq_mismatch_raises :
  elt b <> None -> elt b <> Some 0 ->
  ffelt_eq a (VElt b) = Err (TypeError not_an_exception).
Proof.
  intros Hb Hb0. unfold ffelt_eq, py_eq_int, elt_eq_int. cbn.
  rewrite !bool_decide_eq_false_2 by assumption. cbn.
  destruct (Z.eqb_spec (elt_q b) (elt_q a)) as [?|_]; [contradiction|].
  reflexivity.
Qed.

End RaiseSites.

Lemma truediv_None_raises (a : ffelt) :
  ffelt_truediv a VNone = Err (TypeError not_an_exception).
Proof. reflexivity. Qed.

Lemma pow_non_int_raises (a : ffelt) (x : pyval) :
  elt a <> None -> (forall z, x <> VInt z) ->
  ffelt_pow a x = Err (TypeError not_an_exception).
Proof.
  intros Ha Hx. unfold ffelt_pow. rewrite bool_decide_eq_false_2 by assumption.
  destruct x; try reflexivity. now destruct (Hx z).
Qed.

Lemma ff_init_unknown_order (z : Z) :
  primpolys_get primpolys z = None ->
  ff_init (VInt z) = Err (TypeError not_an_exception).
Proof. intros H. unfold ff_init. now rewrite H. Qed.

Lemma ff_init_bad_specifier (gspec : pyval) :
  (forall z, gspec <> VInt z) -> (forall l, gspec <> VList l) ->
  ff_init gspec = Err (TypeError not_an_exception).
Proof.
  intros Hz Hl. destruct gspec; try reflexivity.
  - now destruct (Hz z).
  - now destruct (Hl l).
Qed.

Lemma ffelt_init_bad_elt (x : pyval) (fld : ff) :
  x <> VNone -> (forall z, x <> VInt z) ->
  ffelt2 x (VField fld) = Err (TypeError not_an_exception).
Proof.
  intros Hn Hz. destruct x; try reflexivity.
  - contradiction.
  - now destruct (Hz z).
Qed.

Lemma minpoly_negative_raises (fuel : nat) (a : ffelt) (n : Z) (coeffs : bool) :
  elt a = Some n -> n < 0 ->
  minpoly fuel a coeffs = Some (Err (TypeError not_an_exception)).
Proof.
  intros Ha Hn. unfold minpoly. rewrite Ha.
  destruct (Z.gtb_spec n 0) as [?|_]; [lia|].
  destruct (Z.eqb_spec n 0) as [?|_]; [lia|]. reflexivity.
Qed.

(** ** Every failure is a built-in exception *)

Lemma bind_Err {A B} (r : result A) (k : A -> result B) (e : exn) :
  r ≫= k = Err e -> r = Err e \/ exists a, r = Ok a /\ k a = Err e.
Proof. destruct r as [a|e']; cbn; [eauto|intros [= ->]; now left]. Qed.

Lemma int_log2_failures (x : Z) (e : exn) :
  int_log2 x = Err e -> e = OverflowError \/ e = TypeError no_log2_loop.
Proof.
  unfold int_log2. destruct (x =? 0); [intros [= <-]; now left|].
  destruct (2 ^ 64 <=? x); [intros [= <-]; now right|discriminate].
Qed.

Lemma float64_log2_int_nonneg (x : Z) : 0 <= float64_log2_int x.
Proof.
  unfold float64_log2_int. pose proof (Z.log2_nonneg x).
  destruct (_ <=? _); lia.
Qed.

Lemma int_log2_Ok (x mv : Z) :
  int_log2 x = Ok mv ->
  x <> 0 /\ x < 2 ^ 64 /\ 0 <= mv /\ mv = float64_log2_int (to_float64 x).
Proof.
  unfold int_log2. destruct (Z.eqb_spec x 0) as [?|Hx]; [discriminate|].
  destruct (Z.leb_spec (2 ^ 64) x) as [?|Hlt]; [discriminate|].
  intros [= <-]. repeat split; auto. apply float64_log2_int_nonneg.
Qed.

Lemma int_log2_total (x : Z) :
  0 < x < 2 ^ 64 -> int_log2 x = Ok (float64_log2_int (to_float64 x)).
Proof.
  intros Hx. unfold int_log2.
  destruct (Z.eqb_spec x 0) as [?|_]; [lia|].
  destruct (Z.leb_spec (2 ^ 64) x) as [?|_]; [lia|reflexivity].
Qed.

(** Below [2**48] the conversion is exact and the logarithm is far enough
    from the next integer: the result is the position of the top bit. *)
Lemma int_log2_exact (x : Z) :
  0 < x < 2 ^ 48 -> int_log2 x = Ok (Z.log2 x).
Proof.
  intros Hx. unfold int_log2.
  destruct (Z.eqb_spec x 0) as [?|_]; [lia|].
  destruct (Z.leb_spec (2 ^ 64) x) as [?|_]; [lia|].
  assert (Hlog : Z.log2 x < 48) by (apply Z.log2_lt_pow2; lia).
  pose proof (Z.log2_nonneg x) as Hnn.
  unfold to_float64. destruct (Z.ltb_spec (Z.log2 x) 53) as [_|?]; [|lia].
  unfold float64_log2_int.
  destruct (Z.log2_spec x ltac:(lia)) as [_ Hup].
  replace (Z.succ (Z.log2 x)) with (Z.log2 x + 1) in Hup by lia.
  assert (Hpow : 2 ^ (Z.log2 x + 1) <= 2 ^ 48) by (apply Z.pow_le_mono_r; lia).
  destruct (Z.leb_spec ((2 ^ (Z.log2 x + 1) - x) * 2 ^ 53)
                       (22 * 2 ^ (Z.log2 x + 1))) as [Hle|_]; [|reflexivity].
  exfalso. change (2 ^ 53) with (32 * 2 ^ 48) in Hle. nia.
Qed.

Lemma pymod_failures (x n : Z) (e : exn) :
  pymod x n = Err e -> e = ZeroDivisionError.
Proof. unfold pymod. destruct (n =? 0); [now intros [= <-]|discriminate]. Qed.

Lemma subscript_failures `{Countable K} {V} (d : gmap K V) (k : K) (e : exn) :
  subscript d k = Err e -> e = KeyError.
Proof. unfold subscript. destruct (d !! k); [discriminate|now intros [= <-]]. Qed.

Lemma int_binop_failures (op : Z -> Z -> Z) (x y : option Z) (e : exn) :
  int_binop op x y = Err e -> e = TypeError unsupported_operand.
Proof. destruct x, y; cbn; try discriminate; now intros [= <-]. Qed.

Lemma raise_str_failures {A} (s : string) (e : exn) :
  @raise A (RStr s) = Err e -> e = TypeError not_an_exception.
Proof. now intros [= <-]. Qed.

Lemma ff_init_failures (gspec : pyval) (e : exn) :
  ff_init gspec = Err e ->
  e = TypeError not_an_exception \/ e = TypeError no_log2_loop \/
  e = OverflowError.
Proof.
  unfold ff_init. intros H.
  apply bind_Err in H as [H|(glist & _ & H)].
  - left. destruct gspec as [|z|l|fld|x|s]; try (now apply raise_str_failures in H).
    + destruct (primpolys_get primpolys z); [discriminate|].
      now apply raise_str_failures in H.
    + discriminate.
  - right. apply bind_Err in H as [H|(mv & _ & H)].
    + apply int_log2_failures in H. tauto.
    + destruct (build_tables _ _). discriminate.
Qed.

Lemma ffelt_init_failures (x fs : pyval) (e : exn) :
  ffelt_init x fs = Err e ->
  e = TypeError not_an_exception \/ e = TypeError no_log2_loop \/
  e = OverflowError \/ e = ZeroDivisionError.
Proof.
  unfold ffelt_init. intros H.
  destruct (match fs with VInt (-1) => _ | _ => _ end) as [x' fs'].
  apply bind_Err in H as [H|(fld & _ & H)].
  - unfold field_arg in H.
    destruct fs'; try (apply ff_init_failures in H; tauto). discriminate.
  - destruct x'; try (apply raise_str_failures in H; tauto); [discriminate|].
    apply bind_Err in H as [H|(r & _ & H)]; [|discriminate].
    apply pymod_failures in H. tauto.
Qed.

Lemma ffelt_eq_failures (a : ffelt) (x : pyval) (e : exn) :
  ffelt_eq a x = Err e -> e = TypeError not_an_exception.
Proof.
  unfold ffelt_eq. destruct (py_eq_int x 0); [discriminate|].
  destruct (py_eq_int x 1); [discriminate|].
  destruct x; try discriminate.
  destruct (_ =? _); [discriminate|]. apply raise_str_failures.
Qed.

Lemma ffelt_add_failures (a : ffelt) (x : pyval) (e : exn) :
  ffelt_add a x = Err e ->
  e = TypeError not_an_exception \/ e = TypeError str_concat_type \/ e = KeyError.
Proof.
  unfold ffelt_add. intros H.
  apply bind_Err in H as [H|(r & _ & H)].
  - destruct (py_eq_int x 1).
    + apply bind_Err in H as [H|(u & _ & H)]; [apply subscript_failures in H; tauto|].
      apply bind_Err in H as [H|(v & _ & H)]; [apply subscript_failures in H; tauto|].
      discriminate.
    + destruct x; try (injection H as <-; tauto).
      destruct (_ =? _); [|apply raise_str_failures in H; tauto].
      apply bind_Err in H as [H|(u & _ & H)]; [apply subscript_failures in H; tauto|].
      apply bind_Err in H as [H|(v & _ & H)]; [apply subscript_failures in H; tauto|].
      discriminate.
  - apply bind_Err in H as [H|(u & _ & H)]; [|discriminate].
    apply subscript_failures in H; tauto.
Qed.

Lemma arith_failures (op : Z -> Z -> Z) (x y : option Z) (n : Z) (e : exn) :
  (s ← int_binop op x y; r ← pymod s n; Ok (Some r)) = Err e ->
  e = TypeError unsupported_operand \/ e = ZeroDivisionError.
Proof.
  intros H. apply bind_Err in H as [H|(s & _ & H)].
  - apply int_binop_failures in H. tauto.
  - apply bind_Err in H as [H|(r & _ & H)]; [|discriminate].
    apply pymod_failures in H. tauto.
Qed.

Lemma ffelt_mul_failures (a : ffelt) (x : pyval) (e : exn) :
  ffelt_mul a x = Err e ->
  e = TypeError not_an_exception \/ e = TypeError str_concat_type \/
  e = TypeError unsupported_operand \/ e = ZeroDivisionError.
Proof.
  unfold ffelt_mul. intros H.
  apply bind_Err in H as [H|(r & _ & H)]; [|discriminate].
  destruct (_ || _); [discriminate|].
  destruct (py_eq_int x 0); [discriminate|].
  destruct (py_eq_int x 1); [discriminate|].
  destruct x; try (injection H as <-; tauto).
  destruct (_ =? _); [|apply raise_str_failures in H; tauto].
  apply arith_failures in H. tauto.
Qed.

Lemma ffelt_truediv_failures (a : ffelt) (x : pyval) (e : exn) :
  ffelt_truediv a x = Err e ->
  e = TypeError not_an_exception \/ e = TypeError str_concat_type \/
  e = TypeError unsupported_operand \/ e = ZeroDivisionError.
Proof.
  unfold ffelt_truediv. intros H.
  apply bind_Err in H as [H|(r & _ & H)]; [|discriminate].
  destruct (py_eq_None x); [apply raise_str_failures in H; tauto|].
  destruct (bool_decide _); [discriminate|].
  destruct x; try (injection H as <-; tauto).
  - apply arith_failures in H. tauto.
  - destruct (_ =? _); [|apply raise_str_failures in H; tauto].
    apply arith_failures in H. tauto.
Qed.

Lemma ffelt_pow_failures (a : ffelt) (x : pyval) (e : exn) :
  ffelt_pow a x = Err e ->
  e = TypeError not_an_exception \/ e = TypeError unsupported_operand \/
  e = ZeroDivisionError.
Proof.
  unfold ffelt_pow. intros H.
  apply bind_Err in H as [H|(r & _ & H)]; [|discriminate].
  destruct (bool_decide _); [discriminate|].
  destruct x; try (apply raise_str_failures in H; tauto).
  apply arith_failures in H. tauto.
Qed.

(** C10, amended.  Each [raise] statement of [ff.__init__], of the [ffelt]
    constructor and of the operators is given a plain [str], so what the
    caller receives on each path that reaches one is the generic
    [TypeError('exceptions must derive from BaseException')]: an unknown field
    order, a specifier of the wrong type, an exponent of the wrong type,
    operands of different field sizes, the divisor [None] and a non-integer
    power all fail alike.  The other failures happen before any [raise], in
    the interpreter or in numpy: [OverflowError] from [int(np.log2(0))],
    [TypeError] from [np.log2] of an int of [2**64] or more,
    [ZeroDivisionError] from [% (q-1)] when [q == 1], [TypeError] from
    arithmetic on [None] and from the [str + type] concatenation of the
    final [else] branches, [KeyError] from a table.  No error kind of the
    module's own is ever produced. *)
Theorem raise_of_str_is_TypeError :
  (forall z, primpolys_get primpolys z = None ->
     ff_init (VInt z) = Err (TypeError not_an_exception)) /\
  (forall gspec, (forall z, gspec <> VInt z) -> (forall l, gspec <> VList l) ->
     ff_init gspec = Err (TypeError not_an_exception)) /\
  (forall x fld, x <> VNone -> (forall z, x <> VInt z) ->
     ffelt2 x (VField fld) = Err (TypeError not_an_exception)) /\
  (forall a b, elt_q b <> elt_q a -> elt b <> Some 0 ->
     ffelt_add a (VElt b) = Err (TypeError not_an_exception) /\
     ffelt_sub a (VElt b) = Err (TypeError not_an_exception)) /\
  (forall a b, elt_q b <> elt_q a ->
     elt a <> None -> elt b <> None -> elt b <> Some 0 ->
     ffelt_mul a (VElt b) = Err (TypeError not_an_exception)) /\
  (forall a b, elt_q b <> elt_q a -> elt a <> None ->
     ffelt_truediv a (VElt b) = Err (TypeError not_an_exception)) /\
  (forall a, ffelt_truediv a VNone = Err (TypeError not_an_exception)) /\
  (forall a x, elt a <> None -> (forall z, x <> VInt z) ->
     ffelt_pow a x = Err (TypeError not_an_exception)) /\
  (forall a b, elt_q b <> elt_q a -> elt b <> None -> elt b <> Some 0 ->
     ffelt_eq a (VElt b) = Err (TypeError not_an_exception)) /\
  (forall fuel a n coeffs, elt a = Some n -> n < 0 ->
     minpoly fuel a coeffs = Some (Err (TypeError not_an_exception))) /\
  (forall gspec e, ff_init gspec = Err e ->
     e = TypeError not_an_exception \/ e = TypeError no_log2_loop \/
     e = OverflowError) /\
  (forall x fs e, ffelt_init x fs = Err e ->
     e = TypeError not_an_exception \/ e = TypeError no_log2_loop \/
     e = OverflowError \/ e = ZeroDivisionError) /\
  (forall a x e,
     ffelt_add a x = Err e \/ ffelt_sub a x = Err e \/ ffelt_mul a x = Err e \/
     ffelt_truediv a x = Err e \/ ffelt_pow a x = Err e \/
     ffelt_eq a x = Err e ->
     (exists msg, e = TypeError msg) \/ e = KeyError \/ e = ZeroDivisionError).
Proof.
  split; [exact ff_init_unknown_order|].
  split; [exact ff_init_bad_specifier|].
  split; [exact ffelt_init_bad_elt|].
  split; [intros a b Hq Hb; split; now apply add_mismatch_raises|].
  split; [exact mul_mismatch_raises|].
  split; [exact truediv_mismatch_raises|].
  split; [exact truediv_None_raises|].
  split; [exact pow_non_int_raises|].
  split; [exact eq_mismatch_raises|].
  split; [exact minpoly_negative_raises|].
  split; [exact ff_init_failures|].
  split; [exact ffelt_init_failures|].
  intros a x e [H|[H|[H|[H|[H|H]]]]].
  - apply ffelt_add_failures in H as [ -> | [ -> | -> ] ]; eauto.
  - apply ffelt_add_failures in H as [ -> | [ -> | -> ] ]; eauto.
  - apply ffelt_mul_failures in H as [ -> | [ -> | [ -> | -> ] ] ]; eauto.
  - apply ffelt_truediv_failures in H as [ -> | [ -> | [ -> | -> ] ] ]; eauto.
  - apply ffelt_pow_failures in H as [ -> | [ -> | -> ] ]; eauto.
  - apply ffelt_eq_failures in H. subst e. eauto.
Qed.

Lemma raise_of_str_is_TypeError_witness :
  ff_init (VInt 5) = Err (TypeError not_an_exception) /\
  ff_init VNone = Err (TypeError not_an_exception).
Proof.
  destruct raise_of_str_is_TypeError as (Horder & Hspec & _).
  split.
  - apply (Horder 5). reflexivity.
  - apply (Hspec VNone); discriminate.
Defined.

(** C10 as stated fails: not every failure path executes a [raise], and the
    failures are not all the generic [TypeError].  The empty specifier list
    fails with [OverflowError], a specifier of [2**64] with the [TypeError]
    of [np.log2], an int exponent in the one-element field with
    [ZeroDivisionError], and an int operand of [*] other than 0 and 1 with
    the [TypeError] of a [str + type] concatenation. *)
Lemma failures_without_raise :
  ff_init (VList []) = Err OverflowError /\
  ff_init (VList [64%N]) = Err (TypeError no_log2_loop) /\
  ffelt2 (VInt 5) (VList [0%N]) = Err ZeroDivisionError /\
  (exists a, ffelt2 (VInt 1) (VInt 16) = Ok a /\
     ffelt_mul a (VInt 2) = Err (TypeError str_concat_type)) /\
  no_log2_loop <> not_an_exception /\ str_concat_type <> not_an_exception.
Proof.
  split; [reflexivity|]. split; [reflexivity|]. split; [vm_compute; reflexivity|].
  split; [|split; discriminate].
  destruct (holds_on_elim (ffelt2 (VInt 1) (VInt 16))
    (fun a => bool_decide (elt a = Some 1)))
    as (a & Ha & Hc); [vm_compute; reflexivity|].
  apply bool_decide_eq_true in Hc. exists a. split; [exact Ha|].
  unfold ffelt_mul, py_eq_None, py_eq_int.
  rewrite bool_decide_eq_false_2 by (rewrite Hc; discriminate). reflexivity.
Qed.

(** ** Division by the zero element *)

Lemma ffelt2_None (fld : ff) : ffelt2 VNone (VField fld) = Ok (zero_of fld).
Proof. reflexivity. Qed.

(** C5 on the code.  The guard [a == None] of [__truediv__] never fires for an
    element: zero divided by the zero element returns the zero element, a
    nonzero element divided by it fails only in [self.elt - a.elt] (an
    [int] minus [None]), and the [raise] is reached by the literal [None]
    alone. *)
Theorem truediv_by_zero_element (fld : ff) :
  ffelt_truediv (zero_of fld) (VElt (zero_of fld)) = Ok (zero_of fld) /\
  (forall n, ffelt_truediv (with_elt (zero_of fld) (Some n)) (VElt (zero_of fld))
             = Err (TypeError unsupported_operand)) /\
  (forall x, ffelt_truediv x VNone = Err (TypeError not_an_exception)).
Proof.
  split; [reflexivity|]. split; [|reflexivity].
  intros n. unfold ffelt_truediv. cbn. rewrite Z.eqb_refl. reflexivity.
Qed.

(** ** The zero element has no minimal polynomial *)

(** C3 on the code.  [minpoly] starts with [self.elt > 0]; for the zero element
    this compares [None] with an int and raises [TypeError], so the branch
    that sets the candidate [1, 0] is never reached. *)
Theorem minpoly_zero_raises (fuel : nat) (fld : ff) (coeffs : bool) :
  ffelt2 VNone (VField fld) = Ok (zero_of fld) /\
  minpoly fuel (zero_of fld) coeffs = Some (Err (TypeError none_gt_int)).
Proof. split; reflexivity. Qed.

(** ** Operands of different fields *)

(** The literal shortcuts answer before the field sizes are compared.  An
    operand with exponent 0 satisfies [a == 1], the zero element satisfies
    [a == 0], and neither test looks at [a.q]. *)
Section Shortcuts.

Variables a b : ffelt.

Lemma add_exponent_zero : elt b = Some 0 -> ffelt_add a (VElt b) = ffelt_add a (VInt 1).
Proof.
  intros Hb. unfold ffelt_add, py_eq_int, elt_eq_int. cbn.
  rewrite bool_decide_eq_true_2 by exact Hb. reflexivity.
Qed.

Lemma mul_exponent_zero :
  elt a <> None -> elt b = Some 0 -> ffelt_mul a (VElt b) = Ok (with_elt a (elt a)).
Proof.
  intros Ha Hb. unfold ffelt_mul, py_eq_int, elt_eq_int, py_eq_None. cbn.
  rewrite (bool_decide_eq_false_2 _ Ha). rewrite Hb. reflexivity.
Qed.

Lemma mul_zero_element : elt b = None -> ffelt_mul a (VElt b) = Ok (with_elt a None).
Proof.
  intros Hb. unfold ffelt_mul, py_eq_int, elt_eq_int, py_eq_None. cbn.
  rewrite Hb. destruct (bool_decide (elt a = None)); reflexivity.
Qed.

Lemma truediv_of_zero : elt a = None -> ffelt_truediv a (VElt b) = Ok (with_elt a None).
Proof.
  intros Ha. unfold ffelt_truediv, py_eq_None. cbn.
  rewrite bool_decide_eq_true_2 by exact Ha. reflexivity.
Qed.

Lemma eq_zero_element :
  elt b = None -> ffelt_eq a (VElt b) = Ok (Some (bool_decide (elt a = None))).
Proof.
  intros Hb. unfold ffelt_eq, py_eq_int, elt_eq_int. cbn. now rewrite Hb.
Qed.

Lemma eq_exponent_zero :
  elt b = Some 0 -> ffelt_eq a (VElt b) = Ok (Some (bool_decide (elt a = Some 0))).
Proof.
  intros Hb. unfold ffelt_eq, py_eq_int, elt_eq_int. cbn. now rewrite Hb.
Qed.

End Shortcuts.

(** C6 on the code.  With [a = ffelt(1, 16)] and the elements 1 and 0 of
    GF(8), whose field size differs from [a]'s, every binary operator returns
    a value instead of raising: [a + 1_8] and [a - 1_8] give alpha^4 of
    GF(16), [a * 1_8] gives [a], [a * 0_8] and [0_16 / 1_8] give the zero of
    GF(16), [a == 1_8] answers [False] and [0_16 == 0_8] answers [True]. *)
Theorem field_mismatch_not_detected :
  exists a one8 zero8 zero16,
    ffelt2 (VInt 1) (VInt 16) = Ok a /\ ffelt2 (VInt 0) (VInt 8) = Ok one8 /\
    ffelt2 VNone (VInt 8) = Ok zero8 /\ ffelt2 VNone (VInt 16) = Ok zero16 /\
    elt_q a = 16 /\ elt_q zero16 = 16 /\ elt_q one8 = 8 /\ elt_q zero8 = 8 /\
    (exists s, ffelt_add a (VElt one8) = Ok s /\ elt s = Some 4 /\ elt_q s = 16) /\
    (exists s, ffelt_sub a (VElt one8) = Ok s /\ elt s = Some 4 /\ elt_q s = 16) /\
    ffelt_mul a (VElt one8) = Ok a /\
    ffelt_mul a (VElt zero8) = Ok (with_elt a None) /\
    ffelt_truediv zero16 (VElt one8) = Ok zero16 /\
    ffelt_eq a (VElt one8) = Ok (Some false) /\
    ffelt_eq zero16 (VElt zero8) = Ok (Some true).
Proof.
  destruct (holds_on_elim (ffelt2 (VInt 1) (VInt 16))
    (fun a => bool_decide (elt a = Some 1) && (elt_q a =? 16) &&
              holds_on (ffelt_add a (VInt 1))
                (fun s => bool_decide (elt s = Some 4) && (elt_q s =? 16))))
    as (a & Ha & Hca); [vm_compute; reflexivity|].
  destruct (holds_on_elim (ffelt2 (VInt 0) (VInt 8))
    (fun b => bool_decide (elt b = Some 0) && (elt_q b =? 8)))
    as (one8 & H1 & Hc1); [vm_compute; reflexivity|].
  destruct (holds_on_elim (ffelt2 VNone (VInt 8))
    (fun b => bool_decide (elt b = None) && (elt_q b =? 8)))
    as (zero8 & Hz8 & Hcz8); [vm_compute; reflexivity|].
  destruct (holds_on_elim (ffelt2 VNone (VInt 16))
    (fun b => bool_decide (elt b = None) && (elt_q b =? 16)))
    as (zero16 & Hz16 & Hcz16); [vm_compute; reflexivity|].
  rewrite !andb_true_iff, !bool_decide_eq_true, !Z.eqb_eq in *.
  destruct Hca as [[Hae Haq] Hadd], Hc1 as [H1e H1q], Hcz8 as [Hz8e Hz8q],
           Hcz16 as [Hz16e Hz16q].
  apply holds_on_elim in Hadd as (s & Hs & Hcs).
  rewrite andb_true_iff, bool_decide_eq_true, Z.eqb_eq in Hcs.
  exists a, one8, zero8, zero16. repeat (split; [assumption|]).
  assert (Hsum : exists s, ffelt_add a (VElt one8) = Ok s /\
                           elt s = Some 4 /\ elt_q s = 16).
  { exists s. rewrite add_exponent_zero by exact H1e. tauto. }
  split; [exact Hsum|]. split; [exact Hsum|].
  split. { rewrite mul_exponent_zero by congruence. now destruct a. }
  split. { now apply mul_zero_element. }
  split. { rewrite truediv_of_zero by exact Hz16e. rewrite <- Hz16e. now destruct zero16. }
  split.
  - rewrite eq_exponent_zero by exact H1e. rewrite Hae. reflexivity.
  - rewrite eq_zero_element by exact Hz8e. rewrite Hz16e. reflexivity.
Qed.

(** ** Elements of a catalog field *)

Lemma ffelt2_catalog (qv : Z) (x : pyval) :
  In qv catalog -> ffelt2 x (VInt qv) = fld ← ff_init (VInt qv); ffelt2 x (VField fld).
Proof.
  intros Hin. unfold ffelt2, ffelt_init, field_arg.
  each_catalog_order Hin; cbv beta iota;
    (destruct (ff_init (VInt _)) as [fld|e]; reflexivity).
Qed.

Lemma ffelt2_int (fld : ff) (n : Z) :
  q fld <> 1 -> ffelt2 (VInt n) (VField fld) = Ok (elt_of fld n).
Proof.
  intros Hq. unfold ffelt2, ffelt_init, field_arg, pymod. cbv beta iota.
  cbn. destruct (Z.eqb_spec (q fld - 1) 0) as [?|_]; [lia|]. reflexivity.
Qed.

(** ** Addition: the zero element and characteristic 2 *)

Section Addition.

Variable fld : ff.
Hypothesis Hti : tables_inverse fld.

Variables a zero : ffelt.
Hypothesis Hfa : f a = fld.
Hypothesis Hfz : f zero = fld.
Hypothesis Hz : elt zero = None.
Hypothesis Hq : elt_q zero = elt_q a.
Hypothesis Hrange : forall n, elt a = Some n -> 0 <= n <= q fld - 2.

(** [power_to_poly[a.elt]] exists and [poly_to_power] leads back. *)
Lemma elt_pattern :
  exists v, power_to_poly fld !! elt a = Some v /\
            poly_to_power fld !! v = Some (elt a).
Proof.
  destruct (elt a) as [n|] eqn:Ea.
  - apply (ti_powers fld Hti). now apply Hrange.
  - exists 0. split; [apply (ti_zero_key fld Hti)|apply (ti_zero_poly fld Hti)].
Qed.

Lemma eq_same_value (s : ffelt) :
  elt s = elt a -> elt_q s = elt_q a -> ffelt_eq s (VElt a) = Ok (Some true).
Proof.
  intros Hs Hsq. unfold ffelt_eq, py_eq_int, elt_eq_int. cbn. rewrite Hs.
  destruct (bool_decide (elt a = None)) eqn:E0; cbn.
  - reflexivity.
  - destruct (bool_decide (elt a = Some 0)) eqn:E1; cbn.
    + reflexivity.
    + rewrite (proj2 (Z.eqb_eq _ _)) by congruence.
      now rewrite bool_decide_eq_true_2.
Qed.

Lemma add_zero_element :
  exists s, ffelt_add a (VElt zero) = Ok s /\ elt s = elt a /\
            ffelt_eq s (VElt a) = Ok (Some true).
Proof.
  destruct elt_pattern as (v & Hv & Hback).
  exists (with_elt a (elt a)). split; [|split; [reflexivity|]].
  - unfold ffelt_add, py_eq_int, elt_eq_int, subscript. cbn.
    rewrite Hz. cbn. rewrite (proj2 (Z.eqb_eq _ _) Hq).
    rewrite Hfa, Hfz, Hv, (ti_zero_key fld Hti). cbn.
    rewrite bool_decide_eq_false_2 by discriminate. cbn.
    rewrite Z.lxor_0_r, Hback. reflexivity.
  - now apply eq_same_value.
Qed.

Lemma add_to_itself :
  exists d, ffelt_add a (VElt a) = Ok d /\ elt d = None /\
            ffelt_eq d (VElt zero) = Ok (Some true).
Proof.
  destruct elt_pattern as (v & Hv & _).
  exists (with_elt a None). split; [|split; [reflexivity|]].
  - unfold ffelt_add, py_eq_int, elt_eq_int, subscript. cbn.
    destruct (bool_decide (elt a = Some 0)) eqn:E1; cbn.
    + apply bool_decide_eq_true in E1. rewrite E1 in Hv.
      rewrite Hfa, E1, Hv. cbn.
      rewrite Z.lxor_nilpotent, (ti_zero_poly fld Hti). reflexivity.
    + rewrite Z.eqb_refl, Hfa, Hv. cbn.
      rewrite Z.lxor_nilpotent, (ti_zero_poly fld Hti). reflexivity.
  - rewrite eq_zero_element by exact Hz. reflexivity.
Qed.

End Addition.

(** ** Conjugates: the orbit of the doubling map *)

(** The least element of a decidable property of naturals below a witness. *)
Lemma none_or_some_below (P : nat -> Prop) (Hdec : forall k, {P k} + {~ P k}) (b : nat) :
  (forall k, (k < b)%nat -> ~ P k) \/ exists k, (k < b)%nat /\ P k.
Proof.
  induction b as [|b [IH|(k & Hk & HP)]].
  - left. intros k Hk. lia.
  - destruct (Hdec b) as [HP|HnP].
    + right. exists b. split; [lia|exact HP].
    + left. intros k Hk. destruct (Nat.eq_dec k b) as [->|Hne]; [exact HnP|].
      apply IH. lia.
  - right. exists k. split; [lia|exact HP].
Qed.

Lemma least_witness (P : nat -> Prop) (Hdec : forall k, {P k} + {~ P k}) (b : nat) :
  P b -> exists L, (L <= b)%nat /\ P L /\ forall k, (k < L)%nat -> ~ P k.
Proof.
  induction b as [b IH] using lt_wf_ind. intros HP.
  destruct (none_or_some_below P Hdec b) as [Hnone|(k & Hk & HPk)].
  - exists b. split; [lia|]. split; assumption.
  - destruct (IH k Hk HPk) as (L & HL & HPL & Hmin).
    exists L. split; [lia|]. split; assumption.
Qed.

Section Orbit.

Variable qv mv : Z.
Hypothesis Hqm : qv = 2 ^ mv.
Hypothesis Hm : 0 <= mv.
Variable n : Z.
Hypothesis Hn : 0 <= n <= qv - 2.

Let d := double qv.

Lemma iter_double (k : nat) :
  Nat.iter k d n = (2 ^ Z.of_nat k * n) mod (qv - 1).
Proof.
  induction k as [|k IH].
  - cbn. rewrite Z.mod_small by lia. destruct n; reflexivity.
  - rewrite Nat.iter_succ, IH. unfold d, double.
    rewrite Nat2Z.inj_succ, Z.pow_succ_r by lia.
    rewrite Z.add_diag, Z.mul_mod_idemp_r by lia. f_equal. ring.
Qed.

Lemma iter_double_range (k : nat) : 0 <= Nat.iter k d n <= qv - 2.
Proof.
  rewrite iter_double. pose proof (Z.mod_pos_bound (2 ^ Z.of_nat k * n) (qv - 1)). lia.
Qed.

(** After [m] doublings the exponent is back: [2^m = q = 1 (mod q-1)]. *)
Lemma iter_double_m : Nat.iter (Z.to_nat mv) d n = n.
Proof.
  rewrite iter_double, Z2Nat.id, <- Hqm by lia.
  replace (qv * n) with (n + n * (qv - 1)) by ring.
  rewrite Z.mod_add by lia. apply Z.mod_small. lia.
Qed.

Lemma iter_double_multiple (L t : nat) :
  Nat.iter L d n = n -> Nat.iter (t * L) d n = n.
Proof.
  intros HL. induction t as [|t IH]; [reflexivity|].
  cbn [Nat.mul]. rewrite Nat.add_comm, Nat.iter_add, HL. exact IH.
Qed.

(** The first return to [n] happens after a number of doublings that is at
    least 1, at most [m], and divides [m]. *)
Lemma first_return :
  exists L : nat, (1 <= L)%nat /\ (Z.of_nat L | mv) /\
    Nat.iter L d n = n /\
    forall k, (1 <= k < L)%nat -> Nat.iter k d n <> n.
Proof.
  assert (Hm1 : 1 <= mv).
  { destruct (Z.eq_dec mv 0) as [->|]; [|lia]. cbn in Hqm. lia. }
  destruct (least_witness (fun k => (1 <= k)%nat /\ Nat.iter k d n = n)
              (fun k => ltac:(solve_decision)) (Z.to_nat mv))
    as (L & HLm & [HL1 HL] & Hmin).
  { split; [lia|apply iter_double_m]. }
  assert (Hleast : forall k, (1 <= k < L)%nat -> Nat.iter k d n <> n).
  { intros k Hk Hret. apply (Hmin k); [lia|]. split; [lia|exact Hret]. }
  exists L. split; [exact HL1|]. split; [|split; assumption].
  pose (t := (Z.to_nat mv / L)%nat). pose (r := (Z.to_nat mv mod L)%nat).
  assert (Hdiv : Z.to_nat mv = (r + t * L)%nat).
  { unfold t, r. rewrite (Nat.div_mod_eq (Z.to_nat mv) L) at 1. lia. }
  assert (Hr : (r < L)%nat) by (apply Nat.mod_upper_bound; lia).
  assert (Hr0 : r = 0%nat).
  { destruct (Nat.eq_dec r 0%nat) as [|Hne]; [assumption|].
    exfalso. apply (Hleast r); [lia|].
    assert (Hsplit : Nat.iter r d n = Nat.iter (r + t * L) d n).
    { now rewrite Nat.iter_add, (iter_double_multiple L t HL). }
    rewrite Hsplit, <- Hdiv. apply iter_double_m. }
  exists (Z.of_nat t). rewrite <- Nat2Z.inj_mul. lia.
Qed.

End Orbit.

Section ConjugatesLoop.

Variable self : ffelt.
Variable n : Z.
Hypothesis Hq : elt_q self = q (f self).
Hypothesis Hq2 : 2 <= q (f self).

Let d := double (elt_q self).

Lemma ffelt_init_in_range (c : Z) :
  0 <= c <= q (f self) - 2 ->
  ffelt_init (VInt c) (VField (f self)) = Ok (orbit_elt self c).
Proof.
  intros Hc. change (ffelt_init (VInt c) (VField (f self)))
    with (ffelt2 (VInt c) (VField (f self))).
  rewrite ffelt2_int by lia. unfold elt_of, orbit_elt.
  now rewrite Z.mod_small by lia.
Qed.

Lemma double_range (c : Z) : 0 <= d c <= q (f self) - 2.
Proof.
  unfold d, double. rewrite Hq.
  pose proof (Z.mod_pos_bound (c + c) (q (f self) - 1)). lia.
Qed.

(** One turn of the loop at an exponent [c] of the orbit. *)
Lemma conjugates_loop_step (fuel : nat) (acc : list ffelt) (c : Z) :
  0 <= c <= q (f self) - 2 -> elt self = Some n ->
  conjugates_loop (S fuel) self acc (Some c) =
    if bool_decide (d c = n) then Some (Ok (acc ++ [orbit_elt self c]))
    else conjugates_loop fuel self (acc ++ [orbit_elt self c]) (Some (d c)).
Proof.
  intros Hc He. cbn [conjugates_loop pyval_of_elt].
  rewrite ffelt_init_in_range by exact Hc.
  unfold int_binop, pymod. cbn [mbind result_bind bind].
  destruct (Z.eqb_spec (elt_q self - 1) 0) as [?|_]; [lia|].
  rewrite He. fold (double (elt_q self) c). fold d.
  destruct (decide (d c = n)) as [Heq|Hne].
  - rewrite !bool_decide_eq_true_2; congruence.
  - rewrite !bool_decide_eq_false_2; congruence.
Qed.

Lemma conjugates_loop_run (L : nat) :
  forall (c : Z) (acc : list ffelt) (fuel : nat),
    elt self = Some n -> 0 <= c <= q (f self) - 2 ->
    (1 <= L <= fuel)%nat ->
    Nat.iter L d c = n ->
    (forall k, (1 <= k < L)%nat -> Nat.iter k d c <> n) ->
    conjugates_loop fuel self acc (Some c) =
      Some (Ok (acc ++ map (fun k => orbit_elt self (Nat.iter k d c)) (seq 0 L))).
Proof.
  induction L as [|L IH]; intros c acc fuel He Hc HL Hret Hmin; [lia|].
  destruct fuel as [|fuel]; [lia|].
  rewrite conjugates_loop_step by assumption.
  destruct L as [|L].
  - cbn in Hret. rewrite bool_decide_eq_true_2 by exact Hret. reflexivity.
  - rewrite bool_decide_eq_false_2 by (apply (Hmin 1%nat); lia).
    rewrite (IH (d c) (acc ++ [orbit_elt self c]) fuel); try assumption.
    + rewrite <- app_assoc.
      change (seq 0 (S (S L))) with (0%nat :: seq 1 (S L)).
      rewrite <- seq_shift, map_cons, map_map. cbn [app].
      change (Nat.iter 0 d c) with c.
      apply (f_equal (fun l => Some (Ok (acc ++ orbit_elt self c :: l)))).
      apply map_ext. intros k. now rewrite <- Nat.iter_succ_r.
    + apply double_range.
    + lia.
    + rewrite <- Nat.iter_succ_r. exact Hret.
    + intros k Hk. rewrite <- Nat.iter_succ_r. apply Hmin. lia.
Qed.

Lemma conjugates_loop_short (fuel : nat) :
  forall (L : nat) (c : Z) (acc : list ffelt),
    elt self = Some n -> 0 <= c <= q (f self) - 2 ->
    (fuel < L)%nat ->
    (forall k, (1 <= k < L)%nat -> Nat.iter k d c <> n) ->
    conjugates_loop fuel self acc (Some c) = None.
Proof.
  induction fuel as [|fuel IH]; intros L c acc He Hc HL Hmin; [reflexivity|].
  rewrite conjugates_loop_step by assumption.
  rewrite bool_decide_eq_false_2 by (apply (Hmin 1%nat); lia).
  apply (IH (pred L)); try assumption.
  - apply double_range.
  - lia.
  - intros k Hk. rewrite <- Nat.iter_succ_r. apply Hmin. lia.
Qed.

End ConjugatesLoop.

(** C7, amended to the elements that have an exponent.  For an element whose
    exponent [n] lies in [0 .. q-2] of a field with [q = 2^m], [conjugates]
    terminates and returns the elements with exponents
    [n, 2n % (q-1), 4n % (q-1), ...]: the list stops at the first doubling
    that gives [n] again, [n] is listed once, and its length [L] divides
    [m].  With fewer than [L] turns the loop is still running. *)
Theorem conjugates_orbit (self : ffelt) (n : Z) :
  elt self = Some n -> elt_q self = q (f self) ->
  q (f self) = 2 ^ m (f self) -> 0 <= m (f self) -> 0 <= n <= q (f self) - 2 ->
  exists L : nat,
    (1 <= L)%nat /\ (Z.of_nat L | m (f self)) /\
    Nat.iter L (double (elt_q self)) n = n /\
    (forall k, (1 <= k < L)%nat -> Nat.iter k (double (elt_q self)) n <> n) /\
    (forall fuel, (L <= fuel)%nat ->
       conjugates fuel self =
         Some (Ok (map (fun k => orbit_elt self (Nat.iter k (double (elt_q self)) n))
                       (seq 0 L)))) /\
    (forall fuel, (fuel < L)%nat -> conjugates fuel self = None).
Proof.
  intros He Hq Hqm Hm Hn.
  destruct (first_return (q (f self)) (m (f self)) Hqm Hm n Hn)
    as (L & HL1 & Hdiv & Hret & Hmin).
  rewrite <- Hq in Hret, Hmin.
  exists L. repeat (split; [assumption|]). split.
  - intros fuel Hfuel. unfold conjugates. rewrite He.
    rewrite (conjugates_loop_run self n Hq ltac:(lia) L n [] fuel); auto; lia.
  - intros fuel Hfuel. unfold conjugates. rewrite He.
    apply (conjugates_loop_short self n Hq ltac:(lia) fuel L); auto.
Qed.

(** Fields built by [ff.__init__] have [q = 2^m]. *)
Lemma ff_init_order (gspec : pyval) (fld : ff) :
  ff_init gspec = Ok fld -> q fld = 2 ^ m fld /\ 0 <= m fld.
Proof.
  unfold ff_init. intros H.
  destruct (match gspec with VInt _ => _ | _ => _ end) as [glist|e];
    cbn [mbind result_bind bind] in H; [|discriminate].
  destruct (int_log2 (g_of_list glist)) as [mv|e] eqn:Hlog;
    cbn [mbind result_bind bind] in H; [|discriminate].
  destruct (build_tables _ _) as [p2p p2w]. injection H as <-. cbn.
  split; [reflexivity|]. apply int_log2_Ok in Hlog. tauto.
Qed.

(** Every element the constructor builds with an int exponent meets the
    conditions of [conjugates_orbit]. *)
Lemma constructed_element_in_range (gspec : pyval) (fld : ff) (k : Z) (e : ffelt) :
  ff_init gspec = Ok fld -> ffelt2 (VInt k) (VField fld) = Ok e ->
  exists n, elt e = Some n /\ elt_q e = q (f e) /\ q (f e) = 2 ^ m (f e) /\
            0 <= m (f e) /\ 0 <= n <= q (f e) - 2.
Proof.
  intros Hfld He. destruct (ff_init_order gspec fld Hfld) as [Hqm Hm].
  assert (Hq1 : q fld <> 1).
  { intros Hq1. revert He. unfold ffelt2, ffelt_init, field_arg, pymod.
    cbv beta iota. cbn. rewrite Hq1. discriminate. }
  rewrite ffelt2_int in He by exact Hq1. injection He as <-.
  exists (k mod (q fld - 1)). cbn. repeat (split; [assumption || reflexivity|]).
  assert (0 < q fld) by (rewrite Hqm; apply Z.pow_pos_nonneg; lia).
  pose proof (Z.mod_pos_bound k (q fld - 1)). lia.
Qed.

Lemma conjugates_orbit_witness :
  exists e L, ffelt2 (VInt 5) (VInt 16) = Ok e /\ (Z.of_nat L | m (f e)) /\
    forall fuel, (L <= fuel)%nat ->
      exists l, conjugates fuel e = Some (Ok l) /\ length l = L.
Proof.
  destruct (catalog_tables_ok 16) as (fld & Hfld & Hq16 & Hm16 & _);
    [unfold catalog; simpl; tauto|].
  destruct (ff_init_order _ _ Hfld) as [Hqm Hm].
  assert (He : elt (elt_of fld 5) = Some 5) by (cbn; rewrite Hq16; reflexivity).
  destruct (conjugates_orbit (elt_of fld 5) 5 He eq_refl Hqm Hm
              ltac:(cbn; rewrite Hq16; lia))
    as (L & _ & Hdiv & _ & _ & Hrun & _).
  exists (elt_of fld 5), L. split; [|split; [exact Hdiv|]].
  - rewrite ffelt2_catalog by (unfold catalog; simpl; tauto).
    rewrite Hfld. cbn [mbind result_bind bind]. apply ffelt2_int. lia.
  - intros fuel Hfuel. eexists. split; [apply (Hrun fuel Hfuel)|].
    now rewrite length_map, length_seq.
Defined.

(** C7 as stated fails on the zero element: the first turn of the loop adds
    [None] to [None], so [conjugates] raises [TypeError] and no list is ever
    returned. *)
Lemma conjugates_zero_raises :
  exists z, ffelt2 VNone (VInt 16) = Ok z /\ elt z = None /\
    (forall fuel, conjugates (S fuel) z = Some (Err (TypeError unsupported_operand))) /\
    (forall fuel l, conjugates fuel z <> Some (Ok l)).
Proof.
  destruct (catalog_tables_ok 16) as (fld & Hfld & _);
    [unfold catalog; simpl; tauto|].
  exists (zero_of fld). split; [|split; [reflexivity|split]].
  - rewrite ffelt2_catalog by (unfold catalog; simpl; tauto).
    rewrite Hfld. reflexivity.
  - reflexivity.
  - intros [|fuel] l; discriminate.
Qed.

(** ** Minimal polynomials *)

(** More fuel does not change a finished run. *)
Lemma conjugates_loop_mono (fuel : nat) :
  forall (fuel' : nat) (self : ffelt) (acc : list ffelt) (c : option Z)
         (r : result (list ffelt)),
    (fuel <= fuel')%nat ->
    conjugates_loop fuel self acc c = Some r ->
    conjugates_loop fuel' self acc c = Some r.
Proof.
  induction fuel as [|fuel IH]; intros fuel' self acc c r Hle Hrun; [discriminate|].
  destruct fuel' as [|fuel']; [lia|].
  cbn [conjugates_loop] in *.
  destruct (ffelt_init _ _) as [x|e]; [|exact Hrun].
  destruct (_ ≫= _) as [c'|e]; [|exact Hrun].
  destruct (bool_decide _); [exact Hrun|].
  apply IH; [lia|exact Hrun].
Qed.

Lemma minpoly_mono (fuel fuel' : nat) (self : ffelt) (coeffs : bool)
    (r : result (list Z)) :
  (fuel <= fuel')%nat ->
  minpoly fuel self coeffs = Some r -> minpoly fuel' self coeffs = Some r.
Proof.
  intros Hle. unfold minpoly, conjugates.
  destruct (elt self) as [e|]; [|auto].
  destruct (e >? 0); [|auto].
  destruct (conjugates_loop fuel self [] (Some e)) as [rc|] eqn:Hc; [|discriminate].
  now rewrite (conjugates_loop_mono fuel fuel' self [] (Some e) rc Hle Hc).
Qed.

Lemma elt_of_mod (fld : ff) (n : Z) :
  q fld <> 1 -> elt_of fld (n mod (q fld - 1)) = elt_of fld n.
Proof. intros Hq. unfold elt_of. now rewrite Z.mod_mod by lia. Qed.

(** * Further properties of the operators *)

(** ** Multiplication, division and powers on exponents *)

Lemma with_elt_same (a : ffelt) : with_elt a (elt a) = a.
Proof. now destruct a. Qed.

Lemma mul_nonzero (a b : ffelt) (x y : Z) :
  elt a = Some x -> elt b = Some y -> elt_q b = elt_q a ->
  2 <= elt_q a -> 0 <= x <= elt_q a - 2 ->
  ffelt_mul a (VElt b) = Ok (with_elt a (Some ((x + y) mod (elt_q a - 1)))).
Proof.
  intros Ha Hb Hq Hq2 Hx.
  unfold ffelt_mul, py_eq_None, py_eq_int, elt_eq_int, pymod. cbn.
  rewrite Ha, Hb.
  rewrite (bool_decide_eq_false_2 (Some x = None)) by discriminate.
  rewrite (bool_decide_eq_false_2 (Some y = None)) by discriminate. cbn.
  destruct (decide (y = 0)) as [->|Hy].
  - rewrite bool_decide_eq_true_2 by reflexivity. cbn.
    now rewrite Z.add_0_r, Z.mod_small by lia.
  - rewrite bool_decide_eq_false_2 by congruence. cbn.
    rewrite (proj2 (Z.eqb_eq _ _) Hq).
    destruct (Z.eqb_spec (elt_q a - 1) 0) as [?|_]; [lia|]. reflexivity.
Qed.

Lemma truediv_nonzero (a b : ffelt) (x y : Z) :
  elt a = Some x -> elt b = Some y -> elt_q b = elt_q a -> 2 <= elt_q a ->
  ffelt_truediv a (VElt b) = Ok (with_elt a (Some ((x - y) mod (elt_q a - 1)))).
Proof.
  intros Ha Hb Hq Hq2. unfold ffelt_truediv, py_eq_None, pymod. cbn.
  rewrite Ha, Hb.
  rewrite (bool_decide_eq_false_2 (Some x = None)) by discriminate.
  rewrite (proj2 (Z.eqb_eq _ _) Hq). cbn.
  destruct (Z.eqb_spec (elt_q a - 1) 0) as [?|_]; [lia|]. reflexivity.
Qed.

Lemma pow_nonzero (a : ffelt) (x k : Z) :
  elt a = Some x -> 2 <= elt_q a ->
  ffelt_pow a (VInt k) = Ok (with_elt a (Some ((x * k) mod (elt_q a - 1)))).
Proof.
  intros Ha Hq2. unfold ffelt_pow, pymod. cbn. rewrite Ha.
  rewrite (bool_decide_eq_false_2 (Some x = None)) by discriminate. cbn.
  destruct (Z.eqb_spec (elt_q a - 1) 0) as [?|_]; [lia|]. reflexivity.
Qed.

(** The elements of GF(16), for the examples below. *)
Lemma gf16_elements :
  exists fld, ff_init (VInt 16) = Ok fld /\ q fld = 16 /\ m fld = 4 /\
    tables_inverse fld /\
    (forall n, ffelt2 (VInt n) (VInt 16) = Ok (elt_of fld n)) /\
    ffelt2 VNone (VInt 16) = Ok (zero_of fld).
Proof.
  assert (Hin : In 16 catalog) by (unfold catalog; simpl; tauto).
  destruct (catalog_tables_ok 16 Hin) as (fld & Hfld & Hq & Hm & Hti).
  exists fld. repeat (split; [assumption|]).
  split; [|split; [exact Hti|split]].
  - destruct (ff_init_order _ _ Hfld) as [_ Hm0].
    apply (Z.pow_inj_r 2); [lia|exact Hm0|lia|]. rewrite Hm. reflexivity.
  - intros n. rewrite ffelt2_catalog, Hfld by exact Hin.
    cbn [mbind result_bind bind]. apply ffelt2_int. lia.
  - rewrite ffelt2_catalog, Hfld by exact Hin. reflexivity.
Qed.

(** X1.  For two nonzero elements of the same field size, with the exponent
    of the left one in [0 .. q-2], the product has the exponent
    [(x + y) % (q-1)], also when the right operand is the element 1 and the
    shortcut [a == 1] answers; so the exponents of [a * b] and [b * a]
    agree. *)
Theorem mul_adds_exponents (a b : ffelt) (x y : Z) :
  elt a = Some x -> elt b = Some y -> elt_q b = elt_q a -> 2 <= elt_q a ->
  0 <= x <= elt_q a - 2 -> 0 <= y <= elt_q a - 2 ->
  exists p r, ffelt_mul a (VElt b) = Ok p /\ ffelt_mul b (VElt a) = Ok r /\
    elt p = Some ((x + y) mod (elt_q a - 1)) /\ elt r = elt p /\
    f p = f a /\ elt_q p = elt_q a /\ f r = f b /\ elt_q r = elt_q b.
Proof.
  intros Ha Hb Hq Hq2 Hx Hy.
  exists (with_elt a (Some ((x + y) mod (elt_q a - 1)))),
         (with_elt b (Some ((y + x) mod (elt_q b - 1)))).
  split; [now apply mul_nonzero|].
  split; [apply mul_nonzero; auto; lia|].
  cbn. rewrite Hq, (Z.add_comm y x). repeat split.
Qed.

Lemma mul_adds_exponents_witness :
  exists a b p, ffelt2 (VInt 14) (VInt 16) = Ok a /\
    ffelt2 (VInt 3) (VInt 16) = Ok b /\
    ffelt_mul a (VElt b) = Ok p /\ elt p = Some 2.
Proof.
  destruct gf16_elements as (fld & _ & Hq & _ & _ & Helt & _).
  destruct (mul_adds_exponents (elt_of fld 14) (elt_of fld 3) 14 3)
    as (p & r & Hp & _ & He & _);
    try (cbn; rewrite Hq; reflexivity); try (cbn; rewrite Hq; lia).
  exists (elt_of fld 14), (elt_of fld 3), p.
  split; [apply Helt|]. split; [apply Helt|]. split; [exact Hp|].
  rewrite He. cbn. rewrite Hq. reflexivity.
Defined.

(** X2.  Division undoes multiplication and multiplication undoes division:
    for nonzero [a] and [b] of one field size, with the exponent of [a] in
    range, [(a * b) / b] and [(a / b) * b] are [a] again. *)
Theorem mul_truediv_cancel (a b : ffelt) (x y : Z) :
  elt a = Some x -> elt b = Some y -> elt_q b = elt_q a -> 2 <= elt_q a ->
  0 <= x <= elt_q a - 2 ->
  (exists p, ffelt_mul a (VElt b) = Ok p /\ ffelt_truediv p (VElt b) = Ok a) /\
  (exists d, ffelt_truediv a (VElt b) = Ok d /\ ffelt_mul d (VElt b) = Ok a).
Proof.
  intros Ha Hb Hq Hq2 Hx.
  assert (Hn : elt_q a - 1 <> 0) by lia.
  split.
  - eexists. split; [apply (mul_nonzero a b x y); assumption|].
    rewrite (truediv_nonzero _ b ((x + y) mod (elt_q a - 1)) y); auto.
    cbn. rewrite Zminus_mod_idemp_l.
    replace (x + y - y) with x by ring. rewrite (Z.mod_small x) by lia.
    unfold with_elt. cbn. rewrite <- Ha. now destruct a.
  - eexists. split; [apply (truediv_nonzero a b x y); assumption|].
    rewrite (mul_nonzero _ b ((x - y) mod (elt_q a - 1)) y); auto.
    + cbn. rewrite Zplus_mod_idemp_l.
      replace (x - y + y) with x by ring. rewrite (Z.mod_small x) by lia.
      unfold with_elt. cbn. rewrite <- Ha. now destruct a.
    + cbn. pose proof (Z.mod_pos_bound (x - y) (elt_q a - 1)). lia.
Qed.

Lemma mul_truediv_cancel_witness :
  exists a b p, ffelt2 (VInt 14) (VInt 16) = Ok a /\
    ffelt2 (VInt 3) (VInt 16) = Ok b /\
    ffelt_mul a (VElt b) = Ok p /\ ffelt_truediv p (VElt b) = Ok a.
Proof.
  destruct gf16_elements as (fld & _ & Hq & _ & _ & Helt & _).
  destruct (mul_truediv_cancel (elt_of fld 14) (elt_of fld 3) 14 3)
    as [(p & Hp & Hd) _];
    try (cbn; rewrite Hq; reflexivity); try (cbn; rewrite Hq; lia).
  exists (elt_of fld 14), (elt_of fld 3), p.
  split; [apply Helt|]. split; [apply Helt|]. split; assumption.
Defined.

(** X3.  Powers of a nonzero element with exponent [x] in range:
    [a ** k] has the exponent [(x * k) % (q-1)] for every int [k], negative
    ones included; so [a ** 0] and [a ** (q-1)] are the element 1, [a ** 1]
    is [a], [a ** (j+k)] is [(a ** j) * (a ** k)], [(a ** j) ** k] is
    [a ** (j*k)], and [a * (a ** -1)] is the element 1. *)
Theorem pow_laws (a : ffelt) (x : Z) :
  elt a = Some x -> 2 <= elt_q a -> 0 <= x <= elt_q a - 2 ->
  ffelt_pow a (VInt 0) = Ok (with_elt a (Some 0)) /\
  ffelt_pow a (VInt (elt_q a - 1)) = Ok (with_elt a (Some 0)) /\
  ffelt_pow a (VInt 1) = Ok a /\
  (forall j k, exists pj pk,
     ffelt_pow a (VInt j) = Ok pj /\ ffelt_pow a (VInt k) = Ok pk /\
     ffelt_mul pj (VElt pk) = ffelt_pow a (VInt (j + k)) /\
     ffelt_pow pj (VInt k) = ffelt_pow a (VInt (j * k))) /\
  (exists i, ffelt_pow a (VInt (-1)) = Ok i /\
             ffelt_mul a (VElt i) = Ok (with_elt a (Some 0))).
Proof.
  intros Ha Hq2 Hx.
  assert (Hn : elt_q a - 1 <> 0) by lia.
  rewrite !(pow_nonzero a x) by assumption.
  split; [now rewrite Z.mul_0_r, Z.mod_0_l|].
  split; [now rewrite Z.mod_mul|].
  split.
  { rewrite Z.mul_1_r, Z.mod_small by lia. rewrite <- Ha. now destruct a. }
  split.
  - intros j k. rewrite ?(pow_nonzero a x) by assumption.
    do 2 eexists. split; [reflexivity|]. split; [reflexivity|].
    pose proof (Z.mod_pos_bound (x * j) (elt_q a - 1)).
    split.
    + rewrite (mul_nonzero _ _ ((x * j) mod (elt_q a - 1))
                 ((x * k) mod (elt_q a - 1))); try reflexivity; cbn; try lia.
      rewrite <- Zplus_mod, <- Z.mul_add_distr_l. reflexivity.
    + rewrite (pow_nonzero _ ((x * j) mod (elt_q a - 1))); try reflexivity;
        cbn; try lia.
      rewrite Z.mul_mod_idemp_l, <- Z.mul_assoc by lia. reflexivity.
  - rewrite ?(pow_nonzero a x) by assumption. eexists. split; [reflexivity|].
    rewrite (mul_nonzero a _ x ((x * -1) mod (elt_q a - 1)));
      try reflexivity; cbn; try assumption.
    rewrite Zplus_mod_idemp_r. replace (x + x * -1) with 0 by ring.
    now rewrite Z.mod_0_l.
Qed.

Lemma pow_laws_witness :
  exists a i, ffelt2 (VInt 7) (VInt 16) = Ok a /\
    ffelt_pow a (VInt (-1)) = Ok i /\
    ffelt_mul a (VElt i) = Ok (with_elt a (Some 0)) /\
    ffelt_pow a (VInt 15) = Ok (with_elt a (Some 0)).
Proof.
  destruct gf16_elements as (fld & _ & Hq & _ & _ & Helt & _).
  destruct (pow_laws (elt_of fld 7) 7)
    as (_ & Hfermat & _ & _ & (i & Hi & Hinv));
    try (cbn; rewrite Hq; reflexivity); try (cbn; rewrite Hq; lia).
  exists (elt_of fld 7), i. split; [apply Helt|].
  split; [exact Hi|]. split; [exact Hinv|].
  change (elt_q (elt_of fld 7)) with (q fld) in Hfermat.
  rewrite Hq in Hfermat. exact Hfermat.
Defined.

(** X4.  An int operand means different things to [*] and [/].  For a
    nonzero [a]: [a * 1] is [a], [a * 0] is zero and any other int raises
    [TypeError]; but [a / k] treats the int [k] as an exponent, giving the
    same result as [a / ffelt(k, a.f)], so [a / 0] is [a] and [a / 1]
    lowers the exponent by one. *)
Theorem int_operands (a : ffelt) (x : Z) :
  elt a = Some x -> elt_q a = q (f a) -> 2 <= elt_q a -> 0 <= x <= elt_q a - 2 ->
  ffelt_mul a (VInt 1) = Ok a /\
  ffelt_mul a (VInt 0) = Ok (with_elt a None) /\
  (forall k, k <> 0 -> k <> 1 ->
     ffelt_mul a (VInt k) = Err (TypeError str_concat_type)) /\
  (forall k, exists b, ffelt2 (VInt k) (VField (f a)) = Ok b /\
     ffelt_truediv a (VInt k) = ffelt_truediv a (VElt b) /\
     ffelt_truediv a (VInt k) = Ok (with_elt a (Some ((x - k) mod (elt_q a - 1))))) /\
  ffelt_truediv a (VInt 0) = Ok a /\
  ffelt_truediv a (VInt 1) = Ok (with_elt a (Some ((x - 1) mod (elt_q a - 1)))).
Proof.
  intros Ha Hq Hq2 Hx.
  assert (Hdiv : forall k, ffelt_truediv a (VInt k)
                 = Ok (with_elt a (Some ((x - k) mod (elt_q a - 1))))).
  { intros k. unfold ffelt_truediv, py_eq_None, pymod. cbn. rewrite Ha.
    rewrite (bool_decide_eq_false_2 (Some x = None)) by discriminate. cbn.
    destruct (Z.eqb_spec (elt_q a - 1) 0) as [?|_]; [lia|]. reflexivity. }
  assert (Hmul : forall k, ffelt_mul a (VInt k) =
            if k =? 0 then Ok (with_elt a None)
            else if k =? 1 then Ok (with_elt a (elt a))
            else Err (TypeError str_concat_type)).
  { intros k. unfold ffelt_mul, py_eq_None, py_eq_int. cbn. rewrite Ha.
    rewrite (bool_decide_eq_false_2 (Some x = None)) by discriminate.
    destruct (k =? 0); [reflexivity|]. destruct (k =? 1); reflexivity. }
  split; [rewrite Hmul; cbn; now destruct a|].
  split; [now rewrite Hmul|].
  split.
  { intros k H0 H1. rewrite Hmul.
    destruct (Z.eqb_spec k 0) as [?|_]; [contradiction|].
    now destruct (Z.eqb_spec k 1) as [?|_]. }
  split.
  { intros k. exists (elt_of (f a) k).
    split; [apply ffelt2_int; lia|]. split; [|apply Hdiv].
    rewrite Hdiv, (truediv_nonzero a _ x (k mod (q (f a) - 1)));
      try reflexivity; try assumption; [|cbn; congruence].
    rewrite <- Hq, Zminus_mod_idemp_r. reflexivity. }
  split; [|apply Hdiv].
  rewrite Hdiv, Z.sub_0_r, Z.mod_small by lia. rewrite <- Ha. now destruct a.
Qed.

Lemma int_operands_witness :
  exists a, ffelt2 (VInt 7) (VInt 16) = Ok a /\
    ffelt_mul a (VInt 1) = Ok a /\
    ffelt_truediv a (VInt 1) = Ok (with_elt a (Some 6)) /\
    ffelt_mul a (VInt 2) = Err (TypeError str_concat_type).
Proof.
  destruct gf16_elements as (fld & _ & Hq & _ & _ & Helt & _).
  destruct (int_operands (elt_of fld 7) 7)
    as (Hm1 & _ & Hmk & _ & _ & Hd1);
    try (cbn; rewrite Hq; reflexivity); try (cbn; rewrite Hq; lia).
  exists (elt_of fld 7). split; [apply Helt|]. split; [exact Hm1|].
  split; [|apply Hmk; lia].
  change (elt_q (elt_of fld 7)) with (q fld) in Hd1.
  rewrite Hq in Hd1. exact Hd1.
Defined.

(** X5.  With operands of one field size, [==] answers exactly whether the
    two stored exponents (or zero sentinels) are equal, whichever branch of
    [__eq__] answers; it never consults the tables, so it is reflexive,
    symmetric and transitive and also holds between elements of different
    [ff] objects of the same order. *)
Theorem eq_same_size (a b : ffelt) :
  elt_q b = elt_q a ->
  ffelt_eq a (VElt b) = Ok (Some (bool_decide (elt a = elt b))) /\
  ffelt_eq a (VElt a) = Ok (Some true) /\
  ffelt_eq b (VElt a) = ffelt_eq a (VElt b) /\
  (forall c, elt_q c = elt_q a ->
     ffelt_eq a (VElt b) = Ok (Some true) -> ffelt_eq b (VElt c) = Ok (Some true) ->
     ffelt_eq a (VElt c) = Ok (Some true)).
Proof.
  intros Hq.
  assert (Heq : forall u v, elt_q v = elt_q u ->
            ffelt_eq u (VElt v) = Ok (Some (bool_decide (elt u = elt v)))).
  { intros u v Huv. unfold ffelt_eq, py_eq_int, elt_eq_int. cbn.
    destruct (elt v) as [y|] eqn:Hv.
    - rewrite (bool_decide_eq_false_2 (Some y = None)) by discriminate. cbn.
      destruct (decide (y = 0)) as [->|Hy].
      + rewrite (bool_decide_eq_true_2 (Some 0 = Some 0)) by reflexivity.
        reflexivity.
      + rewrite (bool_decide_eq_false_2 (Some y = Some 0)) by congruence. cbn.
        rewrite (proj2 (Z.eqb_eq _ _) Huv). do 2 f_equal.
        apply bool_decide_ext. split; congruence.
    - rewrite (bool_decide_eq_true_2 (None = None)) by reflexivity. cbn.
      do 2 f_equal. apply bool_decide_ext. reflexivity. }
  split; [now apply Heq|].
  split; [rewrite Heq by reflexivity; now rewrite bool_decide_eq_true_2|].
  split.
  { rewrite !Heq by congruence. do 2 f_equal. apply bool_decide_ext.
    split; congruence. }
  intros c Hc. rewrite !Heq by congruence.
  intros [= Hab] [= Hbc]. apply bool_decide_eq_true in Hab, Hbc.
  rewrite bool_decide_eq_true_2 by congruence. reflexivity.
Qed.

Lemma eq_same_size_witness :
  exists a b, ffelt2 (VInt 7) (VInt 16) = Ok a /\
    ffelt2 (VInt 7) (VList [0; 3; 4]%N) = Ok b /\ f a <> f b /\
    ffelt_eq a (VElt b) = Ok (Some true).
Proof.
  destruct gf16_elements as (fld & Hfld & Hq & _ & _ & Helt & _).
  destruct (holds_on_elim (ffelt2 (VInt 7) (VList [0; 3; 4]%N))
    (fun b => (elt_q b =? 16) && bool_decide (elt b = Some 7) &&
              (g (f b) =? 25)))
    as (b & Hb & Hc); [vm_compute; reflexivity|].
  rewrite !andb_true_iff, !Z.eqb_eq, bool_decide_eq_true in Hc.
  destruct Hc as [[Hbq Hbe] Hbg].
  assert (Hg : g fld = 19).
  { destruct (holds_on_elim (ff_init (VInt 16)) (fun t => g t =? 19))
      as (t & Ht & Hgt); [vm_compute; reflexivity|].
    rewrite Hfld in Ht. injection Ht as <-. now apply Z.eqb_eq. }
  exists (elt_of fld 7), b. split; [apply Helt|]. split; [exact Hb|].
  split.
  - cbn. intros Hf. rewrite Hf in Hg. lia.
  - destruct (eq_same_size (elt_of fld 7) b) as [Heq _];
      [cbn; rewrite Hq, Hbq; reflexivity|].
    rewrite Heq, Hbe. cbn. rewrite Hq. reflexivity.
Defined.

(** * The tables of any field *)

(** ** What the table loop keeps true *)

Lemma tables_upto_S (qv gp : Z) (k : nat) :
  tables_upto qv gp (S k) = table_step qv gp (tables_upto qv gp k) (Z.of_nat k).
Proof.
  unfold tables_upto. now rewrite seq_S, map_app, fold_left_app.
Qed.

Lemma build_tables_upto (qv gp : Z) :
  build_tables qv gp =
    (snd (fst (tables_upto qv gp (Z.to_nat (qv - 1)))),
     snd (tables_upto qv gp (Z.to_nat (qv - 1)))).
Proof.
  unfold build_tables, tables_upto, zrange.
  now destruct (fold_left _ _ _) as [[a p2p] p2w].
Qed.

Lemma tables_upto_inv (qv gp : Z) (k : nat) :
  tables_inv (Z.of_nat k) (snd (fst (tables_upto qv gp k)))
             (snd (tables_upto qv gp k)).
Proof.
  induction k as [|k IH].
  - cbn. split.
    + reflexivity.
    + intros n. rewrite lookup_singleton_ne by discriminate.
      split; [intros [? [=]]|lia].
    + intros v n Hv. apply lookup_singleton_Some in Hv as [_ [=]].
    + intros v Hv. now apply lookup_singleton_Some in Hv as [<- _].
    + intros n v Hn. rewrite lookup_singleton_ne in Hn by discriminate.
      discriminate.
  - rewrite tables_upto_S.
    destruct (tables_upto qv gp k) as [[a p2p] p2w]. cbn in *.
    destruct IH as [Hnone Hkeys Hback Hzero Hforth]. split.
    + rewrite lookup_insert_ne by discriminate. exact Hnone.
    + intros n. destruct (decide (n = Z.of_nat k)) as [->|Hne].
      * rewrite lookup_insert_eq. split; [lia|eauto].
      * rewrite lookup_insert_ne by congruence. rewrite Hkeys. lia.
    + intros v n Hv. destruct (decide (a = v)) as [->|Hne].
      * rewrite lookup_insert_eq in Hv. injection Hv as <-.
        apply lookup_insert_eq.
      * rewrite lookup_insert_ne in Hv by exact Hne.
        assert (Hin : is_Some (p2p !! Some n)) by (rewrite (Hback v n Hv); eauto).
        apply Hkeys in Hin.
        rewrite lookup_insert_ne by (intros [= ?]; lia). now apply Hback.
    + intros v Hv. destruct (decide (a = v)) as [->|Hne].
      * rewrite lookup_insert_eq in Hv. discriminate.
      * rewrite lookup_insert_ne in Hv by exact Hne. now apply Hzero.
    + intros n v Hn. destruct (decide (a = v)) as [->|Hne].
      * rewrite lookup_insert_eq. eauto.
      * rewrite lookup_insert_ne by exact Hne.
        destruct (decide (n = Z.of_nat k)) as [->|Hnk].
        -- rewrite lookup_insert_eq in Hn. congruence.
        -- rewrite lookup_insert_ne in Hn by congruence. eauto.
Qed.

Lemma ff_init_tables (gspec : pyval) (fld : ff) :
  ff_init gspec = Ok fld ->
  q fld = 2 ^ m fld /\ 0 <= m fld /\ g fld <> 0 /\
  int_log2 (g fld) = Ok (m fld) /\
  power_to_poly fld = snd (fst (tables_upto (q fld) (g fld mod q fld)
                                            (Z.to_nat (q fld - 1)))) /\
  poly_to_power fld = snd (tables_upto (q fld) (g fld mod q fld)
                                       (Z.to_nat (q fld - 1))).
Proof.
  unfold ff_init. intros H.
  destruct (match gspec with VInt _ => _ | _ => _ end) as [glist|e];
    cbn [mbind result_bind bind] in H; [|discriminate].
  destruct (int_log2 (g_of_list glist)) as [mv|e] eqn:Hlog;
    cbn [mbind result_bind bind] in H; [|discriminate].
  rewrite build_tables_upto in H. injection H as <-. cbn.
  pose proof (int_log2_Ok _ _ Hlog). repeat split; tauto.
Qed.

Lemma built_tables_facts (gspec : pyval) (fld : ff) :
  ff_init gspec = Ok fld ->
  power_to_poly fld !! None = Some 0 /\
  (forall n, is_Some (power_to_poly fld !! Some n) <-> 0 <= n <= q fld - 2) /\
  (forall n v, power_to_poly fld !! Some n = Some v ->
     exists n', poly_to_power fld !! v = Some (Some n') /\
                power_to_poly fld !! Some n' = Some v) /\
  (forall v n, poly_to_power fld !! v = Some (Some n) ->
     power_to_poly fld !! Some n = Some v /\ 0 <= n <= q fld - 2) /\
  (forall v, poly_to_power fld !! v = Some None -> v = 0).
Proof.
  intros Hfld.
  destruct (ff_init_tables gspec fld Hfld) as (Hqm & Hm & _ & _ & Hp2p & Hp2w).
  pose proof (tables_upto_inv (q fld) (g fld mod q fld) (Z.to_nat (q fld - 1)))
    as [Hnone Hkeys Hback Hzero Hforth].
  rewrite <- Hp2p, <- Hp2w in *.
  assert (Hq1 : 0 < q fld) by (rewrite Hqm; apply Z.pow_pos_nonneg; lia).
  assert (Hrange : forall n, is_Some (power_to_poly fld !! Some n)
                             <-> 0 <= n <= q fld - 2).
  { intros n. rewrite Hkeys. lia. }
  split; [exact Hnone|]. split; [exact Hrange|]. split; [|split].
  - intros n v Hn. destruct (Hforth n v Hn) as (n' & Hn').
    exists n'. split; [exact Hn'|now apply Hback].
  - intros v n Hv. split; [now apply Hback|].
    apply Hrange. rewrite (Hback v n Hv). eauto.
  - exact Hzero.
Qed.

(** X6.  In the tables of any field [ff.__init__] builds, from a primitive
    polynomial or not: [power_to_poly] has exactly the keys [None] and
    [0 .. q-2], with [power_to_poly[None] == 0]; every pattern it holds is a
    key of [poly_to_power] with an exponent (never [None]) as value; and
    every exponent [n] stored in [poly_to_power] under a pattern [v]
    satisfies [power_to_poly[n] == v].  So the round trip
    pattern -> exponent -> pattern always holds, and [None] can sit under
    the pattern 0 only. *)
Theorem tables_of_any_field (gspec : pyval) (fld : ff) :
  ff_init gspec = Ok fld ->
  power_to_poly fld !! None = Some 0 /\
  (forall n, is_Some (power_to_poly fld !! Some n) <-> 0 <= n <= q fld - 2) /\
  (forall n v, power_to_poly fld !! Some n = Some v ->
     exists n', poly_to_power fld !! v = Some (Some n') /\
                power_to_poly fld !! Some n' = Some v) /\
  (forall v n, poly_to_power fld !! v = Some (Some n) ->
     power_to_poly fld !! Some n = Some v /\ 0 <= n <= q fld - 2) /\
  (forall v, poly_to_power fld !! v = Some None -> v = 0).
Proof. exact (built_tables_facts gspec fld). Qed.

Lemma tables_of_any_field_witness :
  exists fld, ff_init (VList [0; 2]%N) = Ok fld /\
    power_to_poly fld !! None = Some 0 /\
    (forall v n, poly_to_power fld !! v = Some (Some n) ->
       power_to_poly fld !! Some n = Some v /\ 0 <= n <= q fld - 2).
Proof.
  destruct (holds_on_elim (ff_init (VList [0; 2]%N)) (fun _ => true))
    as (fld & Hfld & _); [vm_compute; reflexivity|].
  destruct (tables_of_any_field (VList [0; 2]%N) fld Hfld)
    as (Hnone & _ & _ & Hback & _).
  exists fld. split; [exact Hfld|]. split; [exact Hnone|exact Hback].
Defined.

(** ** Patterns fit in [m] bits *)

Lemma lxor_below_pow2 (u v n : Z) :
  1 <= n -> 0 <= u < 2 ^ n -> 0 <= v < 2 ^ n -> 0 <= Z.lxor u v < 2 ^ n.
Proof.
  intros Hn Hu Hv.
  assert (Hnn : 0 <= Z.lxor u v) by (apply Z.lxor_nonneg; lia).
  split; [exact Hnn|].
  destruct (Z.eq_dec (Z.lxor u v) 0) as [->|Hne]; [lia|].
  apply Z.log2_lt_pow2; [lia|].
  pose proof (Z.log2_lxor u v ltac:(lia) ltac:(lia)) as Hlog.
  assert (Hlu : Z.log2 u < n).
  { destruct (Z.eq_dec u 0) as [->|?]; [cbn; lia|]. apply Z.log2_lt_pow2; lia. }
  assert (Hlv : Z.log2 v < n).
  { destruct (Z.eq_dec v 0) as [->|?]; [cbn; lia|]. apply Z.log2_lt_pow2; lia. }
  lia.
Qed.

Lemma land_pow2_positive (x n : Z) :
  0 <= n -> 2 ^ n <= x < 2 ^ (n + 1) -> 0 < Z.land x (2 ^ n).
Proof.
  intros Hn Hx.
  assert (Hpos : 0 < 2 ^ n) by (apply Z.pow_pos_nonneg; lia).
  assert (Hbit : Z.testbit (Z.land x (2 ^ n)) n = true).
  { rewrite Z.land_spec, Z.pow2_bits_true, andb_true_r by lia.
    apply Z.testbit_true; [lia|].
    assert (Hdiv : x / 2 ^ n = 1).
    { symmetry. apply (Z.div_unique x (2 ^ n) 1 (x - 2 ^ n)).
      - left. rewrite Z.pow_add_r, Z.pow_1_r in Hx by lia. lia.
      - ring. }
    rewrite Hdiv. reflexivity. }
  assert (Hnn : 0 <= Z.land x (2 ^ n)) by (apply Z.land_nonneg; lia).
  destruct (Z.eq_dec (Z.land x (2 ^ n)) 0) as [H0|?]; [|lia].
  rewrite H0, Z.bits_0 in Hbit. discriminate.
Qed.

Section PatternBound.

Variables qv mv gp : Z.
Hypothesis Hqm : qv = 2 ^ mv.
Hypothesis Hm : 1 <= mv.
Hypothesis Hgp : 0 <= gp < qv.

(** The shift-and-reduce step keeps the accumulator below [q]. *)
Lemma shift_reduce_bound (a : Z) :
  0 <= a < qv ->
  0 <= (if Z.land (Z.shiftl a 1) qv >? 0
        then Z.lxor (Z.land (Z.shiftl a 1) (qv - 1)) gp
        else Z.shiftl a 1) < qv.
Proof.
  intros Ha. rewrite Z.shiftl_mul_pow2, Z.pow_1_r by lia.
  destruct (Z.gtb_spec (Z.land (a * 2) qv) 0) as [Hset|Hclear].
  - replace (qv - 1) with (Z.ones mv) by (rewrite Z.ones_equiv; lia).
    rewrite Z.land_ones by lia. rewrite Hqm in *.
    apply lxor_below_pow2; try lia. apply Z.mod_pos_bound. lia.
  - split; [lia|].
    destruct (Z_lt_le_dec (a * 2) qv) as [?|Hge]; [assumption|].
    exfalso. pose proof (land_pow2_positive (a * 2) mv ltac:(lia)) as Hpos.
    rewrite <- Hqm in Hpos. rewrite Z.pow_add_r, Z.pow_1_r, <- Hqm in Hpos by lia.
    lia.
Qed.

Lemma tables_upto_bound (k : nat) :
  let '(a, p2p, p2w) := tables_upto qv gp k in
  0 <= a < qv /\
  (forall key v, p2p !! key = Some v -> 0 <= v < qv) /\
  (forall v w, p2w !! v = Some w -> 0 <= v < qv).
Proof.
  assert (Hq2 : 2 <= qv).
  { rewrite Hqm. change 2 with (2 ^ 1) at 1. apply Z.pow_le_mono_r; lia. }
  induction k as [|k IH].
  - cbn. split; [lia|]. split.
    + intros key v Hv. apply lookup_singleton_Some in Hv as [_ <-]. lia.
    + intros v w Hv. apply lookup_singleton_Some in Hv as [<- _]. lia.
  - rewrite tables_upto_S.
    destruct (tables_upto qv gp k) as [[a p2p] p2w].
    destruct IH as (Ha & Hp2p & Hp2w). cbn [table_step].
    split; [now apply shift_reduce_bound|]. split.
    + intros key v Hv. destruct (decide (Some (Z.of_nat k) = key)) as [<-|Hne].
      * rewrite lookup_insert_eq in Hv. now injection Hv as <-.
      * rewrite lookup_insert_ne in Hv by exact Hne. eauto.
    + intros v w Hv. destruct (decide (a = v)) as [<-|Hne]; [exact Ha|].
      rewrite lookup_insert_ne in Hv by exact Hne. eauto.
Qed.

End PatternBound.

Lemma built_patterns_bound (gspec : pyval) (fld : ff) :
  ff_init gspec = Ok fld ->
  (forall key v, power_to_poly fld !! key = Some v -> 0 <= v < q fld) /\
  (forall v w, poly_to_power fld !! v = Some w -> 0 <= v < q fld).
Proof.
  intros Hfld.
  destruct (ff_init_tables gspec fld Hfld) as (Hqm & Hm & _ & _ & Hp2p & Hp2w).
  destruct (Z.eq_dec (m fld) 0) as [Hm0|Hm1].
  - assert (Hq1 : q fld = 1) by (rewrite Hqm, Hm0; reflexivity).
    rewrite Hq1 in Hp2p, Hp2w.
    change (Z.to_nat (1 - 1)) with 0%nat in Hp2p, Hp2w.
    unfold tables_upto in Hp2p, Hp2w. cbn in Hp2p, Hp2w.
    rewrite Hp2p, Hp2w, Hq1. split.
    + intros key v Hv. apply lookup_singleton_Some in Hv as [_ <-]. lia.
    + intros v w Hv. apply lookup_singleton_Some in Hv as [<- _]. lia.
  - pose proof (tables_upto_bound (q fld) (m fld) (g fld mod q fld) Hqm
                  ltac:(lia)) as Hb.
    assert (Hq1 : 0 < q fld) by (rewrite Hqm; apply Z.pow_pos_nonneg; lia).
    specialize (Hb (Z.mod_pos_bound _ _ Hq1) (Z.to_nat (q fld - 1))).
    destruct (tables_upto _ _ _) as [[a p2p] p2w]. cbn in Hp2p, Hp2w.
    subst p2p p2w. tauto.
Qed.

(** X7.  In any field [ff.__init__] builds, every bit pattern stored in
    [power_to_poly] and every key of [poly_to_power] lies in [0 .. q-1]: the
    reduction step never lets a pattern reach bit [m]. *)
Theorem patterns_below_q (gspec : pyval) (fld : ff) :
  ff_init gspec = Ok fld ->
  (forall key v, power_to_poly fld !! key = Some v -> 0 <= v < q fld) /\
  (forall v w, poly_to_power fld !! v = Some w -> 0 <= v < q fld).
Proof. exact (built_patterns_bound gspec fld). Qed.

Lemma patterns_below_q_witness :
  exists fld, ff_init (VList [0; 2; 3]%N) = Ok fld /\ q fld = 8 /\
    forall key v, power_to_poly fld !! key = Some v -> 0 <= v < 8.
Proof.
  destruct (holds_on_elim (ff_init (VList [0; 2; 3]%N)) (fun t => q t =? 8))
    as (fld & Hfld & Hq); [vm_compute; reflexivity|].
  apply Z.eqb_eq in Hq.
  destruct (patterns_below_q (VList [0; 2; 3]%N) fld Hfld) as [Hb _].
  exists fld. split; [exact Hfld|]. split; [exact Hq|].
  rewrite <- Hq. exact Hb.
Defined.

(** ** Specifier lists *)

Lemma g_of_list_acc (l : list N) (acc : Z) :
  fold_left (fun acc i => acc + 2 ^ Z.of_N i) l acc
  = acc + fold_left (fun acc i => acc + 2 ^ Z.of_N i) l 0 /\
  0 <= fold_left (fun acc i => acc + 2 ^ Z.of_N i) l 0.
Proof.
  revert acc. induction l as [|i l IH]; intros acc; cbn; [lia|].
  assert (Hpos : 0 < 2 ^ Z.of_N i) by (apply Z.pow_pos_nonneg; lia).
  destruct (IH (acc + 2 ^ Z.of_N i)) as [-> Hnn].
  destruct (IH (0 + 2 ^ Z.of_N i)) as [-> _]. lia.
Qed.

Lemma g_of_list_cons (i : N) (l : list N) :
  g_of_list (i :: l) = 2 ^ Z.of_N i + g_of_list l /\ 0 <= g_of_list l.
Proof.
  unfold g_of_list. cbn. destruct (g_of_list_acc l (0 + 2 ^ Z.of_N i)) as [-> Hnn].
  split; [reflexivity|exact Hnn].
Qed.

(** X8.  A list specifier is never validated.  [ff(glist)] fails on the
    empty list, with [OverflowError] from [int(np.log2(0))], and on a list
    whose [g] reaches [2**64], with the [TypeError] of [np.log2]; every other
    list, with or without the constant term, builds a field with
    [g = sum of 2**i] and [q = 2**m].  When [g < 2**48], [m] is the position
    of the top bit of [g].  It need not be for a larger [g]: the logarithm is
    computed in [float64] and rounds up just below a power of two, so that
    for [glist = list(range(49))], where [g = 2**49 - 1], [m] is 49 and [q]
    exceeds [g]. *)
Theorem ff_init_list (l : list N) :
  (l = [] -> ff_init (VList l) = Err OverflowError) /\
  (2 ^ 64 <= g_of_list l -> ff_init (VList l) = Err (TypeError no_log2_loop)) /\
  (l <> [] -> g_of_list l < 2 ^ 64 ->
   exists fld, ff_init (VList l) = Ok fld /\ g fld = g_of_list l /\
     0 < g fld /\ int_log2 (g fld) = Ok (m fld) /\ 0 <= m fld /\
     q fld = 2 ^ m fld /\
     (g fld < 2 ^ 48 ->
      m fld = Z.log2 (g fld) /\ q fld <= g fld < 2 * q fld)) /\
  (g_of_list (map N.of_nat (seq 0 49)) = 2 ^ 49 - 1 /\
   int_log2 (2 ^ 49 - 1) = Ok 49 /\ Z.log2 (2 ^ 49 - 1) = 48).
Proof.
  split; [intros ->; reflexivity|]. split; [|split].
  - intros Hbig. unfold ff_init, int_log2. cbn [mbind result_bind bind].
    destruct (Z.eqb_spec (g_of_list l) 0) as [H0|_]; [rewrite H0 in Hbig; lia|].
    destruct (Z.leb_spec (2 ^ 64) (g_of_list l)) as [_|?]; [reflexivity|lia].
  - intros Hne Hlt. destruct l as [|i l]; [contradiction|].
    destruct (g_of_list_cons i l) as [Hg Hnn].
    assert (Hpos : 0 < g_of_list (i :: l)).
    { rewrite Hg. assert (0 < 2 ^ Z.of_N i) by (apply Z.pow_pos_nonneg; lia). lia. }
    destruct (ff_init (VList (i :: l))) as [fld|e] eqn:Hfld.
    + assert (Hgf : g fld = g_of_list (i :: l)).
      { revert Hfld. unfold ff_init. cbn [mbind result_bind bind].
        destruct (int_log2 _); cbn [mbind result_bind bind]; [|discriminate].
        destruct (build_tables _ _). now intros [= <-]. }
      destruct (ff_init_tables _ _ Hfld) as (Hqm & Hm & _ & Hlog & _).
      exists fld. split; [reflexivity|]. split; [exact Hgf|].
      split; [lia|]. split; [exact Hlog|]. split; [exact Hm|].
      split; [exact Hqm|]. intros H48.
      rewrite int_log2_exact in Hlog by lia. injection Hlog as Hlog.
      split; [lia|]. rewrite Hqm, <- Hlog.
      pose proof (Z.log2_spec (g fld) ltac:(lia)) as Hspec.
      rewrite Z.pow_succ_r in Hspec by apply Z.log2_nonneg. lia.
    + exfalso. revert Hfld. unfold ff_init. cbn [mbind result_bind bind].
      rewrite int_log2_total by lia. cbn [mbind result_bind bind].
      destruct (build_tables _ _). discriminate.
  - split; [vm_compute; reflexivity|]. split; vm_compute; reflexivity.
Qed.

Lemma ff_init_list_witness :
  exists fld, ff_init (VList [1; 1]%N) = Ok fld /\ g fld = 4 /\ q fld = 2 ^ m fld.
Proof.
  destruct (proj1 (proj2 (proj2 (ff_init_list [1; 1]%N))))
    as (fld & Hfld & Hg & _ & _ & _ & Hq & _);
    [discriminate|vm_compute; reflexivity|].
  exists fld. split; [exact Hfld|]. split; [exact Hg|exact Hq].
Defined.

(** ** Results stay canonical *)

Lemma bind_Ok {A B} (r : result A) (k : A -> result B) (b : B) :
  r ≫= k = Ok b -> exists a, r = Ok a /\ k a = Ok b.
Proof. destruct r as [a|e]; cbn; [eauto|discriminate]. Qed.

Lemma arith_Ok (op : Z -> Z -> Z) (x y : option Z) (n : Z) (r : option Z) :
  (s ← int_binop op x y; r ← pymod s n; Ok (Some r)) = Ok r ->
  exists s, r = Some (s mod n) /\ n <> 0.
Proof.
  intros H. apply bind_Ok in H as (s & _ & H).
  apply bind_Ok in H as (t & Ht & H). injection H as <-.
  unfold pymod in Ht. destruct (Z.eqb_spec n 0) as [?|Hn]; [discriminate|].
  injection Ht as <-. eauto.
Qed.

Lemma ffelt_mul_Ok (a : ffelt) (x : pyval) (r : ffelt) :
  ffelt_mul a x = Ok r -> exists e, r = with_elt a e /\ stored_by a e.
Proof.
  unfold ffelt_mul, stored_by. intros H. apply bind_Ok in H as (e & He & H).
  injection H as <-. exists e. split; [reflexivity|].
  destruct (_ || _); [injection He as <-; tauto|].
  destruct (py_eq_int x 0); [injection He as <-; tauto|].
  destruct (py_eq_int x 1); [injection He as <-; tauto|].
  destruct x; try discriminate.
  destruct (_ =? _); [|discriminate]. apply arith_Ok in He. tauto.
Qed.

Lemma ffelt_truediv_Ok (a : ffelt) (x : pyval) (r : ffelt) :
  ffelt_truediv a x = Ok r -> exists e, r = with_elt a e /\ stored_by a e.
Proof.
  unfold ffelt_truediv, stored_by. intros H. apply bind_Ok in H as (e & He & H).
  injection H as <-. exists e. split; [reflexivity|].
  destruct (py_eq_None x); [discriminate|].
  destruct (bool_decide _); [injection He as <-; tauto|].
  destruct x; try discriminate.
  - apply arith_Ok in He. tauto.
  - destruct (_ =? _); [|discriminate]. apply arith_Ok in He. tauto.
Qed.

Lemma ffelt_pow_Ok (a : ffelt) (x : pyval) (r : ffelt) :
  ffelt_pow a x = Ok r -> exists e, r = with_elt a e /\ stored_by a e.
Proof.
  unfold ffelt_pow, stored_by. intros H. apply bind_Ok in H as (e & He & H).
  injection H as <-. exists e. split; [reflexivity|].
  destruct (bool_decide _); [injection He as <-; tauto|].
  destruct x; try discriminate. apply arith_Ok in He. tauto.
Qed.

Lemma ffelt_add_Ok (a : ffelt) (x : pyval) (r : ffelt) :
  ffelt_add a x = Ok r ->
  exists v e, poly_to_power (f a) !! v = Some e /\ r = with_elt a e.
Proof.
  unfold ffelt_add. intros H. apply bind_Ok in H as (v & _ & H).
  apply bind_Ok in H as (e & He & H). injection H as <-.
  exists v, e. split; [|reflexivity].
  unfold subscript in He. destruct (_ !! v); [now injection He as <-|discriminate].
Qed.

Lemma stored_canonical (a : ffelt) (e : option Z) :
  canonical a -> 0 < elt_q a -> stored_by a e -> canonical (with_elt a e).
Proof.
  intros [Hq Hrange] Hpos [->|[->|(s & -> & Hn)]]; split; cbn; auto.
  pose proof (Z.mod_pos_bound s (elt_q a - 1)). lia.
Qed.

(** X9.  The operators keep elements canonical.  Whatever the right operand,
    when [*], [/], [**], [+] or [-] on a canonical element of a built field
    returns, the result has the same field and [q], and its exponent is
    [None] or lies in [0 .. q-2]. *)
Theorem operators_keep_canonical (gspec : pyval) (a : ffelt) (x : pyval) (r : ffelt) :
  ff_init gspec = Ok (f a) -> canonical a ->
  ffelt_mul a x = Ok r \/ ffelt_truediv a x = Ok r \/ ffelt_pow a x = Ok r \/
  ffelt_add a x = Ok r \/ ffelt_sub a x = Ok r ->
  canonical r /\ f r = f a /\ elt_q r = elt_q a.
Proof.
  intros Hfld Hcan Hop.
  destruct (ff_init_tables _ _ Hfld) as (Hqm & Hm & _).
  assert (Hpos : 0 < elt_q a).
  { destruct Hcan as [-> _]. rewrite Hqm. apply Z.pow_pos_nonneg; lia. }
  assert (Hadd : ffelt_add a x = Ok r -> canonical r /\ f r = f a /\ elt_q r = elt_q a).
  { intros H. apply ffelt_add_Ok in H as (v & e & Hv & ->).
    split; [|split; reflexivity]. destruct Hcan as [Hq _]. split; [exact Hq|].
    cbn. destruct e as [n|]; [|exact I].
    destruct (built_tables_facts _ _ Hfld) as (_ & _ & _ & Hback & _).
    destruct (Hback v n Hv) as [_ Hn]. lia. }
  destruct Hop as [H|[H|[H|[H|H]]]]; try (now apply Hadd).
  - apply ffelt_mul_Ok in H as (e & -> & He).
    split; [now apply stored_canonical|split; reflexivity].
  - apply ffelt_truediv_Ok in H as (e & -> & He).
    split; [now apply stored_canonical|split; reflexivity].
  - apply ffelt_pow_Ok in H as (e & -> & He).
    split; [now apply stored_canonical|split; reflexivity].
Qed.

Lemma elt_of_canonical (fld : ff) (n : Z) :
  2 <= q fld -> canonical (elt_of fld n).
Proof.
  intros Hq. split; [reflexivity|]. cbn.
  pose proof (Z.mod_pos_bound n (q fld - 1)). lia.
Qed.

Lemma operators_keep_canonical_witness :
  exists a r, ffelt2 (VInt 7) (VInt 16) = Ok a /\
    ffelt_pow a (VInt (-3)) = Ok r /\ canonical r.
Proof.
  destruct gf16_elements as (fld & Hfld & Hq & _ & _ & Helt & _).
  assert (Hr : ffelt_pow (elt_of fld 7) (VInt (-3))
               = Ok (with_elt (elt_of fld 7) (Some ((7 * -3) mod (q fld - 1))))).
  { apply (pow_nonzero (elt_of fld 7) 7 (-3)); cbn; rewrite Hq; reflexivity || lia. }
  eexists (elt_of fld 7), _. split; [apply Helt|]. split; [exact Hr|].
  apply (operators_keep_canonical (VInt 16) (elt_of fld 7) (VInt (-3))).
  - exact Hfld.
  - apply elt_of_canonical. lia.
  - right. right. left. exact Hr.
Defined.

(** ** The constructor *)

(** X10.  [ffelt(n, fld)] stores [n % (q-1)]: the element is canonical, and
    exponents that differ by a multiple of [q-1] (negative ones too) build
    the same element.  In the one-element field [q == 1] (the specifier
    [[0]]) every int exponent raises [ZeroDivisionError] and only the zero
    element can be built. *)
Theorem constructor_reduces_exponent (gspec : pyval) (fld : ff) (n k : Z) :
  ff_init gspec = Ok fld ->
  (q fld = 1 ->
     ffelt2 (VInt n) (VField fld) = Err ZeroDivisionError /\
     ffelt2 VNone (VField fld) = Ok (zero_of fld)) /\
  (q fld <> 1 ->
     exists e, ffelt2 (VInt n) (VField fld) = Ok e /\ canonical e /\
       f e = fld /\ elt e = Some (n mod (q fld - 1)) /\
       ffelt2 (VInt (n + k * (q fld - 1))) (VField fld) = Ok e).
Proof.
  intros Hfld. destruct (ff_init_tables _ _ Hfld) as (Hqm & Hm & _).
  assert (Hpos : 0 < q fld) by (rewrite Hqm; apply Z.pow_pos_nonneg; lia).
  split.
  - intros Hq1. split; [|reflexivity].
    unfold ffelt2, ffelt_init, field_arg, pymod. cbv beta iota. cbn.
    now rewrite Hq1.
  - intros Hq1. exists (elt_of fld n). rewrite !ffelt2_int by exact Hq1.
    split; [reflexivity|]. split; [apply elt_of_canonical; lia|].
    split; [reflexivity|]. split; [reflexivity|].
    unfold elt_of. now rewrite Z.mod_add by lia.
Qed.

Lemma constructor_reduces_exponent_witness :
  (exists fld, ff_init (VList [0]%N) = Ok fld /\
     ffelt2 (VInt 5) (VField fld) = Err ZeroDivisionError) /\
  (exists fld e, ff_init (VInt 16) = Ok fld /\
     ffelt2 (VInt (-1)) (VField fld) = Ok e /\ elt e = Some 14).
Proof.
  split.
  - destruct (holds_on_elim (ff_init (VList [0]%N)) (fun t => q t =? 1))
      as (fld & Hfld & Hq); [vm_compute; reflexivity|].
    apply Z.eqb_eq in Hq. exists fld. split; [exact Hfld|].
    apply (constructor_reduces_exponent (VList [0]%N) fld 5 0 Hfld). exact Hq.
  - destruct gf16_elements as (fld & Hfld & Hq & _).
    destruct (constructor_reduces_exponent (VInt 16) fld (-1) 0 Hfld)
      as [_ Hbuild].
    destruct Hbuild as (e & He & _ & _ & Helt & _); [lia|].
    exists fld, e. split; [exact Hfld|]. split; [exact He|].
    rewrite Helt, Hq. reflexivity.
Defined.

(** ** Addition *)

(** [a + b] for two elements of one [ff] object and one size: three
    subscripts, whichever branch of [__add__] is taken. *)
Lemma ffelt_add_same_field (a b : ffelt) :
  f b = f a -> elt_q b = elt_q a ->
  ffelt_add a (VElt b) =
    x ← subscript (power_to_poly (f a)) (elt a);
    y ← subscript (power_to_poly (f a)) (elt b);
    e ← subscript (poly_to_power (f a)) (Z.lxor x y);
    Ok (with_elt a e).
Proof.
  intros Hf Hq. unfold ffelt_add, py_eq_int, elt_eq_int. cbn.
  destruct (bool_decide (elt b = Some 0)) eqn:Hb; cbn.
  - apply bool_decide_eq_true in Hb. rewrite Hb.
    destruct (subscript _ (elt a)); cbn; [|reflexivity].
    destruct (subscript _ (Some 0)); reflexivity.
  - rewrite (proj2 (Z.eqb_eq _ _) Hq), Hf.
    destruct (subscript _ (elt a)); cbn; [|reflexivity].
    destruct (subscript _ (elt b)); reflexivity.
Qed.

(** X11.  Addition is commutative on elements of one [ff] object: [a + b]
    and [b + a] store the same exponent, and when one raises (a [KeyError]
    from a table of a non-primitive polynomial) the other raises the same;
    [-] is the same operation as [+]. *)
Theorem add_commutes (a b : ffelt) :
  f b = f a -> elt_q b = elt_q a ->
  (forall r, ffelt_add a (VElt b) = Ok r ->
     ffelt_add b (VElt a) = Ok (with_elt b (elt r))) /\
  (forall e, ffelt_add a (VElt b) = Err e -> ffelt_add b (VElt a) = Err e) /\
  ffelt_sub a (VElt b) = ffelt_add a (VElt b).
Proof.
  intros Hf Hq. unfold ffelt_sub. rewrite (ffelt_add_same_field a b Hf Hq).
  rewrite (ffelt_add_same_field b a) by congruence. rewrite Hf.
  split; [|split; [|reflexivity]].
  - intros r Hr.
    destruct (subscript (power_to_poly (f a)) (elt a)) as [x|?]; [|discriminate].
    destruct (subscript (power_to_poly (f a)) (elt b)) as [y|?]; [|discriminate].
    cbn in *. rewrite (Z.lxor_comm y x).
    destruct (subscript (poly_to_power (f a)) (Z.lxor x y)) as [e|?];
      [|discriminate].
    cbn in *. now injection Hr as <-.
  - intros e He. unfold subscript in *.
    destruct (power_to_poly (f a) !! elt a) as [x|];
      destruct (power_to_poly (f a) !! elt b) as [y|]; cbn in *;
      try exact He; try (injection He as <-; reflexivity).
    rewrite (Z.lxor_comm y x).
    destruct (poly_to_power (f a) !! Z.lxor x y); [discriminate|exact He].
Qed.

Lemma add_commutes_witness :
  exists a b r, ffelt2 (VInt 3) (VInt 16) = Ok a /\
    ffelt2 (VInt 9) (VInt 16) = Ok b /\
    ffelt_add a (VElt b) = Ok r /\
    ffelt_add b (VElt a) = Ok (with_elt b (elt r)).
Proof.
  destruct (holds_on_elim (ffelt2 (VInt 3) (VInt 16))
    (fun a => holds_on (ffelt2 (VInt 9) (VInt 16))
      (fun b => bool_decide (f b = f a) && (elt_q b =? elt_q a) &&
                holds_on (ffelt_add a (VElt b)) (fun _ => true))))
    as (a & Ha & Hc); [vm_compute; reflexivity|].
  apply holds_on_elim in Hc as (b & Hb & Hc).
  rewrite !andb_true_iff, bool_decide_eq_true, Z.eqb_eq in Hc.
  destruct Hc as [[Hf Hq] Hsum]. apply holds_on_elim in Hsum as (r & Hr & _).
  exists a, b, r. split; [exact Ha|]. split; [exact Hb|]. split; [exact Hr|].
  now apply (add_commutes a b Hf Hq).
Defined.

(** * Field laws in the catalog fields *)

Lemma catalog_field_ok (qv : Z) :
  In qv catalog -> holds_on (ff_init (VInt qv)) field_ok = true.
Proof. intros Hin. each_catalog_order Hin; vm_cast_no_check (eq_refl true). Qed.

Lemma in_exponents (t : ff) (e : option Z) :
  In e (exponents t) <->
  match e with
  | None => True
  | Some n => 0 <= n <= q t - 2
  end.
Proof.
  unfold exponents. cbn. rewrite in_map_iff. destruct e as [n|].
  - split.
    + intros [[=]|(k & [= <-] & Hk)]. apply in_zrange in Hk. lia.
    + intros Hn. right. exists n. split; [reflexivity|]. apply in_zrange. lia.
  - tauto.
Qed.

Section FieldLaws.

Variable gspec : pyval.
Variable t : ff.
Hypothesis Hbuilt : ff_init gspec = Ok t.
Hypothesis Hok : field_ok t = true.
Hypothesis Hq : 4 <= q t.

Lemma field_ok_tables : tables_inverse t.
Proof.
  unfold field_ok in Hok. rewrite !andb_true_iff in Hok.
  apply tables_ok_sound. tauto.
Qed.

Lemma total_poly_to_power (v : Z) :
  0 <= v < q t -> poly_to_power t !! v = Some (exponent_of t v).
Proof.
  intros Hv. unfold field_ok, check_total in Hok.
  rewrite !andb_true_iff, forallb_forall in Hok.
  destruct Hok as [[_ Htot] _]. specialize (Htot v).
  rewrite bool_decide_eq_true in Htot.
  destruct Htot as [e He]; [apply in_zrange; lia|].
  unfold exponent_of. now rewrite He.
Qed.

Lemma pattern_of_canonical (e : option Z) :
  In e (exponents t) ->
  power_to_poly t !! e = Some (pattern_of t e) /\
  poly_to_power t !! pattern_of t e = Some e /\
  0 <= pattern_of t e < q t.
Proof.
  intros He. apply in_exponents in He. unfold pattern_of.
  assert (Hp : exists v, power_to_poly t !! e = Some v /\
                         poly_to_power t !! v = Some e).
  { destruct e as [n|].
    - apply (ti_powers t field_ok_tables n He).
    - exists 0. split; [apply (ti_zero_key t field_ok_tables)|].
      apply (ti_zero_poly t field_ok_tables). }
  destruct Hp as (v & Hv & Hback). rewrite Hv. cbn.
  split; [reflexivity|]. split; [exact Hback|].
  now apply (proj1 (built_patterns_bound gspec t Hbuilt) e v).
Qed.

Lemma exponent_of_pattern (e : option Z) :
  In e (exponents t) -> exponent_of t (pattern_of t e) = e.
Proof.
  intros He. unfold exponent_of at 1.
  now rewrite (proj1 (proj2 (pattern_of_canonical e He))).
Qed.

Lemma exponent_of_canonical (v : Z) :
  0 <= v < q t ->
  In (exponent_of t v) (exponents t) /\ pattern_of t (exponent_of t v) = v.
Proof.
  intros Hv. pose proof (total_poly_to_power v Hv) as Hlook.
  destruct (exponent_of t v) as [n|] eqn:He.
  - destruct (built_tables_facts gspec t Hbuilt) as (_ & _ & _ & Hback & _).
    destruct (Hback v n Hlook) as [Hp Hn].
    split; [now apply in_exponents|]. unfold pattern_of. now rewrite Hp.
  - split; [now apply in_exponents|].
    destruct (built_tables_facts gspec t Hbuilt) as (_ & _ & _ & _ & Hzero).
    rewrite (Hzero v Hlook). unfold pattern_of.
    now rewrite (ti_zero_key t field_ok_tables).
Qed.

Lemma lxor_patterns (ea eb : option Z) :
  In ea (exponents t) -> In eb (exponents t) ->
  0 <= Z.lxor (pattern_of t ea) (pattern_of t eb) < q t.
Proof.
  intros Ha Hb.
  destruct (ff_init_tables gspec t Hbuilt) as (Hqm & Hm & _).
  destruct (pattern_of_canonical ea Ha) as (_ & _ & Hra).
  destruct (pattern_of_canonical eb Hb) as (_ & _ & Hrb).
  assert (Hm1 : 1 <= m t).
  { destruct (Z.eq_dec (m t) 0) as [H0|?]; [|lia].
    rewrite H0 in Hqm. cbn in Hqm. lia. }
  rewrite Hqm in *. now apply lxor_below_pow2.
Qed.

Lemma add_exponents_canonical (ea eb : option Z) :
  In ea (exponents t) -> In eb (exponents t) ->
  In (add_exponents t ea eb) (exponents t).
Proof.
  intros Ha Hb. apply exponent_of_canonical. now apply lxor_patterns.
Qed.

Lemma mul_exponents_canonical (ea eb : option Z) :
  In (mul_exponents (q t) ea eb) (exponents t).
Proof.
  apply in_exponents. destruct ea as [x|], eb as [y|]; cbn; auto.
  pose proof (Z.mod_pos_bound (x + y) (q t - 1)). lia.
Qed.

Lemma add_exponents_assoc (ea eb ec : option Z) :
  In ea (exponents t) -> In eb (exponents t) -> In ec (exponents t) ->
  add_exponents t (add_exponents t ea eb) ec
  = add_exponents t ea (add_exponents t eb ec).
Proof.
  intros Ha Hb Hc. unfold add_exponents.
  rewrite (proj2 (exponent_of_canonical _ (lxor_patterns ea eb Ha Hb))).
  rewrite (proj2 (exponent_of_canonical _ (lxor_patterns eb ec Hb Hc))).
  now rewrite Z.lxor_assoc.
Qed.

(** [a + b] and [a * b] on canonical elements of the field, read on their
    exponents. *)
Lemma ffelt_add_exponents (a b : ffelt) :
  f a = t -> f b = t -> elt_q b = elt_q a ->
  In (elt a) (exponents t) -> In (elt b) (exponents t) ->
  ffelt_add a (VElt b) = Ok (with_elt a (add_exponents t (elt a) (elt b))).
Proof.
  intros Hfa Hfb Hqab Ha Hb.
  rewrite ffelt_add_same_field by congruence. rewrite Hfa. unfold subscript.
  rewrite (proj1 (pattern_of_canonical _ Ha)),
          (proj1 (pattern_of_canonical _ Hb)). cbn.
  now rewrite (total_poly_to_power _ (lxor_patterns _ _ Ha Hb)).
Qed.

Lemma ffelt_mul_exponents (a b : ffelt) :
  elt_q a = q t -> elt_q b = q t ->
  In (elt a) (exponents t) ->
  ffelt_mul a (VElt b) = Ok (with_elt a (mul_exponents (q t) (elt a) (elt b))).
Proof.
  intros Hqa Hqb Ha. apply in_exponents in Ha.
  destruct (elt a) as [x|] eqn:Hea.
  - destruct (elt b) as [y|] eqn:Heb.
    + rewrite (mul_nonzero a b x y) by (try assumption; lia).
      cbn. now rewrite Hqa.
    + now rewrite mul_zero_element.
  - unfold ffelt_mul, py_eq_None. cbn. rewrite Hea. reflexivity.
Qed.

Lemma mul_exponents_succ (k : Z) (e : option Z) :
  mul_exponents (q t) (Some (k + 1)) e
  = mul_exponents (q t) (Some 1) (mul_exponents (q t) (Some k) e).
Proof.
  destruct e as [y|]; cbn; [|reflexivity].
  rewrite Zplus_mod_idemp_r. do 2 f_equal. ring.
Qed.

Lemma alpha_linear (eb ec : option Z) :
  In eb (exponents t) -> In ec (exponents t) ->
  mul_exponents (q t) (Some 1) (add_exponents t eb ec)
  = add_exponents t (mul_exponents (q t) (Some 1) eb)
                    (mul_exponents (q t) (Some 1) ec).
Proof.
  intros Hb Hc. unfold field_ok, check_alpha_linear in Hok.
  rewrite !andb_true_iff, forallb_forall in Hok. destruct Hok as [_ Hlin].
  specialize (Hlin eb Hb). rewrite forallb_forall in Hlin.
  specialize (Hlin ec Hc). now apply bool_decide_eq_true in Hlin.
Qed.

Lemma mul_distributes_nat (k : nat) (eb ec : option Z) :
  In eb (exponents t) -> In ec (exponents t) ->
  mul_exponents (q t) (Some (Z.of_nat k)) (add_exponents t eb ec)
  = add_exponents t (mul_exponents (q t) (Some (Z.of_nat k)) eb)
                    (mul_exponents (q t) (Some (Z.of_nat k)) ec).
Proof.
  intros Hb Hc. induction k as [|k IH].
  - assert (Hid : forall e, In e (exponents t) ->
                            mul_exponents (q t) (Some (Z.of_nat 0)) e = e).
    { intros e He. apply in_exponents in He. destruct e as [y|]; cbn; [|reflexivity].
      now rewrite Z.mod_small by lia. }
    rewrite !Hid; auto using add_exponents_canonical.
  - rewrite Nat2Z.inj_succ, <- Z.add_1_r, !mul_exponents_succ, IH.
    apply alpha_linear; apply mul_exponents_canonical.
Qed.

Lemma mul_distributes (ea eb ec : option Z) :
  In ea (exponents t) -> In eb (exponents t) -> In ec (exponents t) ->
  mul_exponents (q t) ea (add_exponents t eb ec)
  = add_exponents t (mul_exponents (q t) ea eb) (mul_exponents (q t) ea ec).
Proof.
  intros Ha Hb Hc. destruct ea as [x|].
  - apply in_exponents in Ha. rewrite <- (Z2Nat.id x) by lia.
    now apply mul_distributes_nat.
  - change (mul_exponents (q t) None ?e) with (@None Z).
    unfold add_exponents, pattern_of.
    rewrite (ti_zero_key t field_ok_tables).
    change (Z.lxor (default 0 (Some 0)) (default 0 (Some 0))) with 0.
    unfold exponent_of. now rewrite (ti_zero_poly t field_ok_tables).
Qed.

End FieldLaws.

(** The elements of a catalog field. *)
Lemma catalog_field (qv : Z) :
  In qv catalog ->
  exists fld, ff_init (VInt qv) = Ok fld /\ field_ok fld = true /\
              4 <= q fld /\
              forall x, exponent_arg x ->
                exists e, ffelt2 x (VInt qv) = Ok e /\ f e = fld /\
                          elt_q e = q fld /\ In (elt e) (exponents fld).
Proof.
  intros Hin. pose proof (catalog_field_ok qv Hin) as Hok.
  destruct (catalog_tables_ok qv Hin) as (fld & Hfld & Hqv & _ & _).
  rewrite Hfld in Hok. cbn in Hok.
  assert (Hq4 : 4 <= q fld).
  { rewrite Hqv. clear -Hin. each_catalog_order Hin; lia. }
  exists fld. repeat (split; [assumption|]).
  intros x Hx. rewrite ffelt2_catalog, Hfld by exact Hin.
  cbn [mbind result_bind bind]. destruct Hx as [->|[n ->]].
  - exists (zero_of fld). repeat split. now apply in_exponents.
  - exists (elt_of fld n). rewrite ffelt2_int by lia. repeat split.
    apply in_exponents. cbn. pose proof (Z.mod_pos_bound n (q fld - 1)). lia.
Qed.

(** X12.  In each catalog field addition never fails and is associative: for
    all elements [a], [b], [c] built by the constructor, [a + b], [b + c],
    [(a + b) + c] and [a + (b + c)] return, and the last two are the same
    element. *)
Theorem add_associative (qv : Z) (x y z : pyval) :
  In qv catalog -> exponent_arg x -> exponent_arg y -> exponent_arg z ->
  exists a b c ab bc l,
    ffelt2 x (VInt qv) = Ok a /\ ffelt2 y (VInt qv) = Ok b /\
    ffelt2 z (VInt qv) = Ok c /\
    ffelt_add a (VElt b) = Ok ab /\ ffelt_add b (VElt c) = Ok bc /\
    ffelt_add ab (VElt c) = Ok l /\ ffelt_add a (VElt bc) = Ok l.
Proof.
  intros Hin Hx Hy Hz.
  destruct (catalog_field qv Hin) as (fld & Hfld & Hok & Hq4 & Helts).
  destruct (Helts x Hx) as (a & Ha & Hfa & Hqa & Hea).
  destruct (Helts y Hy) as (b & Hb & Hfb & Hqb & Heb).
  destruct (Helts z Hz) as (c & Hc & Hfc & Hqc & Hec).
  pose proof (add_exponents_canonical (VInt qv) fld Hfld Hok Hq4) as Hcan.
  exists a, b, c, (with_elt a (add_exponents fld (elt a) (elt b))),
    (with_elt b (add_exponents fld (elt b) (elt c))),
    (with_elt a (add_exponents fld (elt a)
                   (add_exponents fld (elt b) (elt c)))).
  repeat (split; [assumption|]).
  split; [apply (ffelt_add_exponents (VInt qv) fld); auto; congruence|].
  split; [apply (ffelt_add_exponents (VInt qv) fld); auto; congruence|].
  assert (Hqca : elt_q c = elt_q a) by congruence.
  assert (Hqba : elt_q b = elt_q a) by congruence.
  split.
  - rewrite (ffelt_add_exponents (VInt qv) fld Hfld Hok Hq4 (with_elt a _) c
               Hfa Hfc Hqca (Hcan _ _ Hea Heb) Hec).
    unfold with_elt. cbn [f elt_q elt].
    now rewrite (add_exponents_assoc (VInt qv) fld).
  - exact (ffelt_add_exponents (VInt qv) fld Hfld Hok Hq4 a (with_elt b _)
             Hfa Hfb Hqba Hea (Hcan _ _ Heb Hec)).
Qed.

Lemma add_associative_witness :
  exists a b c ab bc l,
    ffelt2 (VInt 3) (VInt 16) = Ok a /\ ffelt2 VNone (VInt 16) = Ok b /\
    ffelt2 (VInt 9) (VInt 16) = Ok c /\
    ffelt_add a (VElt b) = Ok ab /\ ffelt_add b (VElt c) = Ok bc /\
    ffelt_add ab (VElt c) = Ok l /\ ffelt_add a (VElt bc) = Ok l.
Proof.
  apply (add_associative 16 (VInt 3) VNone (VInt 9)).
  - unfold catalog. simpl. tauto.
  - right. eauto.
  - left. reflexivity.
  - right. eauto.
Defined.

(** X13.  In each catalog field multiplication distributes over addition:
    for all elements [a], [b], [c] built by the constructor,
    [a * (b + c)] and [a * b + a * c] return and are the same element. *)
Theorem mul_distributes_over_add (qv : Z) (x y z : pyval) :
  In qv catalog -> exponent_arg x -> exponent_arg y -> exponent_arg z ->
  exists a b c s pb pc l,
    ffelt2 x (VInt qv) = Ok a /\ ffelt2 y (VInt qv) = Ok b /\
    ffelt2 z (VInt qv) = Ok c /\
    ffelt_add b (VElt c) = Ok s /\ ffelt_mul a (VElt s) = Ok l /\
    ffelt_mul a (VElt b) = Ok pb /\ ffelt_mul a (VElt c) = Ok pc /\
    ffelt_add pb (VElt pc) = Ok l.
Proof.
  intros Hin Hx Hy Hz.
  destruct (catalog_field qv Hin) as (fld & Hfld & Hok & Hq4 & Helts).
  destruct (Helts x Hx) as (a & Ha & Hfa & Hqa & Hea).
  destruct (Helts y Hy) as (b & Hb & Hfb & Hqb & Heb).
  destruct (Helts z Hz) as (c & Hc & Hfc & Hqc & Hec).
  exists a, b, c, (with_elt b (add_exponents fld (elt b) (elt c))),
    (with_elt a (mul_exponents (q fld) (elt a) (elt b))),
    (with_elt a (mul_exponents (q fld) (elt a) (elt c))),
    (with_elt a (mul_exponents (q fld) (elt a)
                   (add_exponents fld (elt b) (elt c)))).
  repeat (split; [assumption|]).
  split; [apply (ffelt_add_exponents (VInt qv) fld); auto; congruence|].
  split; [apply (ffelt_mul_exponents fld); auto|].
  split; [apply (ffelt_mul_exponents fld); auto|].
  split; [apply (ffelt_mul_exponents fld); auto|].
  rewrite (ffelt_add_exponents (VInt qv) fld Hfld Hok Hq4
             (with_elt a (mul_exponents (q fld) (elt a) (elt b)))
             (with_elt a (mul_exponents (q fld) (elt a) (elt c)))
             Hfa Hfa eq_refl
             (mul_exponents_canonical fld Hq4 (elt a) (elt b))
             (mul_exponents_canonical fld Hq4 (elt a) (elt c))).
  unfold with_elt. cbn [f elt_q elt].
  now rewrite (mul_distributes (VInt qv) fld).
Qed.

Lemma mul_distributes_over_add_witness :
  exists a b c s pb pc l,
    ffelt2 (VInt 3) (VInt 16) = Ok a /\ ffelt2 (VInt 0) (VInt 16) = Ok b /\
    ffelt2 (VInt 9) (VInt 16) = Ok c /\
    ffelt_add b (VElt c) = Ok s /\ ffelt_mul a (VElt s) = Ok l /\
    ffelt_mul a (VElt b) = Ok pb /\ ffelt_mul a (VElt c) = Ok pc /\
    ffelt_add pb (VElt pc) = Ok l.
Proof.
  apply (mul_distributes_over_add 16 (VInt 3) (VInt 0) (VInt 9)).
  - unfold catalog. simpl. tauto.
  - right. eauto.
  - right. eauto.
  - right. eauto.
Defined.

(** * Vectors of bits *)

Lemma bits_value_acc (l : list Z) (acc : Z) :
  fold_left (fun acc b => 2 * acc + b) l acc
  = acc * 2 ^ Z.of_nat (length l) + bits_value l.
Proof.
  unfold bits_value. revert acc. induction l as [|b l IH]; intros acc.
  - cbn. lia.
  - cbn [fold_left length]. rewrite IH, (IH (2 * 0 + b)).
    rewrite Nat2Z.inj_succ, Z.pow_succ_r by lia. ring.
Qed.

Lemma bits_value_app (l1 l2 : list Z) :
  bits_value (l1 ++ l2)
  = bits_value l1 * 2 ^ Z.of_nat (length l2) + bits_value l2.
Proof.
  unfold bits_value at 1. rewrite fold_left_app.
  fold (bits_value l1). apply bits_value_acc.
Qed.

Lemma bits_value_zeros (k : nat) : bits_value (repeat 0 k) = 0.
Proof.
  induction k as [|k IH]; [reflexivity|].
  change (repeat 0 (S k)) with ([0] ++ repeat 0 k).
  rewrite bits_value_app, IH. reflexivity.
Qed.

Lemma pos_bits_spec (p : positive) :
  bits_value (rev (pos_bits_lsb p)) = Z.pos p /\
  Forall (fun b => b = 0 \/ b = 1) (pos_bits_lsb p) /\
  (1 <= length (pos_bits_lsb p))%nat /\
  2 ^ (Z.of_nat (length (pos_bits_lsb p)) - 1) <= Z.pos p.
Proof.
  induction p as [p (IHv & IHb & IHl & IHp)|p (IHv & IHb & IHl & IHp)|].
  - cbn [pos_bits_lsb rev length]. rewrite bits_value_app, IHv.
    split; [cbn; lia|]. split; [constructor; auto|]. split; [lia|].
    replace (Z.of_nat (S (length (pos_bits_lsb p))) - 1)
      with (Z.succ (Z.of_nat (length (pos_bits_lsb p)) - 1)) by lia.
    rewrite Z.pow_succ_r by lia. lia.
  - cbn [pos_bits_lsb rev length]. rewrite bits_value_app, IHv.
    split; [cbn; lia|]. split; [constructor; auto|]. split; [lia|].
    replace (Z.of_nat (S (length (pos_bits_lsb p))) - 1)
      with (Z.succ (Z.of_nat (length (pos_bits_lsb p)) - 1)) by lia.
    rewrite Z.pow_succ_r by lia. lia.
  - cbn. repeat split; auto. lia.
Qed.

Lemma binary_repr_spec (n : N) :
  bits_value (binary_repr n) = Z.of_N n /\
  Forall (fun b => b = 0 \/ b = 1) (binary_repr n) /\
  (1 <= length (binary_repr n))%nat /\
  forall w, (1 <= w)%nat -> Z.of_N n < 2 ^ Z.of_nat w ->
            (length (binary_repr n) <= w)%nat.
Proof.
  destruct n as [|p]; cbn [binary_repr].
  - split; [reflexivity|]. split; [constructor; auto|]. cbn. split; lia.
  - destruct (pos_bits_spec p) as (Hv & Hb & Hl & Hp).
    rewrite length_rev. split; [exact Hv|].
    split; [now apply List.Forall_rev|].
    split; [exact Hl|]. intros w Hw Hlt. cbn in Hlt.
    assert (Hpow : 2 ^ (Z.of_nat (length (pos_bits_lsb p)) - 1) < 2 ^ Z.of_nat w)
      by lia.
    apply Z.pow_lt_mono_r_iff in Hpow; lia.
Qed.

Lemma bin_array_facts (num : N) (mw : nat) :
  bits_value (bin_array num mw) = Z.of_N num /\
  Forall (fun b => b = 0 \/ b = 1) (bin_array num mw) /\
  length (bin_array num mw) = Nat.max mw (length (binary_repr num)) /\
  ((1 <= mw)%nat -> Z.of_N num < 2 ^ Z.of_nat mw ->
   length (bin_array num mw) = mw).
Proof.
  destruct (binary_repr_spec num) as (Hv & Hb & Hl & Hw).
  unfold bin_array, zfill.
  split; [now rewrite bits_value_app, bits_value_zeros, Hv|].
  split.
  { apply Forall_app. split; [|exact Hb].
    apply List.Forall_forall. intros b Hin. apply repeat_spec in Hin. auto. }
  rewrite length_app, repeat_length. split; [lia|].
  intros H1 Hlt. specialize (Hw mw H1 Hlt). lia.
Qed.

(** X14.  [bin_array(num, m)] writes [num] in binary, most significant bit
    first: its entries are 0 and 1 and spell [num]; it is padded with zeros
    to [m] entries but never cut, so it has exactly [m] entries when
    [num < 2**m] (with [m >= 1]) and more when [num] needs more bits. *)
Theorem bin_array_spells (num : N) (mw : nat) :
  bits_value (bin_array num mw) = Z.of_N num /\
  Forall (fun b => b = 0 \/ b = 1) (bin_array num mw) /\
  length (bin_array num mw) = Nat.max mw (length (binary_repr num)) /\
  ((1 <= mw)%nat -> Z.of_N num < 2 ^ Z.of_nat mw ->
   length (bin_array num mw) = mw).
Proof. exact (bin_array_facts num mw). Qed.

Lemma bin_array_spells_witness :
  length (bin_array 5 4) = 4%nat /\ bits_value (bin_array 5 4) = 5.
Proof.
  destruct (bin_array_spells 5 4) as (Hv & _ & _ & Hlen).
  split; [apply Hlen; [lia|reflexivity]|exact Hv].
Defined.

Lemma ffelt_vec_spec (gspec : pyval) (e : ffelt) :
  ff_init gspec = Ok (f e) -> canonical e -> 1 <= m (f e) ->
  exists v, power_to_poly (f e) !! elt e = Some v /\ 0 <= v < q (f e) /\
    ffelt_vec e = Ok (bin_array (Z.to_N v) (Z.to_nat (m (f e)))) /\
    length (bin_array (Z.to_N v) (Z.to_nat (m (f e)))) = Z.to_nat (m (f e)) /\
    bits_value (bin_array (Z.to_N v) (Z.to_nat (m (f e)))) = v.
Proof.
  intros Hfld [Hq Hrange] Hm.
  destruct (ff_init_tables _ _ Hfld) as (Hqm & _).
  destruct (built_tables_facts _ _ Hfld) as (Hnone & Hkeys & _).
  assert (Hkey : exists v, power_to_poly (f e) !! elt e = Some v).
  { destruct (elt e) as [n|]; [|eauto].
    apply Hkeys. lia. }
  destruct Hkey as (v & Hv).
  pose proof (proj1 (built_patterns_bound _ _ Hfld) _ _ Hv) as Hbound.
  exists v. split; [exact Hv|]. split; [exact Hbound|].
  split; [unfold ffelt_vec, subscript; now rewrite Hv|].
  destruct (bin_array_facts (Z.to_N v) (Z.to_nat (m (f e))))
    as (Hval & _ & _ & Hlen).
  split.
  - apply Hlen; [lia|]. rewrite Z2N.id, Z2Nat.id, <- Hqm by lia. lia.
  - rewrite Hval. apply Z2N.id. lia.
Qed.

(** X15.  [vec] of a canonical element of any built field with [m >= 1]
    never fails: it returns exactly [m] bits, most significant first, that
    spell [power_to_poly[elt]]; the vector of the zero element is all
    zeros. *)
Theorem vec_has_m_bits (gspec : pyval) (e : ffelt) :
  ff_init gspec = Ok (f e) -> canonical e -> 1 <= m (f e) ->
  exists l, ffelt_vec e = Ok l /\ length l = Z.to_nat (m (f e)) /\
    Forall (fun b => b = 0 \/ b = 1) l /\
    subscript (power_to_poly (f e)) (elt e) = Ok (bits_value l) /\
    (elt e = None -> l = repeat 0 (Z.to_nat (m (f e)))).
Proof.
  intros Hfld Hcan Hm.
  destruct (ffelt_vec_spec gspec e Hfld Hcan Hm)
    as (v & Hv & Hbound & Hvec & Hlen & Hval).
  eexists. split; [exact Hvec|]. split; [exact Hlen|].
  split; [apply bin_array_facts|].
  split; [unfold subscript; now rewrite Hv, Hval|].
  intros Hz. rewrite Hz in Hv.
  destruct (built_tables_facts _ _ Hfld) as (Hnone & _).
  rewrite Hnone in Hv. injection Hv as <-.
  unfold bin_array, zfill. cbn [Z.to_N binary_repr length].
  destruct (Z.to_nat (m (f e))) as [|k] eqn:Hk; [lia|].
  replace (S k - 1)%nat with k by lia.
  change [0] with (repeat 0 1). rewrite <- repeat_app.
  f_equal. lia.
Qed.

Lemma vec_has_m_bits_witness :
  exists e l, ffelt2 (VInt 4) (VInt 16) = Ok e /\ ffelt_vec e = Ok l /\
    length l = 4%nat /\ bits_value l = 3.
Proof.
  destruct gf16_elements as (fld & Hfld & Hq & Hm & Hti & Helt & _).
  destruct (vec_has_m_bits (VInt 16) (elt_of fld 4) Hfld)
    as (l & Hl & Hlen & _ & Hval & _).
  { apply elt_of_canonical. lia. }
  { cbn. lia. }
  exists (elt_of fld 4), l. split; [apply Helt|]. split; [exact Hl|].
  split; [cbn in Hlen; rewrite Hm in Hlen; exact Hlen|].
  destruct (holds_on_elim (ff_init (VInt 16))
    (fun t => bool_decide (power_to_poly t !! Some 4 = Some 3)))
    as (t & Ht & Hp); [vm_compute; reflexivity|].
  rewrite Hfld in Ht. injection Ht as <-. apply bool_decide_eq_true in Hp.
  unfold subscript in Hval. cbn in Hval. rewrite Hq in Hval.
  change (4 mod (16 - 1)) with 4 in Hval. rewrite Hp in Hval.
  now injection Hval.
Defined.

(** * More on minimal polynomials *)

Lemma catalog_minpoly_laws (qv : Z) :
  In qv catalog -> holds_on (ff_init (VInt qv)) (field_minpoly_laws 8) = true.
Proof. intros Hin. each_catalog_order Hin; vm_cast_no_check (eq_refl true). Qed.

Lemma in_bitlists (l : list Z) :
  Forall (fun b => b = 0 \/ b = 1) l -> In l (bitlists (length l)).
Proof.
  induction 1 as [|b l Hb _ IH]; [now left|].
  cbn [length bitlists]. apply in_or_app.
  destruct Hb as [->| ->]; [left|right]; now apply in_map.
Qed.

Lemma in_lower_candidates (cand : list Z) (deg : nat) :
  head cand = Some 1 -> Forall (fun b => b = 0 \/ b = 1) cand ->
  (length cand <= deg)%nat -> In cand (lower_candidates deg).
Proof.
  intros Hhd Hbits Hlen. destruct cand as [|b l]; [discriminate|].
  injection Hhd as ->. apply Forall_inv_tail in Hbits.
  unfold lower_candidates. apply in_flat_map. exists (length l). split.
  - apply in_seq. cbn in Hlen. lia.
  - apply in_map. now apply in_bitlists.
Qed.

(** The checks of one element of a catalog field. *)
Lemma catalog_minpoly_laws_at (qv n : Z) :
  In qv catalog ->
  exists fld, ff_init (VInt qv) = Ok fld /\
    ffelt2 (VInt n) (VInt qv) = Ok (elt_of fld n) /\
    check_minimal 8 (elt_of fld n) = true /\
    check_square 8 (elt_of fld n) = true.
Proof.
  intros Hin. pose proof (catalog_minpoly_laws qv Hin) as Hchk.
  destruct (catalog_tables_ok qv Hin) as (fld & Hfld & Hq & _ & _).
  rewrite Hfld in Hchk. cbn [holds_on] in Hchk.
  assert (Hq4 : 4 <= q fld).
  { rewrite Hq. clear -Hin. each_catalog_order Hin; lia. }
  unfold field_minpoly_laws in Hchk. rewrite forallb_forall in Hchk.
  specialize (Hchk (n mod (q fld - 1))).
  rewrite ffelt2_int, elt_of_mod in Hchk by lia. cbn [holds_on] in Hchk.
  rewrite andb_true_iff in Hchk.
  exists fld. split; [exact Hfld|]. split.
  - rewrite ffelt2_catalog, Hfld by exact Hin. cbn [mbind result_bind bind].
    apply ffelt2_int. lia.
  - apply Hchk, in_zrange, Z.mod_pos_bound. lia.
Qed.

(** X16.  The polynomial [minpoly] returns is minimal: in each catalog field
    and for every int exponent, no monic 0/1 coefficient vector shorter than
    the returned one evaluates to zero at the element under the evaluation
    loop of [minpoly]. *)
Theorem minpoly_is_minimal (qv n : Z) (cand : list Z) :
  In qv catalog ->
  exists e c, ffelt2 (VInt n) (VInt qv) = Ok e /\
    (forall fuel, (8 <= fuel)%nat -> minpoly fuel e false = Some (Ok c)) /\
    (head cand = Some 1 -> Forall (fun b => b = 0 \/ b = 1) cand ->
     (length cand < length c)%nat ->
     exists r, poly_eval e cand = Ok r /\ elt r <> None).
Proof.
  intros Hin.
  destruct (catalog_minpoly_laws_at qv n Hin) as (fld & _ & He & Hmin & _).
  unfold check_minimal in Hmin.
  destruct (minpoly 8 (elt_of fld n) false) as [[c|?]|] eqn:Hmp; try discriminate.
  exists (elt_of fld n), c. split; [exact He|]. split.
  - intros fuel Hfuel. now apply (minpoly_mono 8 fuel).
  - intros Hhd Hbits Hlen. rewrite forallb_forall in Hmin.
    assert (Hle : (length cand <= length c - 1)%nat) by lia.
    specialize (Hmin cand (in_lower_candidates cand _ Hhd Hbits Hle)).
    apply holds_on_elim in Hmin as (r & Hr & Hnz).
    exists r. split; [exact Hr|].
    apply negb_true_iff, bool_decide_eq_false in Hnz. exact Hnz.
Qed.

Lemma minpoly_is_minimal_witness :
  exists e c r, ffelt2 (VInt 5) (VInt 16) = Ok e /\
    minpoly 8 e false = Some (Ok c) /\
    poly_eval e [1; 1] = Ok r /\ elt r <> None.
Proof.
  destruct (minpoly_is_minimal 16 5 [1; 1])
    as (e & c & He & Hmp & Hlow); [unfold catalog; simpl; tauto|].
  assert (Hc : (2 < length c)%nat).
  { destruct (holds_on_elim (ffelt2 (VInt 5) (VInt 16))
      (fun e => bool_decide (minpoly 8 e false = Some (Ok [1; 1; 1]))))
      as (e' & He' & Hc'); [vm_compute; reflexivity|].
    rewrite He in He'. injection He' as <-. apply bool_decide_eq_true in Hc'.
    rewrite (Hmp 8%nat) in Hc' by lia. injection Hc' as ->. cbn. lia. }
  assert (Hbits : Forall (fun b => b = 0 \/ b = 1) [1; 1]).
  { repeat (constructor; [right; reflexivity|]). constructor. }
  destruct (Hlow eq_refl Hbits Hc) as (r & Hr & Hnz).
  exists e, c, r. split; [exact He|]. split; [apply Hmp; lia|]. split; assumption.
Defined.

(** X17.  Conjugates share their minimal polynomial: in each catalog field
    and for every int exponent, [minpoly] of an element and of its square
    [e ** 2] return the same vector. *)
Theorem square_has_same_minpoly (qv n : Z) :
  In qv catalog ->
  exists e e2 c, ffelt2 (VInt n) (VInt qv) = Ok e /\
    ffelt_pow e (VInt 2) = Ok e2 /\
    forall fuel, (8 <= fuel)%nat ->
      minpoly fuel e false = Some (Ok c) /\ minpoly fuel e2 false = Some (Ok c).
Proof.
  intros Hin.
  destruct (catalog_minpoly_laws_at qv n Hin) as (fld & _ & He & _ & Hsq).
  unfold check_square in Hsq. apply holds_on_elim in Hsq as (e2 & He2 & Hsq).
  destruct (minpoly 8 (elt_of fld n) false) as [[c|?]|] eqn:Hmp; try discriminate.
  apply bool_decide_eq_true in Hsq.
  exists (elt_of fld n), e2, c. split; [exact He|]. split; [exact He2|].
  intros fuel Hfuel. split; now apply (minpoly_mono 8 fuel).
Qed.

Lemma square_has_same_minpoly_witness :
  exists e e2 c, ffelt2 (VInt 3) (VInt 16) = Ok e /\
    ffelt_pow e (VInt 2) = Ok e2 /\
    minpoly 8 e false = Some (Ok c) /\ minpoly 8 e2 false = Some (Ok c).
Proof.
  destruct (square_has_same_minpoly 16 3) as (e & e2 & c & He & He2 & Hmp);
    [unfold catalog; simpl; tauto|].
  exists e, e2, c. split; [exact He|]. split; [exact He2|]. apply Hmp. lia.
Defined.

(** X18.  For each catalog order the minimal polynomial of the primitive
    element, asked for as positions ([minpoly(True)]), is the list of
    exponents [primpolys] holds for that order. *)
Theorem primitive_minpoly_is_primpoly (qv : Z) :
  In qv catalog ->
  exists e l, ffelt2 (VInt 1) (VInt qv) = Ok e /\ elt e = Some 1 /\
    primpolys_get primpolys qv = Some l /\
    forall fuel, (8 <= fuel)%nat ->
      minpoly fuel e true = Some (Ok (map Z.of_N l)).
Proof.
  intros Hin.
  assert (Hchk : check_primitive_minpoly qv = true
                 /\ holds_on (ffelt2 (VInt 1) (VInt qv))
                      (fun e => bool_decide (elt e = Some 1)) = true).
  { each_catalog_order Hin; vm_compute; split; reflexivity. }
  destruct Hchk as [Hchk Hexp]. unfold check_primitive_minpoly in Hchk.
  apply holds_on_elim in Hchk as (e & He & Hc).
  rewrite He in Hexp. cbn in Hexp. apply bool_decide_eq_true in Hexp.
  destruct (primpolys_get primpolys qv) as [l|]; [|discriminate].
  apply bool_decide_eq_true in Hc.
  exists e, l. split; [exact He|]. split; [exact Hexp|]. split; [reflexivity|].
  intros fuel Hfuel. now apply (minpoly_mono 8 fuel).
Qed.

Lemma primitive_minpoly_is_primpoly_witness :
  exists e, ffelt2 (VInt 1) (VInt 256) = Ok e /\
    minpoly 8 e true = Some (Ok [0; 2; 3; 4; 8]).
Proof.
  destruct (primitive_minpoly_is_primpoly 256)
    as (e & l & He & _ & Hl & Hmp); [unfold catalog; simpl; tauto|].
  exists e. split; [exact He|].
  cbn in Hl. injection Hl as <-. apply (Hmp 8%nat). lia.
Defined.

(** * More on conjugates *)

Section Squaring.

Variable qv mv : Z.
Hypothesis Hqm : qv = 2 ^ mv.
Hypothesis Hm : 0 <= mv.

Let d := double qv.

Lemma double_in_range (x : Z) : 2 <= qv -> 0 <= d x <= qv - 2.
Proof.
  intros Hq. unfold d, double. pose proof (Z.mod_pos_bound (x + x) (qv - 1)). lia.
Qed.

(** Doubling is one-to-one on exponents: [m] doublings are the identity. *)
Lemma double_injective (x y : Z) :
  0 <= x <= qv - 2 -> 0 <= y <= qv - 2 -> d x = d y -> x = y.
Proof.
  intros Hx Hy Hxy.
  assert (Hm1 : 1 <= mv).
  { destruct (Z.eq_dec mv 0) as [H0|?]; [|lia]. rewrite H0 in Hqm. cbn in Hqm. lia. }
  rewrite <- (iter_double_m qv mv Hqm Hm x Hx), <- (iter_double_m qv mv Hqm Hm y Hy).
  replace (Z.to_nat mv) with (S (Z.to_nat (mv - 1))) by lia.
  rewrite !Nat.iter_succ_r. fold d. now rewrite Hxy.
Qed.

Lemma iter_double_cancel (i : nat) (x y : Z) :
  0 <= x <= qv - 2 -> 0 <= y <= qv - 2 ->
  Nat.iter i d x = Nat.iter i d y -> x = y.
Proof.
  revert x y. induction i as [|i IH]; intros x y Hx Hy Hxy; [exact Hxy|].
  rewrite !Nat.iter_succ_r in Hxy.
  apply double_injective; try assumption.
  apply IH; try assumption; apply double_in_range; lia.
Qed.

Lemma orbit_exponents_distinct (n : Z) (L i j : nat) :
  0 <= n <= qv - 2 ->
  (forall k, (1 <= k < L)%nat -> Nat.iter k d n <> n) ->
  (i < L)%nat -> (j < L)%nat -> Nat.iter i d n = Nat.iter j d n -> i = j.
Proof.
  intros Hn Hmin.
  assert (Hlt : forall i j, (i < j)%nat -> (j < L)%nat ->
                            Nat.iter i d n <> Nat.iter j d n).
  { clear i j. intros i j Hij Hj Heq.
    replace j with (i + (j - i))%nat in Heq by lia.
    rewrite Nat.iter_add in Heq. apply iter_double_cancel in Heq;
      [|lia|apply (iter_double_range qv mv Hm n Hn)].
    apply (Hmin (j - i)%nat); [lia|]. now symmetry. }
  intros Hi Hj Heq. destruct (Nat.lt_trichotomy i j) as [Hij|[Hij|Hij]].
  - now destruct (Hlt i j Hij Hj).
  - exact Hij.
  - symmetry in Heq. now destruct (Hlt j i Hij Hi).
Qed.

End Squaring.

Lemma lookup_map_seq_from {A} (g : nat -> A) (L s k : nat) :
  (k < L)%nat -> map g (seq s L) !! k = Some (g (s + k)%nat).
Proof.
  revert s k. induction L as [|L IH]; intros s k Hk; [lia|].
  destruct k as [|k]; cbn.
  - now rewrite Nat.add_0_r.
  - rewrite IH by lia. f_equal. f_equal. lia.
Qed.

Lemma lookup_map_seq {A} (g : nat -> A) (L k : nat) :
  (k < L)%nat -> map g (seq 0 L) !! k = Some (g k).
Proof. intros Hk. now rewrite lookup_map_seq_from. Qed.

(** X19.  The conjugates of an element with an exponent are a cycle of
    squares without repetition: no exponent occurs twice in the list, the
    first entry has the element's own exponent, every entry is canonical,
    each entry squared ([x ** 2]) is the next one, and the last entry
    squared is the first. *)
Theorem conjugates_cycle (self : ffelt) (n : Z) :
  elt self = Some n -> elt_q self = q (f self) ->
  q (f self) = 2 ^ m (f self) -> 0 <= m (f self) -> 0 <= n <= q (f self) - 2 ->
  exists l : list ffelt,
    (forall fuel, (Z.to_nat (m (f self)) <= fuel)%nat ->
       conjugates fuel self = Some (Ok l)) /\
    (1 <= length l <= Z.to_nat (m (f self)))%nat /\
    List.NoDup (map elt l) /\
    (exists x, l !! 0%nat = Some x /\ elt x = Some n) /\
    (forall x, In x l -> canonical x /\ f x = f self) /\
    (forall k x y, l !! k = Some x ->
       l !! (S k mod length l)%nat = Some y -> ffelt_pow x (VInt 2) = Ok y).
Proof.
  intros He Hq Hqm Hm Hn.
  destruct (first_return (q (f self)) (m (f self)) Hqm Hm n Hn)
    as (L & HL1 & Hdiv & Hret & Hmin).
  assert (HLm : (L <= Z.to_nat (m (f self)))%nat).
  { destruct Hdiv as [t Ht].
    assert (0 < m (f self)).
    { destruct (Z.eq_dec (m (f self)) 0) as [H0|?]; [|lia].
      rewrite H0 in Hqm. cbn in Hqm. lia. }
    assert (1 <= t) by nia. nia. }
  set (d := double (q (f self))) in *.
  set (l := map (fun k => orbit_elt self (Nat.iter k d n)) (seq 0 L)).
  assert (Hlen : length l = L) by (unfold l; now rewrite length_map, length_seq).
  assert (Hlook : forall k, (k < L)%nat ->
            l !! k = Some (orbit_elt self (Nat.iter k d n))).
  { intros k Hk. unfold l.
    exact (lookup_map_seq (fun k => orbit_elt self (Nat.iter k d n)) L k Hk). }
  exists l. split; [|split; [lia|split; [|split; [|split]]]].
  - intros fuel Hfuel. unfold conjugates. rewrite He.
    rewrite (conjugates_loop_run self n Hq ltac:(lia) L n [] fuel He Hn
               ltac:(lia)).
    + rewrite Hq. reflexivity.
    + rewrite Hq. exact Hret.
    + rewrite Hq. exact Hmin.
  - unfold l. rewrite map_map. cbn [elt orbit_elt].
    apply NoDup_map_NoDup_ForallPairs; [|apply List.seq_NoDup].
    intros i j Hi Hj [= Heq]. apply in_seq in Hi, Hj.
    apply (orbit_exponents_distinct (q (f self)) (m (f self)) Hqm Hm n L);
      auto; lia.
  - exists (orbit_elt self n). split; [now rewrite Hlook by lia|reflexivity].
  - intros x Hx. unfold l in Hx. apply in_map_iff in Hx as (k & <- & _).
    split; [|reflexivity]. split; [reflexivity|]. cbn.
    apply (iter_double_range (q (f self)) (m (f self)) Hm n Hn).
  - intros k x y Hx Hy. rewrite Hlen in Hy.
    assert (Hk : (k < L)%nat).
    { apply lookup_lt_Some in Hx. lia. }
    rewrite Hlook in Hx by exact Hk. injection Hx as <-.
    rewrite Hlook in Hy by (apply Nat.mod_upper_bound; lia). injection Hy as <-.
    rewrite (pow_nonzero _ (Nat.iter k d n)) by (cbn; reflexivity || lia).
    unfold with_elt, orbit_elt. cbn [f elt_q elt]. do 3 f_equal.
    replace (Nat.iter k d n * 2) with (Nat.iter k d n + Nat.iter k d n) by ring.
    change ((Nat.iter k d n + Nat.iter k d n) mod (q (f self) - 1))
      with (d (Nat.iter k d n)).
    rewrite <- Nat.iter_succ.
    destruct (Nat.eq_dec (S k) L) as [HSk|HSk].
    + rewrite HSk, Nat.Div0.mod_same. exact Hret.
    + now rewrite Nat.mod_small by lia.
Qed.

Lemma conjugates_cycle_witness :
  exists e l, ffelt2 (VInt 3) (VInt 16) = Ok e /\
    conjugates 4 e = Some (Ok l) /\ List.NoDup (map elt l).
Proof.
  destruct gf16_elements as (fld & Hfld & Hq & Hm & _ & Helt & _).
  destruct (ff_init_order _ _ Hfld) as [Hqm Hm0].
  destruct (conjugates_cycle (elt_of fld 3) 3) as (l & Hrun & _ & Hnd & _);
    try assumption; try reflexivity.
  { cbn. rewrite Hq. reflexivity. }
  { cbn. rewrite Hq. lia. }
  exists (elt_of fld 3), l. split; [apply Helt|]. split; [|exact Hnd].
  apply Hrun. cbn. rewrite Hm. lia.
Defined.

(** * Output modes *)

Lemma nonzero_positions_from (s : nat) (l : list Z) :
  map fst (filter (fun pc => 0 < snd pc)
             (zip (map Z.of_nat (seq s (length l))) l))
  = positions_from s l.
Proof.
  revert s. induction l as [|b l IH]; intros s; [reflexivity|].
  cbn [length seq map zip zip_with positions_from].
  rewrite filter_cons. cbn [snd]. destruct (decide (0 < b)); cbn; now rewrite IH.
Qed.

Lemma nonzero_positions_rev (c : list Z) :
  nonzero_positions c = positions_from 0 (rev c).
Proof.
  unfold nonzero_positions, zrange.
  rewrite Nat2Z.id, <- (length_rev c). apply nonzero_positions_from.
Qed.

Lemma positions_from_spec (l : list Z) :
  forall s, StronglySorted Z.lt (positions_from s l) /\
    forall i, In i (positions_from s l) <->
      exists k b, i = Z.of_nat (s + k) /\ nth_error l k = Some b /\ 0 < b.
Proof.
  induction l as [|b l IH]; intros s.
  - split; [constructor|]. intros i. split; [intros []|].
    intros (k & b & _ & Hk & _). now destruct k.
  - destruct (IH (S s)) as [Hsorted Hin].
    assert (Hstep : forall i, In i (positions_from (S s) l) ->
                              Z.of_nat s < i).
    { intros i Hi. apply Hin in Hi as (k & _ & -> & _). lia. }
    assert (Htail : forall i,
              (exists k b', i = Z.of_nat (S s + k) /\ nth_error l k = Some b' /\ 0 < b')
              <-> exists k b', i = Z.of_nat (s + S k)
                               /\ nth_error (b :: l) (S k) = Some b' /\ 0 < b').
    { intros i. split; intros (k & b' & -> & Hk & Hb); exists k, b';
        (split; [lia|split; assumption]). }
    cbn [positions_from]. destruct (decide (0 < b)) as [Hb|Hb].
    + split.
      * constructor; [exact Hsorted|].
        apply List.Forall_forall. exact Hstep.
      * intros i. cbn [In]. rewrite Hin, Htail. split.
        -- intros [<-|(k & b' & Hk)].
           ++ exists 0%nat, b. rewrite Nat.add_0_r. auto.
           ++ eauto.
        -- intros (k & b' & -> & Hk & Hb'). destruct k as [|k].
           ++ left. now rewrite Nat.add_0_r.
           ++ right. eauto.
    + split; [exact Hsorted|].
      intros i. rewrite Hin, Htail. split.
      * intros (k & b' & Hk). eauto.
      * intros (k & b' & -> & Hk & Hb'). destruct k as [|k].
        -- cbn in Hk. injection Hk as <-. contradiction.
        -- eauto.
Qed.

Lemma minpoly_modes (fuel : nat) (self : ffelt) (c : list Z) :
  minpoly fuel self false = Some (Ok c) ->
  minpoly fuel self true = Some (Ok (nonzero_positions c)).
Proof.
  unfold minpoly. destruct (elt self) as [e|]; [|discriminate].
  destruct (e >? 0).
  - destruct (conjugates fuel self) as [[cl|?]|]; try discriminate.
    destruct (minpoly_search _ _ _ _ ≫= _) as [c'|?]; cbn; [|discriminate].
    now intros [= ->].
  - destruct (e =? 0); [|discriminate]. cbn. now intros [= <-].
Qed.

(** X20.  The two output modes of [minpoly] agree: when the coefficient
    mode returns the vector [c], the position mode returns the positions of
    the nonzero coefficients counted from the constant term, each once and
    in ascending order: [i] is listed exactly when the coefficient of [x^i]
    (the entry [i] of [c] reversed) is nonzero. *)
Theorem minpoly_positions (fuel : nat) (self : ffelt) (c : list Z) :
  minpoly fuel self false = Some (Ok c) ->
  exists ps, minpoly fuel self true = Some (Ok ps) /\
    StronglySorted Z.lt ps /\
    forall i, In i ps <->
      0 <= i /\ exists b, nth_error (rev c) (Z.to_nat i) = Some b /\ 0 < b.
Proof.
  intros Hc. exists (nonzero_positions c).
  split; [now apply minpoly_modes|].
  rewrite nonzero_positions_rev.
  destruct (positions_from_spec (rev c) 0) as [Hsorted Hin].
  split; [exact Hsorted|]. intros i. rewrite Hin. split.
  - intros (k & b & -> & Hk & Hb). split; [lia|].
    exists b. now rewrite Nat2Z.id.
  - intros (Hi & b & Hk & Hb). exists (Z.to_nat i), b.
    split; [cbn; lia|]. split; assumption.
Qed.

Lemma minpoly_positions_witness :
  exists e ps, ffelt2 (VInt 1) (VList [0; 1; 3]%N) = Ok e /\
    minpoly 8 e true = Some (Ok ps) /\ (In 3 ps /\ ~ In 2 ps).
Proof.
  destruct (holds_on_elim (ffelt2 (VInt 1) (VList [0; 1; 3]%N))
    (fun e => bool_decide (minpoly 8 e false = Some (Ok [1; 0; 1; 1]))))
    as (e & He & Hc); [vm_compute; reflexivity|].
  apply bool_decide_eq_true in Hc.
  destruct (minpoly_positions 8 e [1; 0; 1; 1] Hc) as (ps & Hps & _ & Hin).
  exists e, ps. split; [exact He|]. split; [exact Hps|]. split.
  - apply Hin. split; [lia|]. exists 1. split; [reflexivity|lia].
  - intros H2. apply Hin in H2 as (_ & b & Hb & Hpos).
    cbn in Hb. injection Hb as <-. lia.
Defined.

(** ** The display form *)

Lemma append_length (x z : string) :
  String.length (x +:+ z) = (String.length x + String.length z)%nat.
Proof.
  induction x as [|c x IH]; [reflexivity|].
  change (S (String.length (x +:+ z)) = S (String.length x + String.length z)).
  now f_equal.
Qed.

Lemma append_assoc (x y z : string) : (x +:+ y) +:+ z = x +:+ y +:+ z.
Proof.
  induction x as [|c x IH]; [reflexivity|].
  change (String c ((x +:+ y) +:+ z) = String c (x +:+ y +:+ z)).
  now f_equal.
Qed.

Lemma append_cancel_l (x y z : string) : x +:+ y = x +:+ z -> y = z.
Proof.
  induction x as [|c x IH]; intros H; [exact H|].
  change (String c (x +:+ y) = String c (x +:+ z)) in H.
  injection H as H. now apply IH.
Qed.

Lemma append_cancel_r (x y z : string) : x +:+ z = y +:+ z -> x = y.
Proof.
  revert y. induction x as [|c x IH]; intros y H.
  - destruct y as [|c' y]; [reflexivity|].
    apply (f_equal String.length) in H.
    rewrite !append_length in H. cbn [String.length] in H. lia.
  - destruct y as [|c' y].
    + apply (f_equal String.length) in H.
      rewrite !append_length in H. cbn [String.length] in H. lia.
    + change (String c (x +:+ z) = String c' (y +:+ z)) in H.
      injection H as -> H. f_equal. now apply IH.
Qed.

(** X21.  The display form identifies the element: for a canonical element
    [__repr__] never raises, and two elements of one field size with the
    same display form (field suffix shown or suppressed) have the same
    exponent or are both zero. *)
Theorem repr_identifies (suppress : bool) (a b : ffelt) :
  canonical a -> canonical b -> elt_q b = elt_q a ->
  exists sa sb, ffelt_repr suppress a = Ok sa /\ ffelt_repr suppress b = Ok sb /\
    (sa = sb -> elt a = elt b).
Proof.
  intros [_ Ha] [_ Hb] Hq.
  assert (Hform : forall e : ffelt,
            match elt e with None => True | Some n => 0 <= n <= elt_q e - 2 end ->
            exists s, ffelt_repr suppress e = Ok (s +:+ (if suppress then ""
                        else " GF(" +:+ pretty (elt_q e) +:+ ")")) /\
              s = match elt e with
                  | None => "0"
                  | Some n => if n =? 0 then "1" else "a^" +:+ pretty n
                  end).
  { intros e He. unfold ffelt_repr. destruct (elt e) as [n|]; [|eauto].
    destruct (Z.eqb_spec n 0) as [->|Hn]; [eauto|].
    destruct (Z.gtb_spec n 0) as [_|?]; [|lia].
    eexists. split; [|reflexivity]. now rewrite append_assoc. }
  destruct (Hform a Ha) as (sa & Hsa & Hpa).
  destruct (Hform b Hb) as (sb & Hsb & Hpb).
  do 2 eexists. split; [exact Hsa|]. split; [exact Hsb|].
  rewrite Hq. intros Heq. apply append_cancel_r in Heq.
  rewrite Hpa, Hpb in Heq. clear -Heq.
  destruct (elt a) as [x|], (elt b) as [y|]; try reflexivity.
  - destruct (Z.eqb_spec x 0) as [Hx|Hx]; destruct (Z.eqb_spec y 0) as [Hy|Hy];
      try discriminate; [congruence|].
    apply append_cancel_l, pretty_Z_inj in Heq. congruence.
  - destruct (x =? 0); discriminate.
  - destruct (y =? 0); discriminate.
Qed.

Lemma repr_identifies_witness :
  exists a s, ffelt2 (VInt 7) (VInt 16) = Ok a /\
    ffelt_repr false a = Ok s /\ s = "a^7 GF(16)".
Proof.
  destruct gf16_elements as (fld & Hfld & Hq & _ & _ & Helt & _).
  destruct (repr_identifies false (elt_of fld 7) (elt_of fld 7))
    as (sa & _ & Hsa & _ & _);
    try (apply elt_of_canonical; lia); try reflexivity.
  exists (elt_of fld 7), sa. split; [apply Helt|]. split; [exact Hsa|].
  revert Hsa. unfold ffelt_repr. cbn. rewrite Hq. cbn. now intros [= <-].
Defined.

(** * Fields of a primitive polynomial *)

(** ** The tables *)

Lemma tables_upto_acc (qv gp : Z) (k : nat) :
  fst (fst (tables_upto qv gp k)) = Nat.iter k (shift_reduce qv gp) 1.
Proof.
  induction k as [|k IH]; [reflexivity|].
  rewrite tables_upto_S. destruct (tables_upto qv gp k) as [[a p2p] p2w].
  cbn in IH. subst a. reflexivity.
Qed.

Lemma tables_upto_power (qv gp : Z) (k n : nat) :
  (n < k)%nat ->
  snd (fst (tables_upto qv gp k)) !! Some (Z.of_nat n)
  = Some (Nat.iter n (shift_reduce qv gp) 1).
Proof.
  induction k as [|k IH]; [lia|]. intros Hn.
  rewrite tables_upto_S. pose proof (tables_upto_acc qv gp k) as Hacc.
  destruct (tables_upto qv gp k) as [[a p2p] p2w]. cbn in *.
  destruct (Nat.eq_dec n k) as [->|Hne].
  - rewrite lookup_insert_eq. now subst a.
  - rewrite lookup_insert_ne by (intros [= ?]; lia). apply IH. lia.
Qed.

Lemma tables_upto_zero_key (qv gp : Z) (k : nat) :
  is_Some (snd (tables_upto qv gp k) !! 0).
Proof.
  induction k as [|k IH].
  - exists None. now apply lookup_singleton_Some.
  - rewrite tables_upto_S. destruct (tables_upto qv gp k) as [[a p2p] p2w].
    cbn in *. destruct (decide (a = 0)) as [->|Hne].
    + rewrite lookup_insert_eq. eauto.
    + now rewrite lookup_insert_ne.
Qed.

Lemma shift_reduce_zero (qv gp : Z) (d : nat) :
  Nat.iter d (shift_reduce qv gp) 0 = 0.
Proof. induction d as [|d IH]; [reflexivity|]. now rewrite Nat.iter_succ, IH. Qed.

Lemma alpha_pattern_add (t : ff) (d i : nat) :
  alpha_pattern t (d + i)
  = Nat.iter d (shift_reduce (q t) (g t mod q t)) (alpha_pattern t i).
Proof. unfold alpha_pattern. apply Nat.iter_add. Qed.

Lemma check_primitive_sound (t : ff) : check_primitive t = true -> primitive t.
Proof.
  unfold check_primitive, primitive.
  rewrite !andb_true_iff, forallb_forall. intros [[Hm Hone] Hmin].
  split; [lia|]. split; [lia|]. intros k Hk Hk1.
  specialize (Hmin k). rewrite Hk1 in Hmin. cbn in Hmin.
  assert (Hin : In k (seq 1 (Z.to_nat (q t - 1) - 1))) by (apply in_seq; lia).
  specialize (Hmin Hin). discriminate.
Qed.

Lemma catalog_check_primitive (qv : Z) :
  In qv catalog -> holds_on (ff_init (VInt qv)) check_primitive = true.
Proof. intros Hin. each_catalog_order Hin; vm_compute; reflexivity. Qed.

(** The polynomials of the catalog are primitive. *)
Lemma catalog_primitive (qv : Z) :
  In qv catalog -> exists fld, ff_init (VInt qv) = Ok fld /\ primitive fld.
Proof.
  intros Hin. apply catalog_check_primitive in Hin.
  apply holds_on_elim in Hin as (fld & Hfld & Hc).
  exists fld. split; [exact Hfld|]. now apply check_primitive_sound.
Qed.

(** So is [x^3 + x^2 + 1], which is not in the catalog. *)
Lemma gf8_second_primitive :
  exists fld, ff_init (VList [0; 2; 3]%N) = Ok fld /\ primitive fld /\
              m fld = 3 /\ q fld = 8.
Proof.
  destruct (holds_on_elim (ff_init (VList [0; 2; 3]%N))
              (fun t => (m t =? 3) && (q t =? 8) && check_primitive t))
    as (fld & Hfld & Hc); [vm_compute; reflexivity|].
  rewrite !andb_true_iff, !Z.eqb_eq in Hc. destruct Hc as [[Hm Hq] Hc].
  exists fld. split; [exact Hfld|].
  split; [now apply check_primitive_sound|]. split; assumption.
Qed.

Section Primitive.

Variable gspec : pyval.
Variable t : ff.
Hypothesis Hbuilt : ff_init gspec = Ok t.
Hypothesis Hprim : primitive t.

Lemma primitive_order : q t = 2 ^ m t /\ 1 <= m t /\ 2 <= q t.
Proof.
  destruct (ff_init_order gspec t Hbuilt) as [Hqm _].
  destruct Hprim as (Hm & _). split; [exact Hqm|]. split; [exact Hm|].
  rewrite Hqm. change 2 with (2 ^ 1) at 1. apply Z.pow_le_mono_r; lia.
Qed.

(** The powers [x**0 .. x**(q-2)] are pairwise distinct and none is 0. *)
Lemma alpha_pattern_distinct (i j : nat) :
  (i < j < Z.to_nat (q t - 1))%nat -> alpha_pattern t i <> alpha_pattern t j.
Proof.
  intros Hij Heq. destruct Hprim as (_ & Hone & Hmin).
  apply (Hmin (Z.to_nat (q t - 1) - j + i)%nat); [lia|].
  rewrite alpha_pattern_add, Heq, <- alpha_pattern_add.
  now replace (Z.to_nat (q t - 1) - j + j)%nat with (Z.to_nat (q t - 1)) by lia.
Qed.

Lemma alpha_pattern_inj (i j : nat) :
  (i < Z.to_nat (q t - 1))%nat -> (j < Z.to_nat (q t - 1))%nat ->
  alpha_pattern t i = alpha_pattern t j -> i = j.
Proof.
  intros Hi Hj Heq.
  destruct (Nat.lt_trichotomy i j) as [Hlt|[?|Hgt]]; [|assumption|].
  - now destruct (alpha_pattern_distinct i j ltac:(lia)).
  - now destruct (alpha_pattern_distinct j i ltac:(lia)).
Qed.

Lemma alpha_pattern_nonzero (i : nat) :
  (i <= Z.to_nat (q t - 1))%nat -> alpha_pattern t i <> 0.
Proof.
  intros Hi H0. destruct Hprim as (_ & Hone & _).
  replace (Z.to_nat (q t - 1)) with (Z.to_nat (q t - 1) - i + i)%nat in Hone by lia.
  rewrite alpha_pattern_add, H0, shift_reduce_zero in Hone. discriminate.
Qed.

Lemma built_power (n : Z) :
  0 <= n <= q t - 2 ->
  power_to_poly t !! Some n = Some (alpha_pattern t (Z.to_nat n)).
Proof.
  intros Hn.
  destruct (ff_init_tables gspec t Hbuilt) as (_ & _ & _ & _ & Hp2p & _).
  rewrite Hp2p. rewrite <- (Z2Nat.id n) at 1 by lia.
  apply tables_upto_power. lia.
Qed.

(** With a primitive polynomial the two dicts are mutual inverses. *)
Lemma primitive_tables : tables_inverse t.
Proof.
  destruct (ff_init_tables gspec t Hbuilt) as (_ & _ & _ & _ & Hp2p & Hp2w).
  destruct (built_tables_facts gspec t Hbuilt) as (Hnone & Hkeys & Hforth & Hback & Hzero).
  assert (Hnz : forall n, power_to_poly t !! Some n <> Some 0).
  { intros n Hn0. assert (Hn : 0 <= n <= q t - 2) by (apply Hkeys; eauto).
    rewrite built_power in Hn0 by exact Hn. injection Hn0 as Hn0.
    apply (alpha_pattern_nonzero (Z.to_nat n)); [lia|exact Hn0]. }
  split.
  - intros n Hn. exists (alpha_pattern t (Z.to_nat n)).
    split; [now apply built_power|].
    destruct (Hforth n _ (built_power n Hn)) as (n' & Hn' & Hp').
    assert (Hr : 0 <= n' <= q t - 2) by (apply Hkeys; eauto).
    rewrite built_power in Hp' by exact Hr. injection Hp' as Hp'.
    apply alpha_pattern_inj in Hp'; [|lia|lia].
    rewrite Hn'. do 2 f_equal. lia.
  - intros v w Hv Hvw. destruct w as [n|].
    + split; [discriminate|]. now apply Hback.
    + now apply Hzero in Hvw.
  - exact Hnone.
  - pose proof (tables_upto_zero_key (q t) (g t mod q t) (Z.to_nat (q t - 1)))
      as [w Hw].
    rewrite <- Hp2w in Hw. destruct w as [n|]; [|exact Hw].
    destruct (Hback 0 n Hw) as [Hp _]. now apply Hnz in Hp.
  - exact Hnz.
  - intros n v Hn. apply Hkeys. eauto.
Qed.

End Primitive.

(** ** Addition *)

(** An element built on a specifier is the element built on the field the
    specifier builds. *)
Lemma ffelt2_built (gspec : pyval) (fld : ff) (x : pyval) :
  ff_init gspec = Ok fld -> ffelt2 x gspec = ffelt2 x (VField fld).
Proof.
  intros Hfld. unfold ffelt2, ffelt_init.
  destruct gspec as [|z|l|fld'|e|s]; try discriminate.
  - destruct z as [|p|p]; try (cbn [field_arg]; now rewrite Hfld).
    destruct p as [p|p|]; try (cbn [field_arg]; now rewrite Hfld).
    discriminate.
  - cbn [field_arg]. now rewrite Hfld.
Qed.

Lemma built_element (fld : ff) (x : pyval) :
  2 <= q fld -> exponent_arg x ->
  exists a, ffelt2 x (VField fld) = Ok a /\ f a = fld /\ elt_q a = q fld /\
            forall n, elt a = Some n -> 0 <= n <= q fld - 2.
Proof.
  intros Hq [->|[n ->]].
  - exists (zero_of fld). repeat split; cbn in *; discriminate.
  - exists (elt_of fld n). rewrite ffelt2_int by lia.
    split; [reflexivity|]. split; [reflexivity|]. split; [reflexivity|].
    intros k. cbn. intros [= <-].
    pose proof (Z.mod_pos_bound n (q fld - 1)). lia.
Qed.

(** C8.  In every field built from a primitive polynomial, given by its
    order in the catalog or by its list of exponents, and for every element
    [a = ffelt(x, spec)] ([x] is [None] or any int, so the zero element and
    the element 1 included) and [zero = ffelt(None, spec)]: [a + zero]
    succeeds, keeps the exponent of [a] and satisfies [a + zero == a];
    [a + a] succeeds, is the zero sentinel and satisfies [a + a == zero]. *)
Theorem add_zero_and_self (gspec : pyval) (fld : ff) (x : pyval) :
  ff_init gspec = Ok fld -> primitive fld ->
  (x = VNone \/ exists n, x = VInt n) ->
  exists a zero,
    ffelt2 x gspec = Ok a /\ ffelt2 VNone gspec = Ok zero /\
    elt zero = None /\
    (exists s, ffelt_add a (VElt zero) = Ok s /\ elt s = elt a /\
               ffelt_eq s (VElt a) = Ok (Some true)) /\
    (exists d, ffelt_add a (VElt a) = Ok d /\ elt d = None /\
               ffelt_eq d (VElt zero) = Ok (Some true)).
Proof.
  intros Hfld Hprim Hx.
  pose proof (primitive_tables gspec fld Hfld Hprim) as Hti.
  destruct (primitive_order gspec fld Hfld Hprim) as (_ & _ & Hq2).
  destruct (built_element fld x Hq2 Hx) as (a & Ha & Hfa & Haq & Hrange).
  exists a, (zero_of fld). rewrite !(ffelt2_built gspec fld) by exact Hfld.
  split; [exact Ha|]. split; [reflexivity|]. split; [reflexivity|].
  split.
  - apply (add_zero_element fld Hti); auto.
  - apply (add_to_itself fld Hti); auto.
Qed.

Lemma add_zero_and_self_witness :
  exists a zero,
    ffelt2 (VInt 13) (VList [0; 2; 3]%N) = Ok a /\
    ffelt2 VNone (VList [0; 2; 3]%N) = Ok zero /\
    elt zero = None /\
    (exists s, ffelt_add a (VElt zero) = Ok s /\ elt s = elt a /\
               ffelt_eq s (VElt a) = Ok (Some true)) /\
    (exists d, ffelt_add a (VElt a) = Ok d /\ elt d = None /\
               ffelt_eq d (VElt zero) = Ok (Some true)).
Proof.
  destruct gf8_second_primitive as (fld & Hfld & Hprim & _).
  apply (add_zero_and_self (VList [0; 2; 3]%N) fld (VInt 13) Hfld Hprim).
  right. exists 13. reflexivity.
Defined.

(** ** The shift-and-reduce step is linear *)

Lemma land_pow2 (x n : Z) :
  0 <= n -> Z.land x (2 ^ n) = if Z.testbit x n then 2 ^ n else 0.
Proof.
  intros Hn. apply Z.bits_inj'. intros k Hk. rewrite Z.land_spec.
  destruct (Z.eq_dec k n) as [->|Hne].
  - rewrite Z.pow2_bits_true, andb_true_r by lia.
    destruct (Z.testbit x n); [now rewrite Z.pow2_bits_true|now rewrite Z.bits_0].
  - rewrite Z.pow2_bits_false, andb_false_r by lia.
    destruct (Z.testbit x n); [now rewrite Z.pow2_bits_false by lia|now rewrite Z.bits_0].
Qed.

Lemma bit_clear_below (x n : Z) :
  0 <= n -> 0 <= x < 2 ^ (n + 1) -> Z.testbit x n = false -> x < 2 ^ n.
Proof.
  intros Hn Hx Hbit. destruct (Z_lt_le_dec x (2 ^ n)) as [?|Hge]; [assumption|].
  pose proof (land_pow2_positive x n Hn ltac:(lia)) as Hpos.
  rewrite land_pow2, Hbit in Hpos by lia. lia.
Qed.

Lemma land_lxor_distr (a b c : Z) :
  Z.land (Z.lxor a b) c = Z.lxor (Z.land a c) (Z.land b c).
Proof.
  apply Z.bits_inj'. intros k _. rewrite !Z.lxor_spec, !Z.land_spec, Z.lxor_spec.
  destruct (Z.testbit a k), (Z.testbit b k), (Z.testbit c k); reflexivity.
Qed.

Lemma shift_reduce_lxor (qv mv gp u v : Z) :
  qv = 2 ^ mv -> 1 <= mv -> 0 <= u < qv -> 0 <= v < qv ->
  shift_reduce qv gp (Z.lxor u v)
  = Z.lxor (shift_reduce qv gp u) (shift_reduce qv gp v).
Proof.
  intros -> Hm Hu Hv. unfold shift_reduce. cbv zeta.
  rewrite Z.shiftl_lxor. rewrite !land_pow2, Z.lxor_spec by lia.
  assert (Hpos : (2 ^ mv >? 0) = true).
  { apply Z.gtb_lt. apply Z.pow_pos_nonneg; lia. }
  replace (2 ^ mv - 1) with (Z.ones mv) by (rewrite Z.ones_equiv; lia).
  assert (HX : 0 <= Z.shiftl u 1 < 2 ^ (mv + 1)).
  { rewrite Z.shiftl_mul_pow2, Z.pow_1_r, Z.pow_add_r, Z.pow_1_r by lia. lia. }
  assert (HY : 0 <= Z.shiftl v 1 < 2 ^ (mv + 1)).
  { rewrite Z.shiftl_mul_pow2, Z.pow_1_r, Z.pow_add_r, Z.pow_1_r by lia. lia. }
  set (X := Z.shiftl u 1) in *. set (Y := Z.shiftl v 1) in *.
  assert (Hsmall : forall w, 0 <= w < 2 ^ (mv + 1) -> Z.testbit w mv = false ->
                             Z.land w (Z.ones mv) = w).
  { intros w Hw Hbit. rewrite Z.land_ones by lia. apply Z.mod_small.
    split; [lia|]. apply bit_clear_below; [lia|exact Hw|exact Hbit]. }
  destruct (Z.testbit X mv) eqn:EX, (Z.testbit Y mv) eqn:EY; cbn [xorb];
    rewrite ?Hpos; change (0 >? 0) with false; cbv iota.
  - transitivity (Z.land (Z.lxor X Y) (Z.ones mv)).
    + symmetry. apply Hsmall; [apply lxor_below_pow2; lia|].
      now rewrite Z.lxor_spec, EX, EY.
    + rewrite land_lxor_distr. xor_bits.
  - rewrite land_lxor_distr, (Hsmall Y HY EY). xor_bits.
  - rewrite land_lxor_distr, (Hsmall X HX EX). xor_bits.
  - reflexivity.
Qed.

(** ** The field laws *)

Section PrimitiveField.

Variable gspec : pyval.
Variable t : ff.
Hypothesis Hbuilt : ff_init gspec = Ok t.
Hypothesis Hprim : primitive t.

Lemma primitive_pattern (e : option Z) :
  In e (exponents t) ->
  power_to_poly t !! e = Some (pattern_of t e) /\
  poly_to_power t !! pattern_of t e = Some e /\
  0 <= pattern_of t e < q t.
Proof.
  intros He. apply in_exponents in He. unfold pattern_of.
  pose proof (primitive_tables gspec t Hbuilt Hprim) as Hti.
  assert (Hp : exists v, power_to_poly t !! e = Some v /\
                         poly_to_power t !! v = Some e).
  { destruct e as [n|].
    - apply (ti_powers t Hti n He).
    - exists 0. split; [apply (ti_zero_key t Hti)|apply (ti_zero_poly t Hti)]. }
  destruct Hp as (v & Hv & Hback). rewrite Hv. cbn.
  split; [reflexivity|]. split; [exact Hback|].
  now apply (proj1 (built_patterns_bound gspec t Hbuilt) e v).
Qed.

(** Every nonzero pattern is a power of [x]: the [q - 1] distinct powers
    fill [1 .. q-1]. *)
Lemma primitive_total (v : Z) :
  0 <= v < q t -> is_Some (poly_to_power t !! v).
Proof.
  intros Hv.
  pose proof (primitive_tables gspec t Hbuilt Hprim) as Hti.
  destruct (primitive_order gspec t Hbuilt Hprim) as (Hqm & Hm & Hq2).
  destruct (Z.eq_dec v 0) as [->|Hv0].
  { rewrite (ti_zero_poly t Hti). eauto. }
  pose (N := Z.to_nat (q t - 1)).
  pose (l := map (alpha_pattern t) (seq 0 N)).
  pose (k := map Z.of_nat (seq 1 N)).
  assert (Hbound : forall i, (i < N)%nat -> 1 <= alpha_pattern t i <= q t - 1).
  { intros i Hi.
    pose proof (built_power gspec t Hbuilt (Z.of_nat i) ltac:(lia)) as Hp.
    rewrite Nat2Z.id in Hp.
    pose proof (proj1 (built_patterns_bound gspec t Hbuilt) _ _ Hp).
    pose proof (alpha_pattern_nonzero t Hprim i ltac:(lia)). lia. }
  assert (Hnd : List.NoDup l).
  { apply NoDup_map_NoDup_ForallPairs; [|apply List.seq_NoDup].
    intros i j Hi Hj Heq. apply in_seq in Hi, Hj.
    apply (alpha_pattern_inj t Hprim); [lia|lia|exact Heq]. }
  assert (Hincl : incl l k).
  { intros a Ha. apply in_map_iff in Ha as (i & <- & Hi). apply in_seq in Hi.
    specialize (Hbound i ltac:(lia)). apply in_map_iff.
    exists (Z.to_nat (alpha_pattern t i)). split; [lia|]. apply in_seq. lia. }
  assert (Hlen : (length k <= length l)%nat).
  { unfold k, l. now rewrite !length_map, !length_seq. }
  pose proof (List.NoDup_length_incl Hnd Hlen Hincl) as Hback.
  assert (Hin : In v k).
  { apply in_map_iff. exists (Z.to_nat v). split; [lia|]. apply in_seq. lia. }
  apply Hback in Hin. apply in_map_iff in Hin as (i & <- & Hi). apply in_seq in Hi.
  pose proof (built_power gspec t Hbuilt (Z.of_nat i) ltac:(lia)) as Hp.
  rewrite Nat2Z.id in Hp.
  destruct (built_tables_facts gspec t Hbuilt) as (_ & _ & Hforth & _).
  destruct (Hforth _ _ Hp) as (n' & Hn' & _). rewrite Hn'. eauto.
Qed.

Lemma primitive_exponent (v : Z) :
  0 <= v < q t ->
  poly_to_power t !! v = Some (exponent_of t v) /\
  In (exponent_of t v) (exponents t) /\ pattern_of t (exponent_of t v) = v.
Proof.
  intros Hv. pose proof (primitive_tables gspec t Hbuilt Hprim) as Hti.
  destruct (primitive_total v Hv) as [e He].
  unfold exponent_of. rewrite He. cbn. split; [reflexivity|].
  destruct (built_tables_facts gspec t Hbuilt) as (_ & _ & _ & Hback & Hzero).
  destruct e as [n|].
  - destruct (Hback v n He) as [Hp Hn].
    split; [now apply in_exponents|]. unfold pattern_of. now rewrite Hp.
  - split; [now apply in_exponents|]. rewrite (Hzero v He).
    unfold pattern_of. now rewrite (ti_zero_key t Hti).
Qed.

Lemma primitive_exponent_of_pattern (e : option Z) :
  In e (exponents t) -> exponent_of t (pattern_of t e) = e.
Proof.
  intros He. unfold exponent_of at 1.
  now rewrite (proj1 (proj2 (primitive_pattern e He))).
Qed.

(** Adding 1 to the exponent is the shift-and-reduce step on the pattern. *)
Lemma primitive_shift (e : option Z) :
  In e (exponents t) ->
  pattern_of t (mul_exponents (q t) (Some 1) e)
  = shift_reduce (q t) (g t mod q t) (pattern_of t e).
Proof.
  intros He. pose proof (primitive_tables gspec t Hbuilt Hprim) as Hti.
  destruct (primitive_order gspec t Hbuilt Hprim) as (Hqm & Hm & Hq2).
  destruct e as [y|].
  - apply in_exponents in He. cbn [mul_exponents]. unfold pattern_of.
    rewrite (built_power gspec t Hbuilt y He). cbn [default from_option id].
    assert (Hstep : shift_reduce (q t) (g t mod q t) (alpha_pattern t (Z.to_nat y))
                    = alpha_pattern t (S (Z.to_nat y))) by reflexivity.
    rewrite Hstep.
    destruct (Z.eq_dec (1 + y) (q t - 1)) as [Heq|Hne].
    + rewrite Heq, Z.mod_same by lia.
      rewrite (built_power gspec t Hbuilt 0) by lia. cbn [default from_option id].
      replace (S (Z.to_nat y)) with (Z.to_nat (q t - 1)) by lia.
      destruct Hprim as (_ & Hone & _). now rewrite Hone.
    + rewrite Z.mod_small by lia.
      rewrite (built_power gspec t Hbuilt (1 + y)) by lia. cbn [default from_option id].
      f_equal. lia.
  - cbn [mul_exponents]. unfold pattern_of. rewrite (ti_zero_key t Hti).
    reflexivity.
Qed.

Lemma primitive_alpha_linear (eb ec : option Z) :
  In eb (exponents t) -> In ec (exponents t) ->
  mul_exponents (q t) (Some 1) (add_exponents t eb ec)
  = add_exponents t (mul_exponents (q t) (Some 1) eb)
                    (mul_exponents (q t) (Some 1) ec).
Proof.
  intros Hb Hc.
  destruct (primitive_order gspec t Hbuilt Hprim) as (Hqm & Hm & Hq2).
  assert (Hcan : forall e, In (mul_exponents (q t) (Some 1) e) (exponents t)).
  { intros e. apply in_exponents. destruct e as [y|]; cbn; [|exact I].
    pose proof (Z.mod_pos_bound (1 + y) (q t - 1)). lia. }
  destruct (primitive_pattern eb Hb) as (_ & _ & Hrb).
  destruct (primitive_pattern ec Hc) as (_ & _ & Hrc).
  assert (Hx : 0 <= Z.lxor (pattern_of t eb) (pattern_of t ec) < q t).
  { rewrite Hqm in *. now apply lxor_below_pow2. }
  destruct (primitive_exponent _ Hx) as (_ & Hes & Hpes).
  unfold add_exponents at 2.
  rewrite !primitive_shift by assumption.
  rewrite <- (shift_reduce_lxor (q t) (m t)) by assumption.
  unfold add_exponents. rewrite <- Hpes at 2.
  rewrite <- primitive_shift by exact Hes.
  symmetry. apply primitive_exponent_of_pattern, Hcan.
Qed.

Lemma primitive_field_ok : field_ok t = true.
Proof.
  pose proof (primitive_tables gspec t Hbuilt Hprim) as Hti.
  unfold field_ok, tables_ok. rewrite !andb_true_iff, !bool_decide_eq_true.
  repeat split.
  - unfold check_powers. apply forallb_forall. intros n Hn. apply in_zrange in Hn.
    destruct (ti_powers t Hti n ltac:(lia)) as (v & -> & Hw).
    now apply bool_decide_eq_true.
  - unfold check_polys. apply forallb_forall. intros [v w] Hin. cbn [fst snd].
    apply list_elem_of_In, elem_of_map_to_list in Hin.
    destruct (Z.eqb_spec v 0) as [->|Hv].
    + rewrite (ti_zero_poly t Hti) in Hin. injection Hin as <-.
      now apply bool_decide_eq_true.
    + destruct (ti_polys t Hti v w Hv Hin) as [Hw Hp].
      rewrite andb_true_iff, !bool_decide_eq_true. tauto.
  - unfold check_keys. apply forallb_forall. intros [k v] Hin. cbn [fst snd].
    apply list_elem_of_In, elem_of_map_to_list in Hin. destruct k as [n|].
    + pose proof (ti_keys t Hti n v Hin).
      assert (v <> 0) by (intros ->; now apply (ti_no_exponent t Hti) in Hin).
      rewrite !andb_true_iff, negb_true_iff. repeat split; lia.
    + rewrite (ti_zero_key t Hti) in Hin. injection Hin as <-. reflexivity.
  - apply (ti_zero_key t Hti).
  - apply (ti_zero_poly t Hti).
  - unfold check_total. apply forallb_forall. intros v Hv. apply in_zrange in Hv.
    apply bool_decide_eq_true. now apply primitive_total.
  - unfold check_alpha_linear. apply forallb_forall. intros eb Hb.
    apply forallb_forall. intros ec Hc. apply bool_decide_eq_true.
    now apply primitive_alpha_linear.
Qed.

End PrimitiveField.

(** X22.  Whatever the specifier, when the polynomial is primitive the two
    dicts of the field are mutual inverses: [poly_to_power[power_to_poly[n]]
    == n] for every exponent [n] of [0 .. q-2]; every nonzero pattern of
    [poly_to_power] has an exponent that [power_to_poly] maps back to it;
    the zero element sits apart under [power_to_poly[None] == 0] and
    [poly_to_power[0] == None]; and every pattern of [0 .. q-1] is a key of
    [poly_to_power], so that no sum of two elements is missing from it. *)
Theorem primitive_tables_mutual_inverse (gspec : pyval) (fld : ff) :
  ff_init gspec = Ok fld -> primitive fld ->
  (forall n, 0 <= n <= q fld - 2 ->
     exists v, subscript (power_to_poly fld) (Some n) = Ok v /\
               subscript (poly_to_power fld) v = Ok (Some n)) /\
  (forall v w, v <> 0 -> poly_to_power fld !! v = Some w ->
     exists n, w = Some n /\ subscript (power_to_poly fld) w = Ok v) /\
  subscript (power_to_poly fld) None = Ok 0 /\
  subscript (poly_to_power fld) 0 = Ok None /\
  (forall n, power_to_poly fld !! Some n <> Some 0) /\
  (forall v, 0 <= v < q fld -> is_Some (poly_to_power fld !! v)).
Proof.
  intros Hfld Hprim.
  destruct (primitive_tables gspec fld Hfld Hprim) as [Hpow Hpol Hzk Hzp Hne _].
  unfold subscript. repeat split.
  - intros n Hn. destruct (Hpow n Hn) as (v & Hv & Hw).
    exists v. now rewrite Hv, Hw.
  - intros v w Hv Hvw. destruct (Hpol v w Hv Hvw) as [Hw Hback].
    destruct w as [n|]; [|contradiction]. exists n. now rewrite Hback.
  - now rewrite Hzk.
  - now rewrite Hzp.
  - exact Hne.
  - exact (primitive_total gspec fld Hfld Hprim).
Qed.

Lemma primitive_tables_mutual_inverse_witness :
  exists fld, ff_init (VList [0; 2; 3]%N) = Ok fld /\ q fld = 8 /\
    forall n, 0 <= n <= 6 ->
      exists v, subscript (power_to_poly fld) (Some n) = Ok v /\
                subscript (poly_to_power fld) v = Ok (Some n).
Proof.
  destruct gf8_second_primitive as (fld & Hfld & Hprim & _ & Hq).
  destruct (primitive_tables_mutual_inverse (VList [0; 2; 3]%N) fld Hfld Hprim)
    as (Hpow & _).
  exists fld. split; [exact Hfld|]. split; [exact Hq|].
  intros n Hn. apply Hpow. lia.
Defined.

(** X23.  Each polynomial of the catalog is primitive: in the field of each
    supported order, [x**(q-1)] is 1 modulo the polynomial and no smaller
    positive power of [x] is.  Not every irreducible polynomial is:
    modulo [x^4 + x^3 + x^2 + x + 1] (the list [[0, 1, 2, 3, 4]]) already
    [x**5] is 1, and the table loop, which runs 15 turns, stores each of the
    5 patterns three times. *)
Theorem catalog_polynomials_primitive :
  (forall qv, In qv catalog ->
     exists fld, ff_init (VInt qv) = Ok fld /\ q fld = qv /\ primitive fld) /\
  (exists fld, ff_init (VList [0; 1; 2; 3; 4]%N) = Ok fld /\ q fld = 16 /\
     alpha_pattern fld 5 = 1 /\ ~ primitive fld /\
     poly_to_power fld !! 1 = Some (Some 10)).
Proof.
  split.
  - intros qv Hin. destruct (catalog_primitive qv Hin) as (fld & Hfld & Hprim).
    destruct (catalog_tables_ok qv Hin) as (fld' & Hfld' & Hq & _).
    rewrite Hfld in Hfld'. injection Hfld' as <-. eauto.
  - destruct (holds_on_elim (ff_init (VList [0; 1; 2; 3; 4]%N))
                (fun t => (q t =? 16) && (alpha_pattern t 5 =? 1) &&
                          bool_decide (poly_to_power t !! 1 = Some (Some 10))))
      as (fld & Hfld & Hc); [vm_compute; reflexivity|].
    rewrite !andb_true_iff, !Z.eqb_eq, bool_decide_eq_true in Hc.
    destruct Hc as [[Hq H5] Hp].
    exists fld. repeat (split; [assumption|]). split; [|exact Hp].
    intros (_ & _ & Hmin). apply (Hmin 5%nat); [rewrite Hq; cbn; lia|exact H5].
Qed.

Lemma catalog_polynomials_primitive_witness :
  exists fld, ff_init (VInt 256) = Ok fld /\ q fld = 256 /\ primitive fld.
Proof.
  apply (proj1 catalog_polynomials_primitive 256).
  unfold catalog. simpl. tauto.
Defined.

(** * Minimal polynomials in the fields of primitive polynomials *)

(** ** Vectors of bits and the numbers they spell *)

Lemma bits_value_cons (b : Z) (l : list Z) :
  bits_value (b :: l) = b * 2 ^ Z.of_nat (length l) + bits_value l.
Proof. change (b :: l) with ([b] ++ l). now rewrite bits_value_app. Qed.

Lemma bits_value_bound (l : list Z) :
  Forall (fun b => b = 0 \/ b = 1) l ->
  0 <= bits_value l < 2 ^ Z.of_nat (length l).
Proof.
  induction 1 as [|b l Hb Hl IH]; [cbn; lia|].
  rewrite bits_value_cons. cbn [length].
  rewrite Nat2Z.inj_succ, Z.pow_succ_r by lia.
  destruct Hb as [->| ->]; lia.
Qed.

Lemma bits_value_inj (l1 l2 : list Z) :
  Forall (fun b => b = 0 \/ b = 1) l1 -> Forall (fun b => b = 0 \/ b = 1) l2 ->
  length l1 = length l2 -> bits_value l1 = bits_value l2 -> l1 = l2.
Proof.
  intros H1. revert l2. induction H1 as [|b1 l1 Hb1 Hl1 IH]; intros l2 H2 Hlen Hval.
  - destruct l2; [reflexivity|discriminate].
  - destruct H2 as [|b2 l2 Hb2 Hl2]; [discriminate|].
    injection Hlen as Hlen. rewrite !bits_value_cons, Hlen in Hval.
    pose proof (bits_value_bound l1 Hl1) as B1. rewrite Hlen in B1.
    pose proof (bits_value_bound l2 Hl2) as B2.
    assert (b1 = b2) by (destruct Hb1 as [->| ->], Hb2 as [->| ->]; lia).
    subst b2. f_equal. apply IH; auto. lia.
Qed.

(** [bin_array] gives back a vector of bits from the number it spells. *)
Lemma bin_array_of_bits (l : list Z) :
  Forall (fun b => b = 0 \/ b = 1) l -> (1 <= length l)%nat ->
  bin_array (Z.to_N (bits_value l)) (length l) = l /\
  (Z.to_N (bits_value l) < 2 ^ N.of_nat (length l))%N.
Proof.
  intros Hl Hlen. pose proof (bits_value_bound l Hl) as Hb.
  destruct (bin_array_facts (Z.to_N (bits_value l)) (length l))
    as (Hv & Hbits & _ & Hw).
  rewrite Z2N.id in Hv, Hw by lia. split.
  - apply bits_value_inj; [exact Hbits|exact Hl|apply Hw; lia|exact Hv].
  - apply N2Z.inj_lt. rewrite N2Z.inj_pow, Z2N.id, nat_N_Z by lia.
    exact (proj2 Hb).
Qed.

Lemma in_nrange (i n : N) : In i (nrange n) <-> (i < n)%N.
Proof.
  unfold nrange. rewrite in_map_iff. split.
  - intros (k & <- & Hk). apply in_seq in Hk. lia.
  - intros Hi. exists (N.to_nat i). split; [lia|]. apply in_seq. lia.
Qed.

(** ** Polynomials over the field *)

Section FieldAlgebra.

Variable gspec : pyval.
Variable t : ff.
Hypothesis Hbuilt : ff_init gspec = Ok t.
Hypothesis Hok : field_ok t = true.
Hypothesis Hq : 4 <= q t.

Local Notation "a ⊕ b" := (add_exponents t a b) (at level 50, left associativity).
Local Notation "a ⊗ b" := (mul_exponents (q t) a b) (at level 40, left associativity).

Lemma exponent_None : In None (exponents t).
Proof. now apply in_exponents. Qed.

Lemma exponent_one : In (Some 0) (exponents t).
Proof. apply in_exponents. lia. Qed.

Lemma exponent_add (a b : option Z) :
  In a (exponents t) -> In b (exponents t) -> In (a ⊕ b) (exponents t).
Proof. exact (add_exponents_canonical gspec t Hbuilt Hok Hq a b). Qed.

Lemma exponent_mul (a b : option Z) : In (a ⊗ b) (exponents t).
Proof. exact (mul_exponents_canonical t Hq a b). Qed.

Lemma fadd_comm (a b : option Z) : a ⊕ b = b ⊕ a.
Proof. unfold add_exponents. now rewrite Z.lxor_comm. Qed.

Lemma pattern_of_None : pattern_of t None = 0.
Proof. unfold pattern_of. now rewrite (ti_zero_key t (field_ok_tables t Hok)). Qed.

Lemma exponent_of_0 : exponent_of t 0 = None.
Proof. unfold exponent_of. now rewrite (ti_zero_poly t (field_ok_tables t Hok)). Qed.

Lemma fadd_zero_r (a : option Z) : In a (exponents t) -> a ⊕ None = a.
Proof.
  intros Ha. unfold add_exponents. rewrite pattern_of_None, Z.lxor_0_r.
  now apply (exponent_of_pattern gspec t).
Qed.

Lemma fadd_zero_l (a : option Z) : In a (exponents t) -> None ⊕ a = a.
Proof. rewrite fadd_comm. apply fadd_zero_r. Qed.

Lemma fadd_self (a : option Z) : a ⊕ a = None.
Proof. unfold add_exponents. rewrite Z.lxor_nilpotent. apply exponent_of_0. Qed.

Lemma fadd_assoc (a b c : option Z) :
  In a (exponents t) -> In b (exponents t) -> In c (exponents t) ->
  (a ⊕ b) ⊕ c = a ⊕ (b ⊕ c).
Proof. exact (add_exponents_assoc gspec t Hbuilt Hok Hq a b c). Qed.

Lemma fadd_shuffle (a b c d : option Z) :
  In a (exponents t) -> In b (exponents t) ->
  In c (exponents t) -> In d (exponents t) ->
  (a ⊕ b) ⊕ (c ⊕ d) = (a ⊕ c) ⊕ (b ⊕ d).
Proof.
  intros Ha Hb Hc Hd.
  rewrite (fadd_assoc a b (c ⊕ d)) by auto using exponent_add.
  rewrite <- (fadd_assoc b c d) by assumption.
  rewrite (fadd_comm b c).
  rewrite (fadd_assoc c b d) by assumption.
  now rewrite <- (fadd_assoc a c (b ⊕ d)) by auto using exponent_add.
Qed.

Lemma fmul_comm (a b : option Z) : a ⊗ b = b ⊗ a.
Proof. destruct a, b; cbn; try reflexivity. now rewrite Z.add_comm. Qed.

Lemma fmul_assoc (a b c : option Z) : (a ⊗ b) ⊗ c = a ⊗ (b ⊗ c).
Proof.
  destruct a as [x|], b as [y|], c as [z|]; cbn; try reflexivity.
  rewrite Zplus_mod_idemp_l, Zplus_mod_idemp_r. do 2 f_equal. ring.
Qed.

Lemma fmul_zero_r (a : option Z) : a ⊗ None = None.
Proof. now destruct a. Qed.

Lemma fmul_distr_l (a b c : option Z) :
  In a (exponents t) -> In b (exponents t) -> In c (exponents t) ->
  a ⊗ (b ⊕ c) = (a ⊗ b) ⊕ (a ⊗ c).
Proof. exact (mul_distributes gspec t Hbuilt Hok Hq a b c). Qed.

Lemma fmul_distr_r (a b c : option Z) :
  In a (exponents t) -> In b (exponents t) -> In c (exponents t) ->
  (a ⊕ b) ⊗ c = (a ⊗ c) ⊕ (b ⊗ c).
Proof.
  intros Ha Hb Hc.
  rewrite (fmul_comm (a ⊕ b) c), fmul_distr_l by assumption.
  now rewrite (fmul_comm c a), (fmul_comm c b).
Qed.

(** Squaring is additive (the characteristic is 2) and multiplicative, and
    it fixes 0 and 1 only. *)
Lemma square_add (a b : option Z) :
  In a (exponents t) -> In b (exponents t) ->
  square (q t) (a ⊕ b) = square (q t) a ⊕ square (q t) b.
Proof.
  intros Ha Hb. unfold square.
  rewrite fmul_distr_l by auto using exponent_add.
  rewrite !fmul_distr_r by assumption.
  rewrite (fadd_comm (a ⊗ b) (b ⊗ b)).
  rewrite fadd_shuffle by apply exponent_mul.
  rewrite (fmul_comm b a), fadd_self.
  apply fadd_zero_r. apply exponent_add; apply exponent_mul.
Qed.

Lemma square_mul (a b : option Z) :
  square (q t) (a ⊗ b) = square (q t) a ⊗ square (q t) b.
Proof.
  unfold square. rewrite !fmul_assoc. f_equal.
  rewrite <- !fmul_assoc. f_equal. apply fmul_comm.
Qed.

Lemma square_fixed (e : option Z) :
  In e (exponents t) -> square (q t) e = e -> e = None \/ e = Some 0.
Proof.
  intros He Hsq. apply in_exponents in He. destruct e as [k|]; [right|now left].
  cbn in Hsq. injection Hsq as Hsq. f_equal.
  destruct (Z_lt_le_dec (k + k) (q t - 1)) as [Hlt|Hge].
  - rewrite Z.mod_small in Hsq by lia. lia.
  - replace (k + k) with (k + k - (q t - 1) + 1 * (q t - 1)) in Hsq by ring.
    rewrite Z.mod_add, Z.mod_small in Hsq by lia. lia.
Qed.

(** *** Sums, multiples and products by [X + c] *)

Lemma poly_add_canonical (p r : list (option Z)) :
  canonical_poly t p -> canonical_poly t r -> canonical_poly t (poly_add t p r).
Proof.
  intros Hp. revert r. induction Hp as [|a p Ha Hp IH]; intros r Hr; [exact Hr|].
  destruct Hr as [|b r Hb Hr]; [now constructor|].
  cbn. constructor; [now apply exponent_add|now apply IH].
Qed.

Lemma poly_scale_canonical (c : option Z) (p : list (option Z)) :
  canonical_poly t (poly_scale t c p).
Proof.
  apply List.Forall_forall. intros x Hx.
  apply in_map_iff in Hx as (y & <- & _). apply exponent_mul.
Qed.

Lemma poly_times_canonical (c : option Z) (p : list (option Z)) :
  canonical_poly t p -> canonical_poly t (poly_times_linear t c p).
Proof.
  intros Hp. apply poly_add_canonical; [|apply poly_scale_canonical].
  constructor; [apply exponent_None|exact Hp].
Qed.

Lemma root_product_canonical (cs : list (option Z)) :
  canonical_poly t (root_product t cs).
Proof.
  induction cs as [|c cs IH]; cbn.
  - constructor; [apply exponent_one|constructor].
  - now apply poly_times_canonical.
Qed.

Lemma poly_value_canonical (p : list (option Z)) (x : option Z) :
  canonical_poly t p -> In (poly_value t p x) (exponents t).
Proof.
  induction 1 as [|a p Ha Hp IH]; cbn; [apply exponent_None|].
  apply exponent_add; [exact Ha|apply exponent_mul].
Qed.

Lemma poly_add_comm (p r : list (option Z)) : poly_add t p r = poly_add t r p.
Proof.
  revert r. induction p as [|a p IH]; intros [|b r]; cbn; try reflexivity.
  now rewrite fadd_comm, IH.
Qed.

Lemma poly_add_assoc (p r s : list (option Z)) :
  canonical_poly t p -> canonical_poly t r -> canonical_poly t s ->
  poly_add t (poly_add t p r) s = poly_add t p (poly_add t r s).
Proof.
  intros Hp. revert r s. induction Hp as [|a p Ha Hp IH]; intros r s Hr Hs.
  - reflexivity.
  - destruct Hr as [|b r Hb Hr]; [reflexivity|].
    destruct Hs as [|c s Hc Hs]; [reflexivity|].
    cbn. now rewrite fadd_assoc, IH.
Qed.

Lemma poly_add_shuffle (a b c d : list (option Z)) :
  canonical_poly t a -> canonical_poly t b ->
  canonical_poly t c -> canonical_poly t d ->
  poly_add t (poly_add t a b) (poly_add t c d)
  = poly_add t (poly_add t a c) (poly_add t b d).
Proof.
  intros Ha Hb Hc Hd.
  rewrite (poly_add_assoc a b (poly_add t c d)) by auto using poly_add_canonical.
  rewrite <- (poly_add_assoc b c d) by assumption.
  rewrite (poly_add_comm b c).
  rewrite (poly_add_assoc c b d) by assumption.
  now rewrite <- (poly_add_assoc a c (poly_add t b d))
    by auto using poly_add_canonical.
Qed.

Lemma poly_scale_add (c : option Z) (p r : list (option Z)) :
  In c (exponents t) -> canonical_poly t p -> canonical_poly t r ->
  poly_scale t c (poly_add t p r)
  = poly_add t (poly_scale t c p) (poly_scale t c r).
Proof.
  intros Hc Hp. revert r. induction Hp as [|a p Ha Hp IH]; intros r Hr.
  - reflexivity.
  - destruct Hr as [|b r Hb Hr]; [reflexivity|].
    cbn. rewrite fmul_distr_l by assumption. f_equal. now apply IH.
Qed.

Lemma poly_scale_scale (c d : option Z) (p : list (option Z)) :
  poly_scale t c (poly_scale t d p) = poly_scale t d (poly_scale t c p).
Proof.
  unfold poly_scale. rewrite !map_map. apply map_ext. intros a.
  now rewrite <- !fmul_assoc, (fmul_comm c d).
Qed.

Lemma poly_times_twice (c d : option Z) (p : list (option Z)) :
  In c (exponents t) -> In d (exponents t) -> canonical_poly t p ->
  poly_times_linear t c (poly_times_linear t d p)
  = poly_add t (poly_add t (None :: None :: p) (None :: poly_scale t d p))
               (poly_add t (None :: poly_scale t c p)
                           (poly_scale t c (poly_scale t d p))).
Proof.
  intros Hc Hd Hp. unfold poly_times_linear at 1.
  assert (Hs : canonical_poly t (None :: p))
    by (constructor; [apply exponent_None|exact Hp]).
  f_equal.
  - unfold poly_times_linear. cbn [poly_add]. now rewrite fadd_self.
  - unfold poly_times_linear.
    rewrite poly_scale_add by auto using poly_scale_canonical.
    f_equal. cbn. now rewrite fmul_zero_r.
Qed.

(** The factors [X + c] commute. *)
Lemma poly_times_comm (c d : option Z) (p : list (option Z)) :
  In c (exponents t) -> In d (exponents t) -> canonical_poly t p ->
  poly_times_linear t c (poly_times_linear t d p)
  = poly_times_linear t d (poly_times_linear t c p).
Proof.
  intros Hc Hd Hp. rewrite !poly_times_twice by assumption.
  assert (Hs : forall l, canonical_poly t l -> canonical_poly t (None :: l))
    by (intros l Hl; constructor; [apply exponent_None|exact Hl]).
  rewrite poly_add_shuffle by auto using poly_scale_canonical.
  now rewrite (poly_scale_scale c d).
Qed.

Lemma root_product_cons (c : option Z) (cs : list (option Z)) :
  root_product t (c :: cs) = poly_times_linear t c (root_product t cs).
Proof. reflexivity. Qed.

Lemma root_product_rotate (cs : list (option Z)) (c : option Z) :
  canonical_poly t cs -> In c (exponents t) ->
  root_product t (cs ++ [c]) = root_product t (c :: cs).
Proof.
  intros Hcs Hc. induction Hcs as [|d cs Hd Hcs IH]; [reflexivity|].
  rewrite <- app_comm_cons, !root_product_cons, IH, root_product_cons.
  apply poly_times_comm; auto. apply root_product_canonical.
Qed.

(** *** Values *)

Lemma poly_value_add (p r : list (option Z)) (x : option Z) :
  canonical_poly t p -> canonical_poly t r -> In x (exponents t) ->
  poly_value t (poly_add t p r) x = poly_value t p x ⊕ poly_value t r x.
Proof.
  intros Hp. revert r. induction Hp as [|a p Ha Hp IH]; intros r Hr Hx.
  - cbn. symmetry. apply fadd_zero_l. now apply poly_value_canonical.
  - destruct Hr as [|b r Hb Hr].
    + symmetry. apply fadd_zero_r. apply poly_value_canonical. now constructor.
    + cbn. rewrite IH by assumption.
      rewrite fmul_distr_l by auto using poly_value_canonical.
      apply fadd_shuffle; auto using exponent_mul.
Qed.

Lemma poly_value_scale (c : option Z) (p : list (option Z)) (x : option Z) :
  In c (exponents t) -> canonical_poly t p -> In x (exponents t) ->
  poly_value t (poly_scale t c p) x = c ⊗ poly_value t p x.
Proof.
  intros Hc Hp Hx. induction Hp as [|a p Ha Hp IH]; cbn.
  - now rewrite fmul_zero_r.
  - fold (poly_scale t c p). rewrite IH.
    rewrite fmul_distr_l by auto using exponent_mul.
    f_equal. now rewrite <- !fmul_assoc, (fmul_comm x c).
Qed.

Lemma poly_value_times (c : option Z) (p : list (option Z)) (x : option Z) :
  In c (exponents t) -> canonical_poly t p -> In x (exponents t) ->
  poly_value t (poly_times_linear t c p) x = (x ⊕ c) ⊗ poly_value t p x.
Proof.
  intros Hc Hp Hx. unfold poly_times_linear.
  rewrite poly_value_add; auto using poly_scale_canonical.
  - rewrite poly_value_scale by assumption. cbn [poly_value].
    rewrite fadd_zero_l by apply exponent_mul.
    symmetry. apply fmul_distr_r; auto using poly_value_canonical.
  - constructor; [apply exponent_None|exact Hp].
Qed.

(** Each [c] of the list is a root of the product of the [X + c]. *)
Lemma root_product_root (cs : list (option Z)) (x : option Z) :
  canonical_poly t cs -> In x cs -> poly_value t (root_product t cs) x = None.
Proof.
  intros Hcs Hin. assert (Hx : In x (exponents t)).
  { unfold canonical_poly in Hcs. rewrite List.Forall_forall in Hcs. auto. }
  induction Hcs as [|c cs Hc Hcs IH]; [destruct Hin|].
  rewrite root_product_cons.
  rewrite poly_value_times; auto using root_product_canonical.
  destruct Hin as [->|Hin].
  - now rewrite fadd_self.
  - rewrite IH by exact Hin. apply fmul_zero_r.
Qed.

(** *** Squares of the coefficients *)

Lemma map_square_add (p r : list (option Z)) :
  canonical_poly t p -> canonical_poly t r ->
  map (square (q t)) (poly_add t p r)
  = poly_add t (map (square (q t)) p) (map (square (q t)) r).
Proof.
  intros Hp. revert r. induction Hp as [|a p Ha Hp IH]; intros r Hr.
  - reflexivity.
  - destruct Hr as [|b r Hb Hr]; [reflexivity|].
    cbn. rewrite square_add by assumption. f_equal. now apply IH.
Qed.

Lemma map_square_scale (c : option Z) (p : list (option Z)) :
  map (square (q t)) (poly_scale t c p)
  = poly_scale t (square (q t) c) (map (square (q t)) p).
Proof.
  unfold poly_scale. rewrite !map_map. apply map_ext. intros a. apply square_mul.
Qed.

Lemma map_square_times (c : option Z) (p : list (option Z)) :
  canonical_poly t p ->
  map (square (q t)) (poly_times_linear t c p)
  = poly_times_linear t (square (q t) c) (map (square (q t)) p).
Proof.
  intros Hp. unfold poly_times_linear.
  rewrite map_square_add, map_square_scale; auto using poly_scale_canonical.
  constructor; [apply exponent_None|exact Hp].
Qed.

Lemma map_square_root_product (cs : list (option Z)) :
  map (square (q t)) (root_product t cs)
  = root_product t (map (square (q t)) cs).
Proof.
  induction cs as [|c cs IH].
  - cbn. now rewrite Z.mod_0_l by lia.
  - cbn [map]. rewrite !root_product_cons.
    rewrite map_square_times by apply root_product_canonical. now rewrite IH.
Qed.

Lemma square_fixed_coefficients (p : list (option Z)) :
  canonical_poly t p -> map (square (q t)) p = p ->
  Forall (fun e => e = None \/ e = Some 0) p.
Proof.
  induction 1 as [|a p Ha Hp IH]; intros Hsq; [constructor|].
  cbn in Hsq. injection Hsq as Ha2 Hp2.
  constructor; [now apply square_fixed|now apply IH].
Qed.


(** *** The shape of a product *)

Lemma poly_add_longer (p r : list (option Z)) (z : option Z) :
  length r = length p -> poly_add t (p ++ [z]) r = poly_add t p r ++ [z].
Proof.
  revert r. induction p as [|a p IH]; intros [|b r] Hlen; try discriminate.
  - reflexivity.
  - cbn. f_equal. apply IH. now injection Hlen.
Qed.

Lemma poly_add_length (p r : list (option Z)) :
  length r = length p -> length (poly_add t p r) = length p.
Proof.
  revert r. induction p as [|a p IH]; intros [|b r] Hlen; try discriminate.
  - reflexivity.
  - cbn. f_equal. apply IH. now injection Hlen.
Qed.

(** The product is monic of degree the number of factors. *)
Lemma root_product_monic (cs : list (option Z)) :
  exists front, root_product t cs = front ++ [Some 0] /\
                length front = length cs.
Proof.
  induction cs as [|c cs (front & Hp & Hlen)].
  - exists []. split; reflexivity.
  - rewrite root_product_cons, Hp. unfold poly_times_linear.
    change (None :: front ++ [Some 0]) with ((None :: front) ++ [Some 0]).
    assert (Hl : length (poly_scale t c (front ++ [Some 0])) = length (None :: front)).
    { unfold poly_scale. rewrite length_map, length_app. cbn. lia. }
    rewrite poly_add_longer by exact Hl.
    eexists. split; [reflexivity|].
    rewrite poly_add_length by exact Hl. cbn. now rewrite Hlen.
Qed.

(** Its constant term is not zero when no factor is [X]. *)
Lemma root_product_constant (cs : list (option Z)) :
  Forall (fun c => c <> None) cs ->
  exists s rest, root_product t cs = Some s :: rest.
Proof.
  induction 1 as [|c cs Hc Hcs (s & rest & Hp)].
  - now exists 0, [].
  - rewrite root_product_cons, Hp. destruct c as [x|]; [|contradiction].
    unfold poly_times_linear. cbn [poly_scale map poly_add mul_exponents].
    rewrite fadd_zero_l by apply (exponent_mul (Some x) (Some s)).
    eauto.
Qed.

(** *** The sum the inner loop of [minpoly] computes *)

Section Terms.

Variable n : Z.
Hypothesis Hn : 0 <= n <= q t - 2.

Lemma exponent_power (k : Z) : In (Some ((n * k) mod (q t - 1))) (exponents t).
Proof.
  apply in_exponents. pose proof (Z.mod_pos_bound (n * k) (q t - 1)). lia.
Qed.

Lemma power_succ (k : Z) :
  Some ((n * (k + 1)) mod (q t - 1)) = Some n ⊗ Some ((n * k) mod (q t - 1)).
Proof. cbn. rewrite Zplus_mod_idemp_r. do 2 f_equal. ring. Qed.

Lemma terms_value_canonical (cs : list Z) (acc : option Z) :
  In acc (exponents t) -> In (terms_value t n cs acc) (exponents t).
Proof.
  revert acc. induction cs as [|c cs IH]; intros acc Hacc; [exact Hacc|].
  cbn [terms_value]. apply IH. destruct (c >? 0); [|exact Hacc].
  apply exponent_add; [exact Hacc|apply exponent_power].
Qed.

Lemma terms_value_acc (cs : list Z) (acc : option Z) :
  In acc (exponents t) ->
  terms_value t n cs acc = acc ⊕ terms_value t n cs None.
Proof.
  revert acc. induction cs as [|c cs IH]; intros acc Hacc.
  - cbn. symmetry. now apply fadd_zero_r.
  - cbn [terms_value]. destruct (c >? 0).
    + rewrite IH by (apply exponent_add; [exact Hacc|apply exponent_power]).
      rewrite (IH (None ⊕ _))
        by (apply exponent_add; [apply exponent_None|apply exponent_power]).
      rewrite fadd_zero_l by apply exponent_power.
      apply fadd_assoc; [exact Hacc|apply exponent_power|].
      apply terms_value_canonical, exponent_None.
    + now apply IH.
Qed.

(** One more coefficient at the end multiplies the sum by the element and
    adds the coefficient. *)
Lemma terms_value_snoc (cs : list Z) (c0 : Z) :
  terms_value t n (cs ++ [c0]) None
  = (Some n ⊗ terms_value t n cs None) ⊕ (if c0 >? 0 then Some 0 else None).
Proof.
  induction cs as [|c cs IH].
  - cbn. rewrite Z.mul_0_r, Z.mod_0_l by lia.
    destruct (c0 >? 0).
    + rewrite !fadd_zero_l; auto using exponent_one.
    + now rewrite fadd_self.
  - cbn [app terms_value]. rewrite length_app. cbn [length].
    replace (Z.of_nat (length cs + 1)) with (Z.of_nat (length cs) + 1) by lia.
    destruct (c >? 0).
    + rewrite !fadd_zero_l by apply exponent_power.
      rewrite terms_value_acc by apply exponent_power.
      rewrite (terms_value_acc cs (Some _)) by apply exponent_power.
      rewrite IH, power_succ.
      rewrite fmul_distr_l; auto using exponent_power.
      * symmetry. apply fadd_assoc; try apply exponent_mul.
        destruct (c0 >? 0); [apply exponent_one|apply exponent_None].
      * apply in_exponents. exact Hn.
      * apply terms_value_canonical, exponent_None.
    + exact IH.
Qed.

(** On the coefficients of a polynomial with coefficients 0 and 1, written
    from the leading one, the loop computes the value of the polynomial. *)
Lemma terms_value_rev (p : list (option Z)) :
  Forall (fun e => e = None \/ e = Some 0) p ->
  terms_value t n (rev (map bit_of p)) None = poly_value t p (Some n).
Proof.
  induction 1 as [|s p Hs Hp IH]; [reflexivity|].
  cbn [map rev]. rewrite terms_value_snoc, IH. cbn [poly_value].
  rewrite fadd_comm. f_equal. destruct Hs as [->| ->]; reflexivity.
Qed.

Variable self : ffelt.
Hypothesis Hfs : f self = t.
Hypothesis Hqs : elt_q self = q t.
Hypothesis He : elt self = Some n.

Lemma eval_terms_exponents (cs : list Z) :
  forall (len power : Z) (acc : ffelt),
    len - power = Z.of_nat (length cs) ->
    f acc = t -> elt_q acc = q t -> In (elt acc) (exponents t) ->
    eval_terms self len power cs acc
    = Ok (with_elt acc (terms_value t n cs (elt acc))).
Proof.
  induction cs as [|c cs IH]; intros len power acc Hlen Hfa Hqa Hea.
  - cbn. now rewrite with_elt_same.
  - cbn [eval_terms terms_value].
    replace (len - power - 1) with (Z.of_nat (length cs))
      by (cbn [length] in Hlen; lia).
    destruct (c >? 0).
    + rewrite (pow_nonzero self n _ He) by lia.
      cbn [mbind result_bind bind]. rewrite Hqs.
      rewrite (ffelt_add_exponents gspec t Hbuilt Hok Hq acc
                 (with_elt self (Some ((n * Z.of_nat (length cs)) mod (q t - 1))))
                 Hfa Hfs ltac:(cbn; congruence) Hea (exponent_power _)).
      cbn [mbind result_bind bind].
      rewrite IH; cbn [with_elt f elt_q elt]; auto.
      * cbn [length] in Hlen. lia.
      * apply exponent_add; [exact Hea|apply exponent_power].
    + cbn [mbind result_bind bind]. apply IH; auto.
      cbn [length] in Hlen. lia.
Qed.

Lemma poly_eval_exponents (cand : list Z) :
  poly_eval self cand
  = Ok (with_elt (zero_of t) (terms_value t n cand None)).
Proof.
  unfold poly_eval. rewrite Hfs.
  change (ffelt_init VNone (VField t)) with (Ok (zero_of t)).
  cbn [mbind result_bind bind].
  apply eval_terms_exponents; auto using exponent_None. lia.
Qed.

(** The search returns the first candidate that has the element as a root,
    when there is one. *)
Lemma minpoly_search_finds (num : nat) (idxs : list N) :
  forall last : option (list Z),
    (exists j, In j idxs /\
       terms_value t n ([1] ++ bin_array j (num - 1) ++ [1]) None = None) ->
    exists j, In j idxs /\
      minpoly_search self num idxs last
      = Ok (Some ([1] ++ bin_array j (num - 1) ++ [1])) /\
      terms_value t n ([1] ++ bin_array j (num - 1) ++ [1]) None = None.
Proof.
  induction idxs as [|i idxs IH]; intros last (j & Hin & Hroot); [destruct Hin|].
  cbn [minpoly_search]. rewrite poly_eval_exponents.
  cbn [mbind result_bind bind]. rewrite ffelt_eq_int.
  cbn [mbind result_bind bind elt_eq_int Z.eqb truth with_elt elt].
  destruct (decide (terms_value t n ([1] ++ bin_array i (num - 1) ++ [1]) None
                    = None)) as [Hi|Hi].
  - rewrite bool_decide_eq_true_2 by exact Hi.
    exists i. split; [now left|]. split; [reflexivity|exact Hi].
  - rewrite bool_decide_eq_false_2 by exact Hi.
    destruct Hin as [->|Hin]; [contradiction|].
    destruct (IH (Some ([1] ++ bin_array i (num - 1) ++ [1])))
      as (j' & Hj' & Hrun & Hroot'); [eauto|].
    exists j'. split; [now right|]. split; assumption.
Qed.

End Terms.

(** *** The product over the conjugates *)

Section MinimalPolynomial.

Variable n : Z.
Hypothesis Hn : 1 <= n <= q t - 2.
Variable len : nat.
Hypothesis Hlen : (1 <= len)%nat.
Hypothesis Hret : Nat.iter len (double (q t)) n = n.
Hypothesis Hmin : forall k, (1 <= k < len)%nat -> Nat.iter k (double (q t)) n <> n.

Lemma orbit_canonical (k : nat) : canonical_poly t (orbit_exponents (q t) n k).
Proof.
  apply List.Forall_forall. intros x Hx.
  apply in_map_iff in Hx as (i & <- & _). apply in_exponents.
  destruct (ff_init_order gspec t Hbuilt) as [_ Hm].
  apply (iter_double_range (q t) (m t) Hm). lia.
Qed.

Lemma orbit_nonzero (k : nat) :
  Forall (fun c => c <> None) (orbit_exponents (q t) n k).
Proof.
  apply List.Forall_forall. intros x Hx.
  now apply in_map_iff in Hx as (i & <- & _).
Qed.

Lemma orbit_head (k : nat) :
  orbit_exponents (q t) n (S k)
  = Some n :: map (fun i => Some (Nat.iter i (double (q t)) n)) (seq 1 k).
Proof. reflexivity. Qed.

(** Squaring sends each conjugate to the next and the last to the first. *)
Lemma orbit_square :
  map (square (q t)) (orbit_exponents (q t) n len)
  = map (fun i => Some (Nat.iter i (double (q t)) n)) (seq 1 (len - 1))
    ++ [Some n].
Proof.
  unfold orbit_exponents. rewrite map_map.
  rewrite (map_ext _ (fun k => Some (Nat.iter (S k) (double (q t)) n)))
    by reflexivity.
  rewrite <- (map_map S (fun k => Some (Nat.iter k (double (q t)) n))).
  rewrite seq_shift. destruct len as [|k]; [lia|].
  rewrite seq_S, map_app. cbn [map]. change (1 + k)%nat with (S k).
  rewrite Hret. now replace (S k - 1)%nat with k by lia.
Qed.

(** So the product of the [X + c] over the conjugates has its coefficients
    fixed by squaring: they are 0 and 1. *)
Lemma orbit_product_bits :
  Forall (fun e => e = None \/ e = Some 0)
         (root_product t (orbit_exponents (q t) n len)).
Proof.
  apply square_fixed_coefficients; [apply root_product_canonical|].
  rewrite map_square_root_product, orbit_square.
  assert (Htl : canonical_poly t
            (map (fun i => Some (Nat.iter i (double (q t)) n)) (seq 1 (len - 1)))).
  { pose proof (orbit_canonical len) as Hc. destruct len as [|k]; [lia|].
    rewrite orbit_head in Hc. replace (S k - 1)%nat with k by lia.
    now inversion Hc. }
  rewrite root_product_rotate by (auto; apply in_exponents; lia).
  destruct len as [|k]; [lia|].
  now replace (S k - 1)%nat with k by lia.
Qed.

Lemma orbit_length : (2 <= len)%nat.
Proof.
  destruct (Nat.eq_dec len 1%nat) as [H1|?]; [|lia]. exfalso.
  rewrite H1 in Hret. cbn in Hret.
  destruct (square_fixed (Some n)) as [?|[= ?]]; try discriminate; try lia.
  - apply in_exponents. lia.
  - cbn. f_equal. exact Hret.
Qed.

(** One of the candidates of the search has the element as a root. *)
Lemma minpoly_candidate_exists :
  exists j, (j < 2 ^ N.of_nat (len - 1))%N /\
    terms_value t n ([1] ++ bin_array j (len - 1) ++ [1]) None = None.
Proof.
  pose proof orbit_length as Hlen2.
  pose proof orbit_product_bits as Hbits.
  destruct (root_product_monic (orbit_exponents (q t) n len))
    as (front & Hfront & Hflen).
  destruct (root_product_constant (orbit_exponents (q t) n len) (orbit_nonzero len))
    as (s & rest & Hconst).
  unfold orbit_exponents in Hflen. rewrite length_map, length_seq in Hflen.
  destruct front as [|a mid]; [cbn in Hflen; lia|].
  cbn [length] in Hflen.
  assert (Ha : a = Some 0).
  { rewrite Hfront in Hconst, Hbits. injection Hconst as -> _.
    inversion Hbits as [|? ? [?|?] _]; [discriminate|assumption]. }
  subst a.
  pose (middle := rev (map bit_of mid)).
  assert (Hmb : Forall (fun b => b = 0 \/ b = 1) middle).
  { apply List.Forall_rev, List.Forall_forall. intros b Hb.
    apply in_map_iff in Hb as ([?|] & <- & _); cbn; auto. }
  assert (Hml : length middle = (len - 1)%nat).
  { unfold middle. rewrite length_rev, length_map. lia. }
  destruct (bin_array_of_bits middle Hmb ltac:(lia)) as [Hround Hlt].
  rewrite Hml in Hround, Hlt.
  exists (Z.to_N (bits_value middle)). split; [exact Hlt|].
  rewrite Hround.
  assert (Hcand : [1] ++ middle ++ [1]
                  = rev (map bit_of (root_product t (orbit_exponents (q t) n len)))).
  { rewrite Hfront. cbn [app map rev]. rewrite map_app, rev_app_distr.
    reflexivity. }
  rewrite Hcand, (terms_value_rev n ltac:(lia)) by exact Hbits.
  apply root_product_root; [apply orbit_canonical|].
  destruct len as [|k]; [lia|]. rewrite orbit_head. now left.
Qed.

Variable self : ffelt.
Hypothesis Hfs : f self = t.
Hypothesis Hqs : elt_q self = q t.
Hypothesis He : elt self = Some n.

(** [minpoly] of the element: the search ends on a candidate that has the
    element as a root. *)
Lemma minpoly_of_orbit :
  exists c cl,
    (forall fuel, (len <= fuel)%nat ->
       minpoly fuel self false = Some (Ok c) /\
       conjugates fuel self = Some (Ok cl)) /\
    head c = Some 1 /\ (forall x, In x c -> x = 0 \/ x = 1) /\
    length c = S (length cl) /\
    poly_eval self c = Ok (with_elt (zero_of t) None).
Proof.
  pose proof orbit_length as Hlen2.
  assert (Hn0 : 0 <= n <= q t - 2) by lia.
  pose (cl := map (fun k => orbit_elt self (Nat.iter k (double (elt_q self)) n))
                  (seq 0 len)).
  assert (Hcl : length cl = len) by (unfold cl; now rewrite length_map, length_seq).
  assert (Hconj : forall fuel, (len <= fuel)%nat ->
                    conjugates fuel self = Some (Ok cl)).
  { intros fuel Hfuel. unfold conjugates. rewrite He.
    rewrite (conjugates_loop_run self n ltac:(now rewrite Hqs, Hfs)
               ltac:(rewrite Hfs; lia) len n [] fuel He
               ltac:(rewrite Hfs; lia) ltac:(lia));
      [reflexivity|now rewrite Hqs|].
    intros k Hk. rewrite Hqs. now apply Hmin. }
  destruct minpoly_candidate_exists as (j & Hj & Hroot).
  destruct (minpoly_search_finds n self Hfs Hqs He len
              (nrange (2 ^ N.of_nat (len - 1))) None)
    as (j' & Hj' & Hrun & Hroot').
  { exists j. split; [now apply in_nrange|exact Hroot]. }
  apply in_nrange in Hj'.
  destruct (bin_array_facts j' (len - 1)) as (_ & Hbits & _ & Hw).
  exists ([1] ++ bin_array j' (len - 1) ++ [1]), cl.
  split; [|split; [reflexivity|split; [|split]]].
  - intros fuel Hfuel. split; [|now apply Hconj].
    unfold minpoly. rewrite He.
    destruct (Z.gtb_spec n 0) as [_|?]; [|lia].
    rewrite (Hconj fuel Hfuel), Hcl, Hrun. reflexivity.
  - cbn [app]. intros x [<-|Hx]; [now right|].
    apply in_app_iff in Hx. destruct Hx as [Hx|Hx].
    + rewrite List.Forall_forall in Hbits. now apply Hbits.
    + cbn in Hx. destruct Hx as [<-|[]]. now right.
  - rewrite Hcl. cbn [app length]. rewrite length_app, Hw; [cbn; lia|lia|].
    apply N2Z.inj_lt in Hj'. now rewrite N2Z.inj_pow, nat_N_Z in Hj'.
  - now rewrite (poly_eval_exponents n self Hfs Hqs He), Hroot'.
Qed.

End MinimalPolynomial.

End FieldAlgebra.

(** ** The minimal polynomial of the element 1 *)

Lemma ffelt_add_value (a b : ffelt) (v w : Z) (e : option Z) :
  f b = f a -> elt_q b = elt_q a ->
  power_to_poly (f a) !! elt a = Some v ->
  power_to_poly (f a) !! elt b = Some w ->
  poly_to_power (f a) !! Z.lxor v w = Some e ->
  ffelt_add a (VElt b) = Ok (with_elt a e).
Proof.
  intros Hf Hq Hv Hw He. rewrite ffelt_add_same_field by assumption.
  unfold subscript. rewrite Hv, Hw. cbn. now rewrite He.
Qed.

Lemma minpoly_of_one (fld : ff) (e : ffelt) :
  tables_inverse fld -> 2 <= q fld ->
  f e = fld -> elt_q e = q fld -> elt e = Some 0 ->
  (forall fuel, (1 <= fuel)%nat ->
     minpoly fuel e false = Some (Ok [1; 1]) /\
     conjugates fuel e = Some (Ok [orbit_elt e 0])) /\
  poly_eval e [1; 1] = Ok (with_elt (zero_of fld) None).
Proof.
  intros Hti Hq2 Hf Hq He. split.
  - intros fuel Hfuel. split.
    + unfold minpoly. now rewrite He.
    + unfold conjugates. rewrite He.
      rewrite (conjugates_loop_run e 0 ltac:(congruence) ltac:(rewrite Hf; lia)
                 1%nat 0 [] fuel He ltac:(rewrite Hf; lia) ltac:(lia));
        [reflexivity| |intros k Hk; lia].
      cbn. unfold double. cbn. apply Z.mod_0_l. lia.
  - destruct (ti_powers fld Hti 0 ltac:(lia)) as (v0 & Hv0 & Hback).
    pose proof (ti_zero_key fld Hti) as Hzk.
    pose proof (ti_zero_poly fld Hti) as Hzp.
    assert (H1 : ffelt_add (zero_of fld) (VElt (with_elt e (Some 0)))
                 = Ok (with_elt (zero_of fld) (Some 0))).
    { apply (ffelt_add_value _ _ 0 v0); cbn; auto. }
    assert (H2 : ffelt_add (with_elt (zero_of fld) (Some 0))
                           (VElt (with_elt e (Some 0)))
                 = Ok (with_elt (zero_of fld) None)).
    { rewrite (ffelt_add_value (with_elt (zero_of fld) (Some 0))
                 (with_elt e (Some 0)) v0 v0 None); cbn; auto.
      now rewrite Z.lxor_nilpotent. }
    unfold poly_eval. rewrite Hf.
    change (ffelt_init VNone (VField fld)) with (Ok (zero_of fld)).
    cbn [mbind result_bind bind eval_terms].
    change (1 >? 0) with true. cbv iota.
    rewrite !(pow_nonzero e 0 _ He) by lia.
    cbn [mbind result_bind bind Z.mul]. rewrite !Z.mod_0_l by lia.
    rewrite H1. cbn [mbind result_bind bind]. now rewrite H2.
Qed.

(** C2.  In every field built from a primitive polynomial, given by its
    order in the catalog or by its list of exponents, and for every int
    exponent [n] (0 included), [minpoly] of [ffelt(n, spec)] returns a
    coefficient vector, most significant first, that is monic, has
    coefficients 0 and 1, has degree equal to the number of conjugates of
    the element, and on which the evaluation loop of [minpoly] (the sum of
    [e**(degree - i)] over the nonzero coefficients, with the field's [**]
    and [+]) gives the zero sentinel.  In GF(8) built from the exponents
    [0, 1, 3], [minpoly] of the element with exponent 1 is [1, 0, 1, 1]. *)
Theorem minpoly_root_and_degree :
  (forall (gspec : pyval) (fld : ff) (n : Z),
     ff_init gspec = Ok fld -> primitive fld ->
     exists e c cl r,
       ffelt2 (VInt n) gspec = Ok e /\
       elt e = Some (n mod (q fld - 1)) /\
       (forall fuel, (Z.to_nat (m fld) <= fuel)%nat ->
          minpoly fuel e false = Some (Ok c) /\
          conjugates fuel e = Some (Ok cl)) /\
       head c = Some 1 /\
       (forall x, In x c -> x = 0 \/ x = 1) /\
       length c = S (length cl) /\
       poly_eval e c = Ok r /\ elt r = None /\
       ffelt_eq r (VInt 0) = Ok (Some true)) /\
  (exists e, ffelt2 (VInt 1) (VList [0; 1; 3]%N) = Ok e /\ elt e = Some 1 /\
     forall fuel, (8 <= fuel)%nat -> minpoly fuel e false = Some (Ok [1; 0; 1; 1])).
Proof.
  split.
  - intros gspec fld n Hfld Hprim.
    destruct (primitive_order gspec fld Hfld Hprim) as (Hqm & Hm & Hq2).
    pose proof (Z.mod_pos_bound n (q fld - 1) ltac:(lia)) as Hn.
    assert (Hz : ffelt_eq (with_elt (zero_of fld) None) (VInt 0) = Ok (Some true)).
    { now rewrite ffelt_eq_int. }
    exists (elt_of fld n).
    rewrite (ffelt2_built gspec fld) by exact Hfld. rewrite ffelt2_int by lia.
    destruct (Z.eq_dec (n mod (q fld - 1)) 0) as [H0|Hne].
    + destruct (minpoly_of_one fld (elt_of fld n)
                  (primitive_tables gspec fld Hfld Hprim) Hq2 eq_refl eq_refl)
        as [Hrun Hev]; [cbn; now rewrite H0|].
      exists [1; 1], [orbit_elt (elt_of fld n) 0], (with_elt (zero_of fld) None).
      split; [reflexivity|]. split; [reflexivity|].
      split; [intros fuel Hfuel; apply Hrun; lia|].
      split; [reflexivity|]. split; [cbn; intros x [<-|[<-|[]]]; auto|].
      split; [reflexivity|]. split; [exact Hev|]. split; [reflexivity|exact Hz].
    + assert (Hm2 : 2 <= m fld).
      { destruct (Z.eq_dec (m fld) 1) as [H1|?]; [|lia].
        rewrite H1 in Hqm. cbn in Hqm. lia. }
      assert (Hq4 : 4 <= q fld).
      { rewrite Hqm. change 4 with (2 ^ 2). apply Z.pow_le_mono_r; lia. }
      destruct (first_return (q fld) (m fld) Hqm ltac:(lia)
                  (n mod (q fld - 1)) ltac:(lia))
        as (len & Hlen & Hdiv & Hret & Hmin).
      assert (Hle : (len <= Z.to_nat (m fld))%nat).
      { apply Z.divide_pos_le in Hdiv; lia. }
      destruct (minpoly_of_orbit gspec fld Hfld
                  (primitive_field_ok gspec fld Hfld Hprim) Hq4
                  (n mod (q fld - 1)) ltac:(lia) len Hlen Hret Hmin
                  (elt_of fld n) eq_refl eq_refl eq_refl)
        as (c & cl & Hrun & Hhd & Hbits & Hlenc & Hev).
      exists c, cl, (with_elt (zero_of fld) None).
      split; [reflexivity|]. split; [reflexivity|].
      split; [intros fuel Hfuel; apply Hrun; lia|].
      repeat (split; [assumption|]). split; [reflexivity|exact Hz].
  - destruct (holds_on_elim (ffelt2 (VInt 1) (VList [0; 1; 3]%N))
      (fun e => bool_decide (elt e = Some 1) &&
                bool_decide (minpoly 8 e false = Some (Ok [1; 0; 1; 1]))))
      as (e & He & Hc); [vm_compute; reflexivity|].
    rewrite andb_true_iff, !bool_decide_eq_true in Hc. destruct Hc as [Hexp Hmp].
    exists e. split; [exact He|]. split; [exact Hexp|].
    intros fuel Hfuel. now apply (minpoly_mono 8 fuel).
Qed.

Lemma minpoly_root_and_degree_witness :
  exists e c, ffelt2 (VInt 3) (VList [0; 2; 3]%N) = Ok e /\
    minpoly 3 e false = Some (Ok c) /\ head c = Some 1 /\
    exists r, poly_eval e c = Ok r /\ elt r = None.
Proof.
  destruct gf8_second_primitive as (fld & Hfld & Hprim & Hm & _).
  destruct (proj1 minpoly_root_and_degree (VList [0; 2; 3]%N) fld 3 Hfld Hprim)
    as (e & c & cl & r & He & _ & Hrun & Hhd & _ & _ & Hr & Hz & _).
  exists e, c. split; [exact He|]. split.
  - apply (Hrun 3%nat). rewrite Hm. lia.
  - split; [exact Hhd|]. exists r. split; [exact Hr|exact Hz].
Defined.
